(** * Orbnav: the galaxy scene runtime (GalaxyCanvas)

    A shallow embedding of the scene component: the per-frame particle
    formula, the label billboard scaling, the disturbance-weight smoothing,
    the constellation builder, the pointer/pick handlers, the camera focus
    effect and the frame.

    JavaScript numbers are embedded as real numbers [R]: every arithmetic
    operation of the source is the exact operation (no rounding, also not
    the rounding of the [Float32Array] buffers, and no NaN).  [Math.sin],
    [Math.cos], [Math.sqrt] and [Math.hypot] are [sin], [cos], [sqrt] and
    the square root of the sum of squares.  Comparisons of the source
    ([<], [>]) are the boolean tests [Rltb] and [Rgtb].

    Two places of the constellation builder take a branch on a number
    that rounding or underflow can change: the sort of the candidates by
    [distanceToSquared] and the test of the curve normal after
    [normalize].  There the builder is also given with the computed
    number as a parameter ([Constellation.candidatesWith],
    [Constellation.curveNormalWith]), and [Double] has the rounding of
    binary64 to instantiate it.

    The closure variables of the mount effect, [runtimeRef.current], the
    three.js objects the handlers write to and the gsap tweens make up one
    record, [Scene.Scene]; a handler is a function on this record.  Calls
    to the callbacks of the props are appended to [Scene.emitted].  What
    three.js computes and the source only calls ([Vector3.unproject],
    [OrbitControls.update], the ray cast of the hit test) is a parameter
    or an input of the handler.  The scene is followed from [Scene.mount]
    until it is unmounted.

    Beside the scene stand the site data ([Sites]: the string hash, the
    HSL conversion, the colours, addresses and orbit positions of the
    seeds; its integers are [Z] with the 32 bit wrap of [|] and [<<]
    written out), the deep background field ([DeepField]) and the page
    ([App]: the state the callbacks of the scene write, and the tooltip
    drawn from it). *)

From Stdlib Require Import Reals Lra Lia List Bool Arith ZArith String Ascii.
From Stdlib Require Import Permutation Sorted.
Import ListNotations.

Local Open Scope R_scope.

(** ** Numbers *)

Definition Rltb (a b : R) : bool := if Rlt_dec a b then true else false.
Definition Rgtb (a b : R) : bool := Rltb b a.

(** [THREE.MathUtils.clamp(value, min, max)], which is
    [Math.max(min, Math.min(max, value))]. *)
Definition clamp (value lo hi : R) : R := Rmax lo (Rmin hi value).

(** [Math.hypot(a, b)] *)
Definition hypot (a b : R) : R := sqrt (a * a + b * b).

(** ** THREE.Vector3 *)

Record Vec3 : Type := mkVec3 { vx : R; vy : R; vz : R }.

Module Vector3.

Definition add (a b : Vec3) : Vec3 :=
  mkVec3 (vx a + vx b) (vy a + vy b) (vz a + vz b).

Definition sub (a b : Vec3) : Vec3 :=
  mkVec3 (vx a - vx b) (vy a - vy b) (vz a - vz b).

Definition multiplyScalar (a : Vec3) (s : R) : Vec3 :=
  mkVec3 (vx a * s) (vy a * s) (vz a * s).

Definition divideScalar (a : Vec3) (s : R) : Vec3 := multiplyScalar a (1 / s).

Definition addScaledVector (a v : Vec3) (s : R) : Vec3 :=
  mkVec3 (vx a + vx v * s) (vy a + vy v * s) (vz a + vz v * s).

Definition lengthSq (a : Vec3) : R := vx a * vx a + vy a * vy a + vz a * vz a.

Definition length (a : Vec3) : R := sqrt (lengthSq a).

Definition distanceToSquared (a b : Vec3) : R :=
  let dx := vx a - vx b in
  let dy := vy a - vy b in
  let dz := vz a - vz b in
  dx * dx + dy * dy + dz * dz.

Definition distanceTo (a b : Vec3) : R := sqrt (distanceToSquared a b).

(** [this.length() || 1]: a zero length is falsy and replaced by 1. *)
Definition length_or_1 (a : Vec3) : R :=
  if Req_dec_T (length a) 0 then 1 else length a.

(** [normalize() { return this.divideScalar(this.length() || 1) }] *)
Definition normalize (a : Vec3) : Vec3 := divideScalar a (length_or_1 a).

(** [lerp(v, alpha)] *)
Definition lerp (a v : Vec3) (alpha : R) : Vec3 :=
  mkVec3 (vx a + (vx v - vx a) * alpha)
         (vy a + (vy v - vy a) * alpha)
         (vz a + (vz v - vz a) * alpha).

(** The world position of a point of a group rotated by [theta] about the
    y axis ([Object3D.rotation.y]). *)
Definition applyRotationY (theta : R) (a : Vec3) : Vec3 :=
  mkVec3 (vx a * cos theta + vz a * sin theta)
         (vy a)
         (vz a * cos theta - vx a * sin theta).

End Vector3.

(** ** Double arithmetic *)

Module Double.

(** IEEE 754 binary64 numbers as the reals they stand for.  Every
    arithmetic operation of the language returns the exact result rounded
    to the nearest double, ties to the even significand, with gradual
    underflow down to [2^-1074].  Overflow to [Infinity] has no
    counterpart here: [round] is the rounding of results below [2^1024]
    in absolute value.  The rounding of 0 is 0, whatever exponent it is
    given. *)

(** The exponent of the binade of [x], not below that of the subnormal
    numbers. *)
Definition exponent (x : R) : Z :=
  Z.max (Int_part (ln (Rabs x) / ln 2)) (-1022).

(** The distance between neighbouring doubles around [x]. *)
Definition ulp (x : R) : R := powerRZ 2 (exponent x - 52).

Definition nearestEven (y : R) : Z :=
  let below := Int_part y in
  if Rltb (y - IZR below) (1 / 2) then below
  else if Rltb (1 / 2) (y - IZR below) then (below + 1)%Z
  else if Z.even below then below else (below + 1)%Z.

Definition round (x : R) : R := IZR (nearestEven (x / ulp x)) * ulp x.

Definition add (a b : R) : R := round (a + b).
Definition sub (a b : R) : R := round (a - b).
Definition mul (a b : R) : R := round (a * b).
Definition Math_sqrt (a : R) : R := round (sqrt a).

(** [Vector3.lengthSq()], [Vector3.length()] and
    [Vector3.distanceToSquared(v)] as three.js computes them. *)
Definition lengthSq (a : Vec3) : R :=
  add (add (mul (vx a) (vx a)) (mul (vy a) (vy a))) (mul (vz a) (vz a)).

Definition length (a : Vec3) : R := Math_sqrt (lengthSq a).

Definition distanceToSquared (a b : Vec3) : R :=
  let dx := sub (vx a) (vx b) in
  let dy := sub (vy a) (vy b) in
  let dz := sub (vz a) (vz b) in
  add (add (mul dx dx) (mul dy dy)) (mul dz dz).

End Double.

Definition BASE_CAMERA_POSITION : Vec3 := mkVec3 0 0 40.
Definition FOCUS_DISTANCE : R := 8.
Definition FOCUS_DURATION : R := 1.85.
Definition DISTURB_RADIUS : R := 18.
Definition DISTURB_INTENSITY : R := 0.62.


(** ** Label billboards (step 7 of the frame) *)

Module Labels.

(** [THREE.MathUtils.clamp(3.1 - distance * 0.045, 0.72, 2.35)] *)
Definition labelScale (distance : R) : R :=
  clamp (3.1 - distance * 0.045) 0.72 2.35.

(** [THREE.MathUtils.clamp(1.04 - distance * 0.012, 0.24, 0.95)] *)
Definition labelOpacity (distance : R) : R :=
  clamp (1.04 - distance * 0.012) 0.24 0.95.

(** One label of the loop: the sprite scale [(aspect * scale, scale, 1)]
    and the material opacity, from the camera position and the label's
    world position. *)
Definition updateLabel (cameraPosition labelWorld : Vec3) (aspect : R)
  : Vec3 * R :=
  let distance := Vector3.distanceTo cameraPosition labelWorld in
  let scale := labelScale distance in
  (mkVec3 (aspect * scale) scale 1, labelOpacity distance).

End Labels.

(** ** Disturbance weight (step 2 of the frame) *)

Module Disturb.

(** [Math.min(1, delta * 6)] *)
Definition disturbBlend (delta : R) : R := Rmin 1 (delta * 6).

(** The head of [animate]: [if (isFocused) disturbWeightTarget = 0] and
    [disturbWeight += (disturbWeightTarget - disturbWeight) * disturbBlend].
    Returns the new target and the new weight. *)
Definition smooth (isFocused : bool) (disturbWeightTarget disturbWeight delta : R)
  : R * R :=
  let target := if isFocused then 0 else disturbWeightTarget in
  (target, disturbWeight + (target - disturbWeight) * disturbBlend delta).

(** The weight after a run of frames during which the target stays 0
    (the pointer has left the canvas and does not come back, or the camera
    is focus-locked). *)
Fixpoint decay (disturbWeight : R) (deltas : list R) : R :=
  match deltas with
  | [] => disturbWeight
  | delta :: rest => decay (snd (smooth false 0 disturbWeight delta)) rest
  end.

End Disturb.

(** ** The foreground particle field *)

Module Galaxy.

Record Particle : Type := mkParticle {
  base : Vec3;
  galaxyPhase : R;
  galaxySpeed : R;
  galaxyAmplitude : R;
  galaxyTwist : R;
  galaxyPulse : R
}.

(** The two construction loops for one particle; the arguments are its
    eight draws of [Math.random()]. *)
Definition generate (uRadius uTheta uY uPhase uSpeed uAmplitude uTwist uPulse : R)
  : Particle :=
  let radius := uRadius * 46 in
  let theta := uTheta * PI * 2 in
  let ySpread := (uY - 0.5) * 11 * (1 - radius / 46) in
  mkParticle (mkVec3 (radius * cos theta) ySpread (radius * sin theta))
             (uPhase * PI * 2)
             (0.25 + uSpeed * 1.2)
             (0.08 + uAmplitude * 0.34)
             (0.0018 + uTwist * 0.009)
             (0.004 + uPulse * 0.018).

(** [Math.random()] returns a number in [0, 1). *)
Definition draw (u : R) : Prop := 0 <= u < 1.

(** The position of the particle before the disturbance block:
    the [x], [y], [z] of the loop body. *)
Definition swirled (elapsed : R) (p : Particle) : Vec3 :=
  let baseX := vx (base p) in
  let baseY := vy (base p) in
  let baseZ := vz (base p) in
  let radius := hypot baseX baseZ in
  let phase := galaxyPhase p in
  let speed := galaxySpeed p in
  let swirl := sin (elapsed * speed + phase + radius * 0.22) * galaxyTwist p in
  let swirlCos := cos swirl in
  let swirlSin := sin swirl in
  let pulse :=
    1 + sin (elapsed * (speed * 0.72) + phase * 1.7 + radius * 0.08)
        * galaxyPulse p in
  let x := (baseX * swirlCos - baseZ * swirlSin) * pulse in
  let z := (baseX * swirlSin + baseZ * swirlCos) * pulse in
  let y :=
    baseY + sin (elapsed * (speed * 1.38) + phase + radius * 0.19)
            * galaxyAmplitude p in
  mkVec3 x y z.

(** One iteration of the particle loop of [animate]: the value written to
    [galaxyPositions] for the particle. *)
Definition livePosition (elapsed disturbWeight : R) (disturbCurrent : Vec3)
    (p : Particle) : Vec3 :=
  let radius := hypot (vx (base p)) (vz (base p)) in
  let phase := galaxyPhase p in
  let pos := swirled elapsed p in
  if Rgtb disturbWeight 0.001 then
    let dx := vx pos - vx disturbCurrent in
    let dy := vy pos - vy disturbCurrent in
    let dz := vz pos - vz disturbCurrent in
    let distSq := dx * dx + dy * dy + dz * dz in
    let radiusSq := DISTURB_RADIUS * DISTURB_RADIUS in
    if Rltb distSq radiusSq then
      let dist := sqrt distSq + 0.0001 in
      let falloff := 1 - dist / DISTURB_RADIUS in
      let force := falloff * falloff * DISTURB_INTENSITY * disturbWeight in
      let wave := sin (elapsed * 2.15 + phase + radius * 0.11) in
      mkVec3 (vx pos + (- dz / dist) * force)
             (vy pos + wave * force * 0.78)
             (vz pos + (dx / dist) * force)
    else pos
  else pos.

End Galaxy.

(** ** The constellation builder *)

Module Constellation.

(** [Array.prototype.sort(compareFn)]: a stable sort.  An element moves
    behind the later elements that compare strictly below it and stays in
    front of the first one that does not. *)
Fixpoint sortedInsert {A : Type} (compareFn : A -> A -> R) (x : A) (l : list A)
  : list A :=
  match l with
  | [] => [x]
  | y :: rest =>
      if Rgtb (compareFn x y) 0 then y :: sortedInsert compareFn x rest
      else x :: y :: rest
  end.

Definition Array_sort {A : Type} (compareFn : A -> A -> R) (l : list A) : list A :=
  fold_right (sortedInsert compareFn) [] l.

(** [array.map((point, pointIndex) => ({ point, pointIndex }))] *)
Definition indexed {A : Type} (l : list A) : list (A * nat) :=
  combine l (seq 0 (List.length l)).

Record Candidate : Type := mkCandidate {
  point : Vec3;
  pointIndex : nat;
  distance : R
}.

(** The comparator of the sort: [(a, b) => a.distance - b.distance]. *)
Definition byDistance (a b : Candidate) : R := distance a - distance b.

(** The [candidates] of the node [index] at position [from]. *)
Definition candidates (sitePoints : list Vec3) (index : nat) (from : Vec3)
  : list Candidate :=
  firstn 2
    (Array_sort byDistance
       (map (fun e => mkCandidate (fst e) (snd e)
                        (Vector3.distanceToSquared from (fst e)))
          (filter (fun e => (index <? snd e)%nat) (indexed sitePoints)))).

(** [midpoint.clone().normalize()], replaced by the up vector when its
    squared length is below 0.0001. *)
Definition curveNormal (midpoint : Vec3) : Vec3 :=
  let normal := Vector3.normalize midpoint in
  if Rltb (Vector3.lengthSq normal) 0.0001 then mkVec3 0 1 0 else normal.

Record Curve : Type := mkCurve { v0 : Vec3; v1 : Vec3; v2 : Vec3 }.

(** The curve drawn for one candidate of [from]. *)
Definition curveTo (from : Vec3) (candidate : Candidate) : Curve :=
  let to := point candidate in
  let distance := sqrt (distance candidate) in
  let midpoint := Vector3.multiplyScalar (Vector3.add from to) 0.5 in
  let control :=
    Vector3.addScaledVector midpoint (curveNormal midpoint) (0.2 * distance + 1.2) in
  mkCurve from control to.

(** [QuadraticBezierCurve3.getPoint(t)] *)
Definition getPoint (c : Curve) (t : R) : Vec3 :=
  let k := 1 - t in
  mkVec3 (k * k * vx (v0 c) + 2 * k * t * vx (v1 c) + t * t * vx (v2 c))
         (k * k * vy (v0 c) + 2 * k * t * vy (v1 c) + t * t * vy (v2 c))
         (k * k * vz (v0 c) + 2 * k * t * vz (v1 c) + t * t * vz (v2 c)).

(** [Curve.getPoints(divisions)]: the points at [d / divisions] for
    [d = 0 .. divisions]. *)
Definition getPoints (c : Curve) (divisions : nat) : list Vec3 :=
  map (fun d => getPoint c (INR d / INR divisions)) (seq 0 (S divisions)).

(** The inner loop: each pair of consecutive sampled points. *)
Fixpoint segments (sampledPoints : list Vec3) : list Vec3 :=
  match sampledPoints with
  | a :: (b :: _) as rest => a :: b :: segments rest
  | _ => []
  end.

(** The edges of the constellation in the order of emission: the index of
    the source node, its position and the candidate it is joined to. *)
Definition edges (sitePoints : list Vec3) : list (nat * Vec3 * Candidate) :=
  flat_map
    (fun e => map (fun candidate => (snd e, fst e, candidate))
                (candidates sitePoints (snd e) (fst e)))
    (indexed sitePoints).

Definition curveSegments (sitePoints : list Vec3) : list Vec3 :=
  flat_map
    (fun e => segments (getPoints (curveTo (snd (fst e)) (snd e)) 14))
    (edges sitePoints).

(** The indices the node [index] is joined to: the candidates of the
    iteration [index] of the outer loop, in the order of emission. *)
Definition targets (sitePoints : list Vec3) (index : nat) : list nat :=
  match nth_error sitePoints index with
  | Some from => map pointIndex (candidates sitePoints index from)
  | None => []
  end.

(** [a] comes before [b] in the order of selection: it is nearer, or as
    near and of lower index. *)
Definition nearer (a b : Candidate) : Prop :=
  distance a < distance b \/
  (distance a = distance b /\ (pointIndex a < pointIndex b)%nat).

(** The builder with the two values it takes from three.js as parameters:
    [distanceToSquared from point] is the number that
    [from.distanceToSquared(point)] returns, in double arithmetic, and
    [normalOf midpoint] is the curve normal the loop body ends up with for
    a midpoint.  With [Vector3.distanceToSquared] and [curveNormal] these
    are [candidates], [curveTo], [edges], [curveSegments] and [targets].
    The comparator of the sort subtracts two of the computed distances;
    the difference of two finite doubles has the sign of the exact
    difference, so [byDistance] orders them as the source does. *)
Section Computed.

Variable distanceToSquared : Vec3 -> Vec3 -> R.
Variable normalOf : Vec3 -> Vec3.

Definition candidatesWith (sitePoints : list Vec3) (index : nat) (from : Vec3)
  : list Candidate :=
  firstn 2
    (Array_sort byDistance
       (map (fun e => mkCandidate (fst e) (snd e) (distanceToSquared from (fst e)))
          (filter (fun e => (index <? snd e)%nat) (indexed sitePoints)))).

Definition curveToWith (from : Vec3) (candidate : Candidate) : Curve :=
  let to := point candidate in
  let distance := sqrt (distance candidate) in
  let midpoint := Vector3.multiplyScalar (Vector3.add from to) 0.5 in
  let control :=
    Vector3.addScaledVector midpoint (normalOf midpoint) (0.2 * distance + 1.2) in
  mkCurve from control to.

Definition edgesWith (sitePoints : list Vec3) : list (nat * Vec3 * Candidate) :=
  flat_map
    (fun e => map (fun candidate => (snd e, fst e, candidate))
                (candidatesWith sitePoints (snd e) (fst e)))
    (indexed sitePoints).

Definition curveSegmentsWith (sitePoints : list Vec3) : list Vec3 :=
  flat_map
    (fun e => segments (getPoints (curveToWith (snd (fst e)) (snd e)) 14))
    (edgesWith sitePoints).

Definition targetsWith (sitePoints : list Vec3) (index : nat) : list nat :=
  match nth_error sitePoints index with
  | Some from => map pointIndex (candidatesWith sitePoints index from)
  | None => []
  end.

End Computed.

(** The curve normal with the two methods it calls as parameters:
    [length midpoint] is what [midpoint.length()] returns and
    [lengthSq normal] what [curveNormal.lengthSq()] returns.  A length of
    0 is replaced by 1 before the division. *)
Definition curveNormalWith (length lengthSq : Vec3 -> R) (midpoint : Vec3) : Vec3 :=
  let divisor := if Req_dec_T (length midpoint) 0 then 1 else length midpoint in
  let normal := Vector3.divideScalar midpoint divisor in
  if Rltb (lengthSq normal) 0.0001 then mkVec3 0 1 0 else normal.

End Constellation.

(** ** The scene: pointer/pick controller, camera focus controller, frame *)

Module Scene.

Record SiteNode : Type := mkSiteNode {
  id : string;
  name : string;
  url : string;
  color : nat;
  position : Vec3;
  category : string;
  description : option string
}.

Record HoverState : Type := mkHoverState {
  site : option SiteNode;
  x : R;
  y : R
}.

(** A node sphere; [ref] is the identity of the object (its place in
    [nodeMeshes]), [userData_site] is [userData.site]. *)
Record NodeMesh : Type := mkNodeMesh {
  ref : nat;
  userData_site : SiteNode
}.

(** The transform group of a node with its [userData], the scale of its
    sphere and the rotation of its ring. *)
Record NodeGroup : Type := mkNodeGroup {
  groupPosition : Vec3;
  baseY : R;
  floatOffset : R;
  floatSpeed : R;
  sphereScale : Vec3;
  ringRotationZ : R
}.

(** *** gsap tweens *)

Inductive TweenTarget : Type :=
| CameraPosition
| ControlsTarget
| MeshScale (mesh : nat).

Inductive TweenStatus : Type := Running | Killed | Completed.

Inductive Ease : Type := EaseDefault | ExpoInOut | ExpoOut.

(** A tween made by [gsap.to(target, vars)].  [onUpdate] tells whether the
    tween calls [runtime.controls.update()] on every render; [onComplete]
    is the site the completion callback of the focus effect closes over. *)
Record Tween : Type := mkTween {
  target : TweenTarget;
  toValue : Vec3;
  duration : R;
  ease : Ease;
  onUpdate : bool;
  onComplete : option SiteNode;
  status : TweenStatus
}.

Record SceneRuntime : Type := mkSceneRuntime {
  nodeMeshById : list (string * NodeMesh);
  focusLocked : bool;
  pendingFocusId : option string;
  cameraTween : option nat;
  targetTween : option nat
}.

(** The calls made to the callbacks of the component's props. *)
Inductive Callback : Type :=
| onNodeSelect (s : SiteNode)
| onHoverChange (hover : HoverState)
| onFocusComplete (s : SiteNode).

(** [renderer.domElement.style.cursor] *)
Inductive Cursor : Type := CursorUnset | CursorPointer | CursorDefault.

Record Scene : Type := mkScene {
  cameraPosition : Vec3;
  controlsTarget : Vec3;
  controlsEnabled : bool;
  cursor : Cursor;
  elapsedTime : R;
  nodesRotationY : R;
  children : list NodeGroup;
  pointerNdc : R * R;
  pointerClient : R * R;
  currentHovered : option NodeMesh;
  pointerDown : bool;
  dragDistance : R;
  pointerDownAt : R * R;
  disturbWeightTarget : R;
  disturbWeight : R;
  disturbTarget : Vec3;
  disturbCurrent : Vec3;
  runtime : option SceneRuntime;
  tweens : list Tween;
  emitted : list Callback
}.

(** Assignments to one variable of the scene. *)
Definition set_cameraPosition (v : Vec3) (s : Scene) : Scene :=
  mkScene v (controlsTarget s) (controlsEnabled s) (cursor s) (elapsedTime s)
      (nodesRotationY s) (children s) (pointerNdc s) (pointerClient s)
      (currentHovered s) (pointerDown s) (dragDistance s) (pointerDownAt s)
      (disturbWeightTarget s) (disturbWeight s) (disturbTarget s)
      (disturbCurrent s) (runtime s) (tweens s) (emitted s).
Definition set_controlsTarget (v : Vec3) (s : Scene) : Scene :=
  mkScene (cameraPosition s) v (controlsEnabled s) (cursor s) (elapsedTime s)
      (nodesRotationY s) (children s) (pointerNdc s) (pointerClient s)
      (currentHovered s) (pointerDown s) (dragDistance s) (pointerDownAt s)
      (disturbWeightTarget s) (disturbWeight s) (disturbTarget s)
      (disturbCurrent s) (runtime s) (tweens s) (emitted s).
Definition set_controlsEnabled (v : bool) (s : Scene) : Scene :=
  mkScene (cameraPosition s) (controlsTarget s) v (cursor s) (elapsedTime s)
      (nodesRotationY s) (children s) (pointerNdc s) (pointerClient s)
      (currentHovered s) (pointerDown s) (dragDistance s) (pointerDownAt s)
      (disturbWeightTarget s) (disturbWeight s) (disturbTarget s)
      (disturbCurrent s) (runtime s) (tweens s) (emitted s).
Definition set_cursor (v : Cursor) (s : Scene) : Scene :=
  mkScene (cameraPosition s) (controlsTarget s) (controlsEnabled s) v
      (elapsedTime s) (nodesRotationY s) (children s) (pointerNdc s)
      (pointerClient s) (currentHovered s) (pointerDown s) (dragDistance s)
      (pointerDownAt s) (disturbWeightTarget s) (disturbWeight s)
      (disturbTarget s) (disturbCurrent s) (runtime s) (tweens s) (emitted s).
Definition set_elapsedTime (v : R) (s : Scene) : Scene :=
  mkScene (cameraPosition s) (controlsTarget s) (controlsEnabled s) (cursor s)
      v (nodesRotationY s) (children s) (pointerNdc s) (pointerClient s)
      (currentHovered s) (pointerDown s) (dragDistance s) (pointerDownAt s)
      (disturbWeightTarget s) (disturbWeight s) (disturbTarget s)
      (disturbCurrent s) (runtime s) (tweens s) (emitted s).
Definition set_nodesRotationY (v : R) (s : Scene) : Scene :=
  mkScene (cameraPosition s) (controlsTarget s) (controlsEnabled s) (cursor s)
      (elapsedTime s) v (children s) (pointerNdc s) (pointerClient s)
      (currentHovered s) (pointerDown s) (dragDistance s) (pointerDownAt s)
      (disturbWeightTarget s) (disturbWeight s) (disturbTarget s)
      (disturbCurrent s) (runtime s) (tweens s) (emitted s).
Definition set_children (v : list NodeGroup) (s : Scene) : Scene :=
  mkScene (cameraPosition s) (controlsTarget s) (controlsEnabled s) (cursor s)
      (elapsedTime s) (nodesRotationY s) v (pointerNdc s) (pointerClient s)
      (currentHovered s) (pointerDown s) (dragDistance s) (pointerDownAt s)
      (disturbWeightTarget s) (disturbWeight s) (disturbTarget s)
      (disturbCurrent s) (runtime s) (tweens s) (emitted s).
Definition set_pointerNdc (v : R * R) (s : Scene) : Scene :=
  mkScene (cameraPosition s) (controlsTarget s) (controlsEnabled s) (cursor s)
      (elapsedTime s) (nodesRotationY s) (children s) v (pointerClient s)
      (currentHovered s) (pointerDown s) (dragDistance s) (pointerDownAt s)
      (disturbWeightTarget s) (disturbWeight s) (disturbTarget s)
      (disturbCurrent s) (runtime s) (tweens s) (emitted s).
Definition set_pointerClient (v : R * R) (s : Scene) : Scene :=
  mkScene (cameraPosition s) (controlsTarget s) (controlsEnabled s) (cursor s)
      (elapsedTime s) (nodesRotationY s) (children s) (pointerNdc s) v
      (currentHovered s) (pointerDown s) (dragDistance s) (pointerDownAt s)
      (disturbWeightTarget s) (disturbWeight s) (disturbTarget s)
      (disturbCurrent s) (runtime s) (tweens s) (emitted s).
Definition set_currentHovered (v : option NodeMesh) (s : Scene) : Scene :=
  mkScene (cameraPosition s) (controlsTarget s) (controlsEnabled s) (cursor s)
      (elapsedTime s) (nodesRotationY s) (children s) (pointerNdc s)
      (pointerClient s) v (pointerDown s) (dragDistance s) (pointerDownAt s)
      (disturbWeightTarget s) (disturbWeight s) (disturbTarget s)
      (disturbCurrent s) (runtime s) (tweens s) (emitted s).
Definition set_pointerDown (v : bool) (s : Scene) : Scene :=
  mkScene (cameraPosition s) (controlsTarget s) (controlsEnabled s) (cursor s)
      (elapsedTime s) (nodesRotationY s) (children s) (pointerNdc s)
      (pointerClient s) (currentHovered s) v (dragDistance s) (pointerDownAt
      s) (disturbWeightTarget s) (disturbWeight s) (disturbTarget s)
      (disturbCurrent s) (runtime s) (tweens s) (emitted s).
Definition set_dragDistance (v : R) (s : Scene) : Scene :=
  mkScene (cameraPosition s) (controlsTarget s) (controlsEnabled s) (cursor s)
      (elapsedTime s) (nodesRotationY s) (children s) (pointerNdc s)
      (pointerClient s) (currentHovered s) (pointerDown s) v (pointerDownAt s)
      (disturbWeightTarget s) (disturbWeight s) (disturbTarget s)
      (disturbCurrent s) (runtime s) (tweens s) (emitted s).
Definition set_pointerDownAt (v : R * R) (s : Scene) : Scene :=
  mkScene (cameraPosition s) (controlsTarget s) (controlsEnabled s) (cursor s)
      (elapsedTime s) (nodesRotationY s) (children s) (pointerNdc s)
      (pointerClient s) (currentHovered s) (pointerDown s) (dragDistance s) v
      (disturbWeightTarget s) (disturbWeight s) (disturbTarget s)
      (disturbCurrent s) (runtime s) (tweens s) (emitted s).
Definition set_disturbWeightTarget (v : R) (s : Scene) : Scene :=
  mkScene (cameraPosition s) (controlsTarget s) (controlsEnabled s) (cursor s)
      (elapsedTime s) (nodesRotationY s) (children s) (pointerNdc s)
      (pointerClient s) (currentHovered s) (pointerDown s) (dragDistance s)
      (pointerDownAt s) v (disturbWeight s) (disturbTarget s) (disturbCurrent
      s) (runtime s) (tweens s) (emitted s).
Definition set_disturbWeight (v : R) (s : Scene) : Scene :=
  mkScene (cameraPosition s) (controlsTarget s) (controlsEnabled s) (cursor s)
      (elapsedTime s) (nodesRotationY s) (children s) (pointerNdc s)
      (pointerClient s) (currentHovered s) (pointerDown s) (dragDistance s)
      (pointerDownAt s) (disturbWeightTarget s) v (disturbTarget s)
      (disturbCurrent s) (runtime s) (tweens s) (emitted s).
Definition set_disturbTarget (v : Vec3) (s : Scene) : Scene :=
  mkScene (cameraPosition s) (controlsTarget s) (controlsEnabled s) (cursor s)
      (elapsedTime s) (nodesRotationY s) (children s) (pointerNdc s)
      (pointerClient s) (currentHovered s) (pointerDown s) (dragDistance s)
      (pointerDownAt s) (disturbWeightTarget s) (disturbWeight s) v
      (disturbCurrent s) (runtime s) (tweens s) (emitted s).
Definition set_disturbCurrent (v : Vec3) (s : Scene) : Scene :=
  mkScene (cameraPosition s) (controlsTarget s) (controlsEnabled s) (cursor s)
      (elapsedTime s) (nodesRotationY s) (children s) (pointerNdc s)
      (pointerClient s) (currentHovered s) (pointerDown s) (dragDistance s)
      (pointerDownAt s) (disturbWeightTarget s) (disturbWeight s)
      (disturbTarget s) v (runtime s) (tweens s) (emitted s).
Definition set_runtime (v : option SceneRuntime) (s : Scene) : Scene :=
  mkScene (cameraPosition s) (controlsTarget s) (controlsEnabled s) (cursor s)
      (elapsedTime s) (nodesRotationY s) (children s) (pointerNdc s)
      (pointerClient s) (currentHovered s) (pointerDown s) (dragDistance s)
      (pointerDownAt s) (disturbWeightTarget s) (disturbWeight s)
      (disturbTarget s) (disturbCurrent s) v (tweens s) (emitted s).
Definition set_tweens (v : list Tween) (s : Scene) : Scene :=
  mkScene (cameraPosition s) (controlsTarget s) (controlsEnabled s) (cursor s)
      (elapsedTime s) (nodesRotationY s) (children s) (pointerNdc s)
      (pointerClient s) (currentHovered s) (pointerDown s) (dragDistance s)
      (pointerDownAt s) (disturbWeightTarget s) (disturbWeight s)
      (disturbTarget s) (disturbCurrent s) (runtime s) v (emitted s).
Definition set_emitted (v : list Callback) (s : Scene) : Scene :=
  mkScene (cameraPosition s) (controlsTarget s) (controlsEnabled s) (cursor s)
      (elapsedTime s) (nodesRotationY s) (children s) (pointerNdc s)
      (pointerClient s) (currentHovered s) (pointerDown s) (dragDistance s)
      (pointerDownAt s) (disturbWeightTarget s) (disturbWeight s)
      (disturbTarget s) (disturbCurrent s) (runtime s) (tweens s) v.

Definition set_focus (locked : bool) (pending : option string) (rt : SceneRuntime)
  : SceneRuntime :=
  mkSceneRuntime (nodeMeshById rt) locked pending (cameraTween rt) (targetTween rt).

Definition set_cameraTween (h : option nat) (rt : SceneRuntime) : SceneRuntime :=
  mkSceneRuntime (nodeMeshById rt) (focusLocked rt) (pendingFocusId rt) h
    (targetTween rt).

Definition set_targetTween (h : option nat) (rt : SceneRuntime) : SceneRuntime :=
  mkSceneRuntime (nodeMeshById rt) (focusLocked rt) (pendingFocusId rt)
    (cameraTween rt) h.

Definition set_status (st : TweenStatus) (tw : Tween) : Tween :=
  mkTween (target tw) (toValue tw) (duration tw) (ease tw) (onUpdate tw)
    (onComplete tw) st.

Definition emit (c : Callback) (s : Scene) : Scene :=
  set_emitted (emitted s ++ [c]) s.

(** [a === b] on [NodeMesh | null]: identity of the object. *)
Definition sameMesh (a b : option NodeMesh) : bool :=
  match a, b with
  | None, None => true
  | Some m, Some m' => (ref m =? ref m')%nat
  | _, _ => false
  end.

Definition sameTarget (a b : TweenTarget) : bool :=
  match a, b with
  | CameraPosition, CameraPosition => true
  | ControlsTarget, ControlsTarget => true
  | MeshScale m, MeshScale m' => (m =? m')%nat
  | _, _ => false
  end.

(** [a === b] on [string | null] *)
Definition sameId (a b : option string) : bool :=
  match a, b with
  | None, None => true
  | Some i, Some j => String.eqb i j
  | _, _ => false
  end.

(** [Map.prototype.set] and [Map.prototype.get] on an insertion-ordered map. *)
Fixpoint Map_set {V : Type} (k : string) (v : V) (m : list (string * V))
  : list (string * V) :=
  match m with
  | [] => [(k, v)]
  | (k', v') :: rest =>
      if String.eqb k' k then (k', v) :: rest else (k', v') :: Map_set k v rest
  end.

Fixpoint Map_get {V : Type} (k : string) (m : list (string * V)) : option V :=
  match m with
  | [] => None
  | (k', v') :: rest => if String.eqb k' k then Some v' else Map_get k rest
  end.

(** Replace the element at place [h] of a list, when there is one. *)
Fixpoint replaceAt {A : Type} (h : nat) (f : A -> A) (l : list A) {struct l}
  : list A :=
  match l, h with
  | [], _ => []
  | a :: rest, O => f a :: rest
  | a :: rest, S h' => a :: replaceAt h' f rest
  end.

(** [tween.kill()]: a tween that is still running stops for good. *)
Definition killTween (tw : Tween) : Tween :=
  match status tw with
  | Running => set_status Killed tw
  | _ => tw
  end.

(** [runtime.cameraTween?.kill()] *)
Definition kill (h : option nat) (s : Scene) : Scene :=
  match h with
  | Some h' => set_tweens (replaceAt h' killTween (tweens s)) s
  | None => s
  end.

(** [gsap.to(target, vars)]: the new tween is appended to the tweens of the
    scene and its place is the handle returned; with [overwrite: true] the
    tweens of the same target are killed first. *)
Definition gsapTo (tg : TweenTarget) (to : Vec3) (dur : R) (e : Ease)
    (overwrite upd : bool) (compl : option SiteNode) (s : Scene) : Scene * nat :=
  let olds :=
    if overwrite
    then map (fun tw => if sameTarget (target tw) tg then killTween tw else tw)
           (tweens s)
    else tweens s in
  (set_tweens (olds ++ [mkTween tg to dur e upd compl Running]) s,
   List.length olds).

Definition setScale (v : Vec3) (g : NodeGroup) : NodeGroup :=
  mkNodeGroup (groupPosition g) (baseY g) (floatOffset g) (floatSpeed g) v
    (ringRotationZ g).

(** A tween writes a value to its target. *)
Definition writeTarget (tg : TweenTarget) (v : Vec3) (s : Scene) : Scene :=
  match tg with
  | CameraPosition => set_cameraPosition v s
  | ControlsTarget => set_controlsTarget v s
  | MeshScale m => set_children (replaceAt m (setScale v) (children s)) s
  end.

(** [mesh.getWorldPosition()]: the sphere sits at the origin of its group,
    the group inside [nodesGroup], which is rotated about the y axis. *)
Definition getWorldPosition (s : Scene) (m : NodeMesh) : Vec3 :=
  match nth_error (children s) (ref m) with
  | Some g => Vector3.applyRotationY (nodesRotationY s) (groupPosition g)
  | None => mkVec3 0 0 0
  end.

(** *** Pointer/pick controller *)

Definition dragThreshold : R := 8.

Definition setHovered (nextHovered : option NodeMesh) (s : Scene) : Scene :=
  if sameMesh (currentHovered s) nextHovered then s
  else
    let s1 :=
      match currentHovered s with
      | Some m =>
          fst (gsapTo (MeshScale (ref m)) (mkVec3 1 1 1) 0.25 EaseDefault
                 true false None s)
      | None => s
      end in
    let s2 := set_currentHovered nextHovered s1 in
    match nextHovered with
    | Some m =>
        let s3 :=
          fst (gsapTo (MeshScale (ref m)) (mkVec3 1.45 1.45 1.45) 0.25
                 EaseDefault true false None s2) in
        let s4 := set_cursor CursorPointer s3 in
        emit (onHoverChange
                (mkHoverState (Some (userData_site m))
                   (fst (pointerClient s4)) (snd (pointerClient s4)))) s4
    | None =>
        let s3 := set_cursor CursorDefault s2 in
        emit (onHoverChange (mkHoverState None 0 0)) s3
    end.

Definition onPointerDown (clientX clientY : R) (s : Scene) : Scene :=
  set_dragDistance 0
    (set_pointerDownAt (clientX, clientY) (set_pointerDown true s)).

Definition onPointerUp (s : Scene) : Scene := set_pointerDown false s.

Definition onPointerLeave (s : Scene) : Scene :=
  set_pointerNdc (2, 2) (set_disturbWeightTarget 0 (set_pointerDown false s)).

Definition onClick (s : Scene) : Scene :=
  if Rgtb (dragDistance s) dragThreshold then set_dragDistance 0 s
  else
    match runtime s with
    | None => s
    | Some rt =>
        if focusLocked rt then s
        else
          match currentHovered s with
          | None => s
          | Some m => emit (onNodeSelect (userData_site m)) (set_dragDistance 0 s)
          end
    end.

Definition onControlStart (s : Scene) : Scene := setHovered None s.

(** [runtime.clearHover()] *)
Definition clearHover (s : Scene) : Scene := setHovered None s.

(** The approach direction of the focus effect. *)
Definition approachDirection (cameraPos focusTarget : Vec3) : Vec3 :=
  let direction := Vector3.sub cameraPos focusTarget in
  let direction :=
    if Rltb (Vector3.lengthSq direction) 0.0001 then mkVec3 0 0 1 else direction in
  Vector3.normalize direction.

Definition setRuntime (f : SceneRuntime -> SceneRuntime) (s : Scene) : Scene :=
  match runtime s with
  | Some rt => set_runtime (Some (f rt)) s
  | None => s
  end.

(** *** Camera focus controller: the effect on [focusSite] *)

Definition focusEffect (focusSite : option SiteNode) (s : Scene) : Scene :=
  match runtime s with
  | None => s
  | Some rt =>
      let s := kill (targetTween rt) (kill (cameraTween rt) s) in
      match focusSite with
      | Some fs =>
          let s := setRuntime (set_focus true (Some (id fs))) s in
          let s := clearHover s in
          let s := set_controlsEnabled false s in
          let focusTarget :=
            match Map_get (id fs) (nodeMeshById rt) with
            | Some targetNode => getWorldPosition s targetNode
            | None => position fs
            end in
          let direction := approachDirection (cameraPosition s) focusTarget in
          let destination :=
            Vector3.addScaledVector focusTarget direction FOCUS_DISTANCE in
          let (s, hc) :=
            gsapTo CameraPosition destination FOCUS_DURATION ExpoInOut
              false false None s in
          let s := setRuntime (set_cameraTween (Some hc)) s in
          let (s, ht) :=
            gsapTo ControlsTarget focusTarget FOCUS_DURATION ExpoInOut
              false true (Some fs) s in
          setRuntime (set_targetTween (Some ht)) s
      | None =>
          let s := setRuntime (set_focus false None) s in
          let s := set_controlsEnabled true s in
          let s := clearHover s in
          let s := emit (onHoverChange (mkHoverState None 0 0)) s in
          let (s, hc) :=
            gsapTo CameraPosition BASE_CAMERA_POSITION 2.1 ExpoOut
              false false None s in
          let s := setRuntime (set_cameraTween (Some hc)) s in
          let (s, ht) :=
            gsapTo ControlsTarget (mkVec3 0 0 0) 2.1 ExpoOut false true None s in
          setRuntime (set_targetTween (Some ht)) s
      end
  end.

(** *** The parts that call into three.js

    [unproject cameraPos controlsTarget ndc] is [ndc.unproject(camera)] for
    the camera at [cameraPos] looking at [controlsTarget];
    [controlsUpdate (cameraPos, controlsTarget)] is the pose left by
    [OrbitControls.update()]. *)

Section ThreeJs.

Variable unproject : Vec3 -> Vec3 -> Vec3 -> Vec3.
Variable controlsUpdate : Vec3 * Vec3 -> Vec3 * Vec3.

(** [runtime.controls.update()] *)
Definition updateControls (s : Scene) : Scene :=
  let pose := controlsUpdate (cameraPosition s, controlsTarget s) in
  set_controlsTarget (snd pose) (set_cameraPosition (fst pose) s).

Definition onPointerMove (clientX clientY innerWidth innerHeight : R) (s : Scene)
  : Scene :=
  let ndcX := (clientX / innerWidth) * 2 - 1 in
  let ndcY := - (clientY / innerHeight) * 2 + 1 in
  let s := set_pointerClient (clientX, clientY) (set_pointerNdc (ndcX, ndcY) s) in
  let s :=
    if pointerDown s then
      let dx := clientX - fst (pointerDownAt s) in
      let dy := clientY - snd (pointerDownAt s) in
      set_dragDistance (Rmax (dragDistance s) (hypot dx dy)) s
    else s in
  let disturbProject :=
    unproject (cameraPosition s) (controlsTarget s) (mkVec3 ndcX ndcY 0.5) in
  let disturbDirection :=
    Vector3.normalize (Vector3.sub disturbProject (cameraPosition s)) in
  let targetDistance := Vector3.distanceTo (cameraPosition s) (controlsTarget s) in
  let s :=
    set_disturbTarget
      (Vector3.addScaledVector (cameraPosition s) disturbDirection targetDistance)
      s in
  let s := set_disturbWeightTarget 1 s in
  match currentHovered s with
  | Some m =>
      emit (onHoverChange
              (mkHoverState (Some (userData_site m))
                 (fst (pointerClient s)) (snd (pointerClient s)))) s
  | None => s
  end.

(** The float of one node group and the spin of its ring. *)
Definition floatChild (elapsed : R) (g : NodeGroup) : NodeGroup :=
  mkNodeGroup
    (mkVec3 (vx (groupPosition g))
            (baseY g + sin (elapsed * floatSpeed g + floatOffset g) * 0.35)
            (vz (groupPosition g)))
    (baseY g) (floatOffset g) (floatSpeed g) (sphereScale g) (elapsed * 0.2).

(** One frame.  [delta] is [clock.getDelta()]; [hit] is the object of the
    first intersection of the pointer ray with the node meshes, if any.
    The particle buffer and the labels are written from the state of the
    frame by [Galaxy.livePosition] and [Labels.updateLabel]. *)
Definition animate (delta : R) (hit : option NodeMesh) (s : Scene) : Scene :=
  let elapsed := elapsedTime s + delta in
  let s := set_elapsedTime elapsed s in
  let isFocused :=
    match runtime s with
    | Some rt => focusLocked rt
    | None => false
    end in
  let disturbBlend := Disturb.disturbBlend delta in
  let smoothed :=
    Disturb.smooth isFocused (disturbWeightTarget s) (disturbWeight s) delta in
  let s := set_disturbWeight (snd smoothed) (set_disturbWeightTarget (fst smoothed) s) in
  let s :=
    set_disturbCurrent
      (Vector3.lerp (disturbCurrent s) (disturbTarget s) disturbBlend) s in
  let s :=
    if isFocused then
      match currentHovered s with
      | Some _ => setHovered None s
      | None => s
      end
    else
      let s := set_nodesRotationY (elapsed * 0.03) s in
      let s := set_children (map (floatChild elapsed) (children s)) s in
      setHovered hit s in
  updateControls s.

(** The mesh the frame hands to [setHovered]: the hit of the ray, or
    [null] while focus-locked (where the call is made only when a node is
    hovered). *)
Definition frameTarget (hit : option NodeMesh) (s : Scene) : option NodeMesh :=
  match runtime s with
  | Some rt => if focusLocked rt then None else hit
  | None => hit
  end.

(** The number of frames of a run of frames across which the hovered mesh
    changes. *)
Fixpoint hoverTransitions (frames : list (R * option NodeMesh)) (s : Scene) : nat :=
  match frames with
  | [] => 0
  | (delta, hit) :: rest =>
      let s' := animate delta hit s in
      ((if sameMesh (currentHovered s) (currentHovered s') then 0 else 1)
       + hoverTransitions rest s')%nat
  end.

Definition runFrames (frames : list (R * option NodeMesh)) (s : Scene) : Scene :=
  fold_left (fun s f => animate (fst f) (snd f) s) frames s.

(** *** gsap's ticker *)

Definition runOnUpdate (tw : Tween) (s : Scene) : Scene :=
  if onUpdate tw then updateControls s else s.

(** The [onComplete] of the focus effect:
    [if (runtimeRef.current?.pendingFocusId === focusSite.id)
       onFocusComplete(focusSite)]. *)
Definition runOnComplete (tw : Tween) (s : Scene) : Scene :=
  match onComplete tw with
  | None => s
  | Some fs =>
      match runtime s with
      | Some rt =>
          if sameId (pendingFocusId rt) (Some (id fs))
          then emit (onFocusComplete fs) s
          else s
      | None => s
      end
  end.

(** A render of the running tween [h] before its end, with the eased
    value [v]. *)
Definition tweenUpdate (h : nat) (v : Vec3) (s : Scene) : Scene :=
  match nth_error (tweens s) h with
  | Some tw =>
      match status tw with
      | Running => runOnUpdate tw (writeTarget (target tw) v s)
      | _ => s
      end
  | None => s
  end.

(** The last render of the running tween [h]: it writes its end value,
    calls [onUpdate], and completes with [onComplete].  A tween that was
    killed or has completed renders no more. *)
Definition tweenComplete (h : nat) (s : Scene) : Scene :=
  match nth_error (tweens s) h with
  | Some tw =>
      match status tw with
      | Running =>
          let s := writeTarget (target tw) (toValue tw) s in
          let s := runOnUpdate tw s in
          let s := set_tweens (replaceAt h (set_status Completed) (tweens s)) s in
          runOnComplete tw s
      | _ => s
      end
  | None => s
  end.

(** *** Mount *)

(** The node group built for a site; [uOffset] and [uSpeed] are its two
    draws of [Math.random()]. *)
Definition makeGroup (st : SiteNode) (uOffset uSpeed : R) : NodeGroup :=
  mkNodeGroup (position st) (vy (position st)) (uOffset * PI * 2)
    (1 + uSpeed * 0.5) (mkVec3 1 1 1) 0.

Fixpoint makeGroups (sites : list SiteNode) (draws : list (R * R))
  : list NodeGroup :=
  match sites with
  | [] => []
  | st :: rest =>
      makeGroup st (fst (hd (0, 0) draws)) (snd (hd (0, 0) draws))
      :: makeGroups rest (tl draws)
  end.

Definition makeMeshById (sites : list SiteNode) : list (string * NodeMesh) :=
  fold_left (fun m e => Map_set (id (fst e)) (mkNodeMesh (snd e) (fst e)) m)
    (Constellation.indexed sites) [].

(** The state left by the mount effect, before its first frame. *)
Definition mount (sites : list SiteNode) (draws : list (R * R)) : Scene :=
  updateControls
    (mkScene BASE_CAMERA_POSITION (mkVec3 0 0 0) true CursorUnset
       0 0 (makeGroups sites draws)
       (2, 2) (0, 0) None false 0 (0, 0)
       0 0 (mkVec3 0 0 0) (mkVec3 0 0 0)
       (Some (mkSceneRuntime (makeMeshById sites) false None None None))
       [] []).

(** *** Runs of the mounted scene *)

Inductive Action : Type :=
| PointerMove (clientX clientY innerWidth innerHeight : R)
| PointerDown (clientX clientY : R)
| PointerUp
| PointerLeave
| Click
| ControlStart
| Frame (delta : R) (hit : option NodeMesh)
| Focus (focusSite : option SiteNode)
| TweenUpdate (h : nat) (v : Vec3)
| TweenComplete (h : nat).

Definition step (s : Scene) (a : Action) : Scene :=
  match a with
  | PointerMove cx cy w h => onPointerMove cx cy w h s
  | PointerDown cx cy => onPointerDown cx cy s
  | PointerUp => onPointerUp s
  | PointerLeave => onPointerLeave s
  | Click => onClick s
  | ControlStart => onControlStart s
  | Frame delta hit => animate delta hit s
  | Focus focusSite => focusEffect focusSite s
  | TweenUpdate h v => tweenUpdate h v s
  | TweenComplete h => tweenComplete h s
  end.

Definition run (s : Scene) (acts : list Action) : Scene := fold_left step acts s.

End ThreeJs.

(** The calls of [onFocusComplete] and of [onHoverChange] among a list of
    calls. *)
Definition focusCompletes (cs : list Callback) : list SiteNode :=
  flat_map (fun c => match c with onFocusComplete st => [st] | _ => [] end) cs.

Definition hoverChanges (cs : list Callback) : list HoverState :=
  flat_map (fun c => match c with onHoverChange h => [h] | _ => [] end) cs.

(** *** Invariant of the tweens

    In every state the mounted scene reaches, a running tween of the
    camera position is [runtime.cameraTween], a running tween of the orbit
    target is [runtime.targetTween], and only a tween of the orbit target
    has a completion callback. *)
Definition tweensTracked (s : Scene) : Prop :=
  exists rt, runtime s = Some rt /\
    forall h tw, nth_error (tweens s) h = Some tw -> status tw = Running ->
      (target tw = CameraPosition -> cameraTween rt = Some h) /\
      (target tw = ControlsTarget -> targetTween rt = Some h) /\
      (target tw <> ControlsTarget -> onComplete tw = None).

(** [s'] differs from [s] by a step that neither touches the runtime, nor
    calls [onFocusComplete], nor starts, kills or completes a tween of the
    camera position or of the orbit target: a running tween of [s'] is a
    tween of [s] or a new tween of a node scale. *)
Definition quiet (s s' : Scene) : Prop :=
  runtime s' = runtime s /\
  (exists new, emitted s' = emitted s ++ new /\ focusCompletes new = []) /\
  (List.length (tweens s) <= List.length (tweens s'))%nat /\
  (forall h tw', nth_error (tweens s') h = Some tw' -> status tw' = Running ->
     nth_error (tweens s) h = Some tw' \/
     ((List.length (tweens s) <= h)%nat /\
      (exists m, target tw' = MeshScale m) /\ onComplete tw' = None)) /\
  (forall h tw, nth_error (tweens s) h = Some tw ->
     target tw = CameraPosition \/ target tw = ControlsTarget ->
     nth_error (tweens s') h = Some tw).

(** *** The focus effect in two parts, for the proofs *)

(** The state of the effect before it starts its tweens. *)
Definition focusPrelude (focusSite : option SiteNode) (rt : SceneRuntime) (s : Scene)
  : Scene :=
  let s1 := kill (targetTween rt) (kill (cameraTween rt) s) in
  match focusSite with
  | Some fs =>
      set_controlsEnabled false
        (clearHover (setRuntime (set_focus true (Some (id fs))) s1))
  | None =>
      emit (onHoverChange (mkHoverState None 0 0))
        (clearHover
           (set_controlsEnabled true (setRuntime (set_focus false None) s1)))
  end.

Definition focusTargetOf (fs : SiteNode) (rt : SceneRuntime) (x : Scene) : Vec3 :=
  match Map_get (id fs) (nodeMeshById rt) with
  | Some targetNode => getWorldPosition x targetNode
  | None => position fs
  end.

(** The handle held by [runtime.targetTween]. *)
Definition targetHandle (s : Scene) : nat :=
  match runtime s with
  | Some rt => match targetTween rt with Some h => h | None => 0 end
  | None => 0
  end.

Definition cameraHandle (s : Scene) : nat :=
  match runtime s with
  | Some rt => match cameraTween rt with Some h => h | None => 0 end
  | None => 0
  end.

(** The actions other than focus requests and tween completions. *)
Definition quietAction (a : Action) : Prop :=
  match a with
  | Focus _ | TweenComplete _ => False
  | _ => True
  end.

Definition isFocus (a : Action) : bool :=
  match a with Focus _ => true | _ => false end.

Definition isComplete (h : nat) (a : Action) : bool :=
  match a with TweenComplete k => (k =? h)%nat | _ => false end.

End Scene.

(** ** A small scene for examples: two sites, the three.js calls replaced
    by the simplest functions of their types. *)

Module Demo.

Definition siteA : Scene.SiteNode :=
  Scene.mkSiteNode "root" "www" "https://5051001.xyz" 0 (mkVec3 14 (-5) 0)
    "portal" None.

Definition siteB : Scene.SiteNode :=
  Scene.mkSiteNode "nav" "nav" "https://nav.5051001.xyz" 0 (mkVec3 (-20) 0 0)
    "portal" None.

Definition mesh0 : Scene.NodeMesh := Scene.mkNodeMesh 0 siteA.
Definition mesh1 : Scene.NodeMesh := Scene.mkNodeMesh 1 siteB.

Definition unproject (cameraPos controlsTarget ndc : Vec3) : Vec3 := ndc.
Definition controlsUpdate (pose : Vec3 * Vec3) : Vec3 * Vec3 := pose.

Definition mounted : Scene.Scene :=
  Scene.mount controlsUpdate [siteA; siteB] [(0, 0); (0.5, 0.5)].


End Demo.

Definition squarePoints : list Vec3 :=
  [mkVec3 0 0 0; mkVec3 1 0 0; mkVec3 (-1) 0 0; mkVec3 0 1 0; mkVec3 5 0 0].

(** Four nodes for which the squared distances from the first one differ
    by less than double arithmetic resolves: node 1 is [2^-30] off the
    axis. *)
Definition nearTiePoints : list Vec3 :=
  [mkVec3 0 0 0; mkVec3 (-1) (- / 1073741824) 0; mkVec3 (-1) 0 0; mkVec3 0 (-1) 0].

(** A midpoint so close to the origin that its squared length underflows. *)
Definition tinyMidpoint : Vec3 := mkVec3 (powerRZ 2 (-600)) 0 0.

(** ** The deep background field *)

Module DeepField.

Record Star : Type := mkStar { starPosition : Vec3; tone : R }.

(** One iteration of the construction loop of the deep field; the
    arguments are its four draws of [Math.random()]. *)
Definition generate (uTheta uPhi uRadius uTone : R) : Star :=
  let theta := uTheta * PI * 2 in
  let phi := acos (2 * uPhi - 1) in
  let radius := 58 + uRadius * 140 in
  mkStar (mkVec3 (radius * sin phi * cos theta)
                 (radius * cos phi)
                 (radius * sin phi * sin theta))
         (0.6 + uTone * 0.25).

End DeepField.

(** ** The site data: colours, addresses and orbit positions *)

Module Sites.

Definition BASE_DOMAIN : string := "5051001.xyz".

Record SiteSeed : Type := mkSiteSeed {
  id : string;
  name : string;
  category : string;
  description : option string;
  subdomain : option string;
  url : option string;
  color : option Z
}.

Definition CATEGORY_BASE_HUE : list (string * Z) :=
  [("portal"%string, 212%Z); ("ai"%string, 226%Z); ("image"%string, 24%Z); ("tool"%string, 268%Z);
   ("service"%string, 153%Z); ("converter"%string, 348%Z); ("network"%string, 42%Z);
   ("math"%string, 52%Z); ("dev"%string, 168%Z)].

(** The names [CATEGORY_BASE_HUE[category]] finds on [Object.prototype]
    instead of in the table. *)
Definition inheritedKeys : list string :=
  ["constructor"%string; "toString"%string; "toLocaleString"%string; "valueOf"%string; "hasOwnProperty"%string;
   "isPrototypeOf"%string; "propertyIsEnumerable"%string; "__proto__"%string; "__defineGetter__"%string;
   "__defineSetter__"%string; "__lookupGetter__"%string; "__lookupSetter__"%string].

Fixpoint lookup (key : string) (table : list (string * Z)) : option Z :=
  match table with
  | [] => None
  | (k, v) :: rest => if String.eqb k key then Some v else lookup key rest
  end.

(** [ToInt32]: the value of [z | 0] for an integer [z]. *)
Definition toInt32 (z : Z) : Z := ((z + 2 ^ 31) mod 2 ^ 32 - 2 ^ 31)%Z.

(** [a << k] *)
Definition shiftLeft (a : Z) (k : Z) : Z := toInt32 (toInt32 a * 2 ^ k)%Z.

(** The UTF-16 code units of a string; the strings of the model hold code
    units below 256. *)
Definition codeUnits (value : string) : list Z :=
  map (fun c => Z.of_nat (nat_of_ascii c)) (list_ascii_of_string value).

(** The body of the loop of [hashString]:
    [hash = (hash << 5) - hash + value.charCodeAt(index); hash |= 0]. *)
Definition hashStep (hash charCode : Z) : Z :=
  toInt32 (shiftLeft hash 5 - hash + charCode)%Z.

Definition hashCodeUnits (units : list Z) : Z := Z.abs (fold_left hashStep units 0%Z).

Definition hashString (value : string) : Z := hashCodeUnits (codeUnits value).

(** [Math.trunc], [a % b] on numbers and [Math.round]. *)
Definition trunc (a : R) : Z :=
  if Rltb a 0 then (- Int_part (- a))%Z else Int_part a.

Definition remainder (a b : R) : R := a - b * IZR (trunc (a / b)).

Definition Math_round (a : R) : Z := Int_part (a + 0.5).

(** The [r], [g], [b] of [hslToHex] before [toByte], and [match]. *)
Definition hslChannels (hue saturation lightness : R) : R * R * R * R :=
  let s := saturation / 100 in
  let l := lightness / 100 in
  let chroma := (1 - Rabs (2 * l - 1)) * s in
  let hPrime := hue / 60 in
  let x := chroma * (1 - Rabs (remainder hPrime 2 - 1)) in
  let rgb :=
    if negb (Rltb hPrime 0) && Rltb hPrime 1 then (chroma, x, 0)
    else if Rltb hPrime 2 then (x, chroma, 0)
    else if Rltb hPrime 3 then (0, chroma, x)
    else if Rltb hPrime 4 then (0, x, chroma)
    else if Rltb hPrime 5 then (x, 0, chroma)
    else (chroma, 0, x) in
  (rgb, l - chroma / 2).

(** [toByte] for the three channels. *)
Definition hslBytes (hue saturation lightness : R) : Z * Z * Z :=
  let '(r, g, b, m) := hslChannels hue saturation lightness in
  (Math_round ((r + m) * 255), Math_round ((g + m) * 255),
   Math_round ((b + m) * 255)).

Definition hslToHex (hue saturation lightness : R) : Z :=
  let '(red, green, blue) := hslBytes hue saturation lightness in
  (shiftLeft red 16 + shiftLeft green 8 + blue)%Z.

(** [!value] on [string | undefined]: the empty string is falsy too. *)
Definition present (value : option string) : option string :=
  match value with
  | Some EmptyString | None => None
  | Some text => Some text
  end.

Definition createUrl (subdomain : option string) : string :=
  match present subdomain with
  | None => ("https://" ++ BASE_DOMAIN)%string
  | Some sub => ("https://" ++ sub ++ "." ++ BASE_DOMAIN)%string
  end.

Definition resolveUrl (site : SiteSeed) : string :=
  match present (url site) with
  | Some address => address
  | None => createUrl (subdomain site)
  end.

(** The arguments [resolveColor] hands to [hslToHex]. *)
Definition colorArguments (site : SiteSeed) : Z * Z * Z :=
  let hash := hashString (category site ++ ":" ++ id site)%string in
  let baseHue :=
    match lookup (category site) CATEGORY_BASE_HUE with
    | Some hue => hue
    | None => Z.rem hash 360
    end in
  let hueOffset := (Z.rem hash 15 - 7)%Z in
  let saturation := (34 + Z.rem (hash / 19) 15)%Z in
  let lightness := (58 + Z.rem (hash / 37) 11)%Z in
  (Z.rem (baseHue + hueOffset + 360) 360, saturation, lightness).

Definition resolveColor (site : SiteSeed) : Z :=
  match color site with
  | Some value => value
  | None =>
      let '(hue, saturation, lightness) := colorArguments site in
      hslToHex (IZR hue) (IZR saturation) (IZR lightness)
  end.

Definition createOrbitPosition (index total : nat) : Vec3 :=
  let angle := INR index / INR total * PI * 2 in
  let radius := if (index mod 2 =? 0)%nat then 14 else 20 in
  let verticalBand := INR (index mod 3) - 1 in
  mkVec3 (cos angle * radius) (verticalBand * 5) (sin angle * radius).

End Sites.

(** ** The page: the state of [App] and the tooltip of [OverlayUI] *)

Module App.

Record AppState : Type := mkAppState {
  hoverState : Scene.HoverState;
  focusSite : option Scene.SiteNode;
  previewSite : option Scene.SiteNode
}.

Definition initial : AppState :=
  mkAppState (Scene.mkHoverState None 0 0) None None.

Definition handleNodeSelect (st : Scene.SiteNode) (a : AppState) : AppState :=
  mkAppState (hoverState a) (Some st) (previewSite a).

Definition handleFocusComplete (st : Scene.SiteNode) (a : AppState) : AppState :=
  mkAppState (hoverState a) (focusSite a) (Some st).

Definition handleHoverChange (hover : Scene.HoverState) (a : AppState) : AppState :=
  mkAppState hover (focusSite a) (previewSite a).

Definition handleClosePreview (a : AppState) : AppState :=
  mkAppState (hoverState a) None None.

(** The props of [GalaxyCanvas]: a call to a callback runs its handler. *)
Definition receive (a : AppState) (c : Scene.Callback) : AppState :=
  match c with
  | Scene.onNodeSelect st => handleNodeSelect st a
  | Scene.onHoverChange hover => handleHoverChange hover a
  | Scene.onFocusComplete st => handleFocusComplete st a
  end.

Definition receiveAll (a : AppState) (calls : list Scene.Callback) : AppState :=
  fold_left receive calls a.

(** The tooltip [OverlayUI] renders from the hover state. *)
Record Tooltip : Type := mkTooltip {
  visible : bool;
  left : R;
  top : R;
  text : string
}.

Definition tooltip (a : AppState) : Tooltip :=
  let hoveredSite := Scene.site (hoverState a) in
  mkTooltip (match hoveredSite with Some _ => true | None => false end)
    (Scene.x (hoverState a)) (Scene.y (hoverState a))
    (match hoveredSite with Some st => Scene.name st | None => EmptyString end).

End App.

(** ** A seed of the site list, for examples *)

Module SiteExamples.

(** The seed of the chat site, without its description. *)
Definition seedChat : Sites.SiteSeed :=
  Sites.mkSiteSeed "chat" "chat" "ai" None (Some "chat"%string) None None.

(** A seed with an address and a colour of its own. *)
Definition seedExternal : Sites.SiteSeed :=
  Sites.mkSiteSeed "blog" "blog" "notes" None (Some "blog"%string)
    (Some "https://example.org"%string) (Some 0%Z).

End SiteExamples.

(** ** Predicates on the states of the scene *)

Module Invariants.

Import Scene.

(** The hover state that describes the scene: the site of the hovered
    node at the last pointer position, or the empty hover state. *)
Definition hoverOf (s : Scene) : HoverState :=
  match currentHovered s with
  | Some m =>
      mkHoverState (Some (userData_site m)) (fst (pointerClient s))
        (snd (pointerClient s))
  | None => mkHoverState None 0 0
  end.

(** The cursor and the hovered node agree. *)
Definition cursorShowsHover (s : Scene) : Prop :=
  match currentHovered s with
  | Some _ => cursor s = CursorPointer
  | None => cursor s <> CursorPointer
  end.

(** The focus lock, the orbit controls and the hover agree. *)
Definition focusCoherent (s : Scene) : Prop :=
  exists rt, runtime s = Some rt /\
    controlsEnabled s = negb (focusLocked rt) /\
    (focusLocked rt = true ->
     currentHovered s = None /\ pendingFocusId rt <> None) /\
    (focusLocked rt = false -> pendingFocusId rt = None).

(** A frame whose clock delta is not negative. *)
Definition nonnegativeDelta (a : Action) : Prop :=
  match a with
  | Frame delta _ => 0 <= delta
  | _ => True
  end.

Definition weightInRange (s : Scene) : Prop :=
  0 <= disturbWeight s <= 1 /\
  (disturbWeightTarget s = 0 \/ disturbWeightTarget s = 1).

(** The group of a node stays above or below the position of its site,
    within the amplitude of the float. *)
Definition anchored (st : SiteNode) (g : NodeGroup) : Prop :=
  vx (groupPosition g) = vx (position st) /\
  vz (groupPosition g) = vz (position st) /\
  baseY g = vy (position st) /\
  Rabs (vy (groupPosition g) - vy (position st)) <= 0.35.

(** The mesh of the last site of the list that has the id [key]; the
    meshes are numbered from [from] in the order of the list. *)
Fixpoint lastWithId (key : string) (sites : list SiteNode) (from : nat)
  : option NodeMesh :=
  match sites with
  | [] => None
  | st :: rest =>
      match lastWithId key rest (S from) with
      | Some m => Some m
      | None => if String.eqb (id st) key then Some (mkNodeMesh from st) else None
      end
  end.

(** The scale a node sphere is given: 1.45 for the hovered node, 1 for
    the others. *)
Definition emphasis (hovered : option NodeMesh) (m : nat) : Vec3 :=
  match hovered with
  | Some node =>
      if (ref node =? m)%nat then mkVec3 1.45 1.45 1.45 else mkVec3 1 1 1
  | None => mkVec3 1 1 1
  end.

(** The tween at the place [h] of the list is running and scales the
    sphere of the node [m] to [v]. *)
Definition runningScale (l : list Tween) (m h : nat) (v : Vec3) : Prop :=
  exists tw, nth_error l h = Some tw /\ status tw = Running /\
    target tw = MeshScale m /\ toValue tw = v.

(** The scale tweens and the scales of the spheres agree with the hover:
    a node has at most one running scale tween, which aims at the scale
    the hover gives the node, and a node without one has this scale. *)
Definition emphasisKept (hovered : option NodeMesh) (l : list Tween)
    (scales : list Vec3) : Prop :=
  (forall m h v, runningScale l m h v ->
     v = emphasis hovered m /\
     forall h' v', runningScale l m h' v' -> h' = h) /\
  (forall m scale, nth_error scales m = Some scale ->
     (exists h v, runningScale l m h v) \/ scale = emphasis hovered m).

Definition emphasised (s : Scene) : Prop :=
  emphasisKept (currentHovered s) (tweens s) (map sphereScale (children s)).

(** The handles the runtime holds are tweens of the camera position and
    of the orbit target. *)
Definition handlesTyped (s : Scene) : Prop :=
  exists rt, runtime s = Some rt /\
    (forall h, cameraTween rt = Some h ->
       exists tw, nth_error (tweens s) h = Some tw /\ target tw = CameraPosition) /\
    (forall h, targetTween rt = Some h ->
       exists tw, nth_error (tweens s) h = Some tw /\ target tw = ControlsTarget).

(** The tweens after [gsap.to(mesh.scale, {..., overwrite: true})] for
    the node [r], after [setHovered] and after [tween.kill()]. *)
Definition scaleTo (r : nat) (to : Vec3) (l : list Tween) : list Tween :=
  map (fun tw => if sameTarget (target tw) (MeshScale r) then killTween tw else tw) l
  ++ [mkTween (MeshScale r) to 0.25 EaseDefault false None Running].

Definition hoverTweens (old next : option NodeMesh) (l : list Tween) : list Tween :=
  if sameMesh old next then l
  else
    let l1 :=
      match old with
      | Some o => scaleTo (ref o) (mkVec3 1 1 1) l
      | None => l
      end in
    match next with
    | Some n => scaleTo (ref n) (mkVec3 1.45 1.45 1.45) l1
    | None => l1
    end.

Definition killAt (h : option nat) (l : list Tween) : list Tween :=
  match h with
  | Some h' => replaceAt h' killTween l
  | None => l
  end.

(** The hover state of the page after the calls the scene has made. *)
Definition pageHover (s : Scene) : HoverState :=
  App.hoverState (App.receiveAll App.initial (emitted s)).

Definition hoverSynced (s : Scene) : Prop :=
  pageHover s = hoverOf s /\ cursorShowsHover s.




End Invariants.

(** * Properties *)

(** ** Numbers and vectors *)

Lemma Rltb_true (a b : R) : Rltb a b = true <-> a < b.
Proof. unfold Rltb; destruct (Rlt_dec a b); split; intros; try easy. Qed.

Lemma Rltb_false (a b : R) : Rltb a b = false <-> b <= a.
Proof.
  unfold Rltb; destruct (Rlt_dec a b); split; intros; try easy; lra.
Qed.

Lemma Rltb_lt (a b : R) : a < b -> Rltb a b = true.
Proof. apply Rltb_true. Qed.

Lemma Rltb_ge (a b : R) : b <= a -> Rltb a b = false.
Proof. apply Rltb_false. Qed.

Lemma clamp_bounds (v lo hi : R) : lo <= hi -> lo <= clamp v lo hi <= hi.
Proof.
  intros Hle; unfold clamp, Rmax, Rmin.
  repeat destruct (Rle_dec _ _); lra.
Qed.

Lemma clamp_monotone (v w lo hi : R) : v <= w -> clamp v lo hi <= clamp w lo hi.
Proof.
  intros Hle; unfold clamp, Rmax, Rmin.
  repeat destruct (Rle_dec _ _); lra.
Qed.

Lemma vec3_eq (a b : Vec3) : vx a = vx b -> vy a = vy b -> vz a = vz b -> a = b.
Proof. destruct a, b; simpl; intros -> -> ->; reflexivity. Qed.

Lemma lengthSq_nonneg (a : Vec3) : 0 <= Vector3.lengthSq a.
Proof. unfold Vector3.lengthSq; nra. Qed.

Lemma lengthSq_zero (a : Vec3) : Vector3.lengthSq a = 0 -> a = mkVec3 0 0 0.
Proof.
  unfold Vector3.lengthSq; intros H.
  apply vec3_eq; simpl; nra.
Qed.

Lemma length_zero_iff (a : Vec3) : Vector3.length a = 0 <-> Vector3.lengthSq a = 0.
Proof.
  unfold Vector3.length; split; intros H.
  - apply sqrt_eq_0; [apply lengthSq_nonneg | exact H].
  - rewrite H; apply sqrt_0.
Qed.

(** The divisor of [normalize] is never zero. *)
Lemma length_or_1_nonzero (a : Vec3) : Vector3.length_or_1 a <> 0.
Proof.
  unfold Vector3.length_or_1; destruct (Req_dec_T _ _); [lra | assumption].
Qed.

Lemma normalize_zero (a : Vec3) :
  Vector3.lengthSq a = 0 -> Vector3.normalize a = mkVec3 0 0 0.
Proof.
  intros H; pose proof (lengthSq_zero a H) as ->.
  unfold Vector3.normalize, Vector3.divideScalar, Vector3.multiplyScalar; simpl.
  apply vec3_eq; simpl; lra.
Qed.

Lemma normalize_nonzero (a : Vec3) :
  Vector3.lengthSq a <> 0 ->
  Vector3.length a <> 0 /\
  Vector3.normalize a = Vector3.divideScalar a (Vector3.length a) /\
  Vector3.lengthSq (Vector3.normalize a) = 1.
Proof.
  intros H.
  assert (Hl : Vector3.length a <> 0) by (rewrite length_zero_iff; exact H).
  assert (Hn : Vector3.normalize a = Vector3.divideScalar a (Vector3.length a)).
  { unfold Vector3.normalize, Vector3.length_or_1.
    destruct (Req_dec_T _ _); [contradiction | reflexivity]. }
  repeat split; try assumption.
  rewrite Hn.
  assert (Hsq : Vector3.length a * Vector3.length a = Vector3.lengthSq a)
    by (apply sqrt_sqrt, lengthSq_nonneg).
  unfold Vector3.divideScalar, Vector3.multiplyScalar, Vector3.lengthSq at 1; simpl.
  unfold Vector3.lengthSq in Hsq.
  set (l := Vector3.length a) in *.
  transitivity ((vx a * vx a + vy a * vy a + vz a * vz a) / (l * l)).
  - field; exact Hl.
  - rewrite <- Hsq; field; exact Hl.
Qed.

(** ** Labels *)

(** C8: the label scale and opacity never increase when the camera-to-label
    distance grows, and stay within their clamp bounds, scale in
    [0.72, 2.35] and opacity in [0.24, 0.95], at every distance; they are
    the scale and opacity the frame gives the label. *)
Theorem label_scale_opacity_monotone_bounded (d1 d2 : R) (Hle : d1 <= d2) :
  Labels.labelScale d2 <= Labels.labelScale d1 /\
  Labels.labelOpacity d2 <= Labels.labelOpacity d1 /\
  0.72 <= Labels.labelScale d1 <= 2.35 /\
  0.24 <= Labels.labelOpacity d1 <= 0.95 /\
  (forall cam p a,
      Labels.updateLabel cam p a
      = (mkVec3 (a * Labels.labelScale (Vector3.distanceTo cam p))
           (Labels.labelScale (Vector3.distanceTo cam p)) 1,
         Labels.labelOpacity (Vector3.distanceTo cam p))).
Proof.
  unfold Labels.labelScale, Labels.labelOpacity.
  repeat split.
  - apply clamp_monotone; lra.
  - apply clamp_monotone; lra.
  - apply clamp_bounds; lra.
  - apply clamp_bounds; lra.
  - apply clamp_bounds; lra.
  - apply clamp_bounds; lra.
Qed.

Lemma label_scale_opacity_monotone_bounded_witness :
  Labels.labelScale 100 <= Labels.labelScale 0 /\
  Labels.labelOpacity 100 <= Labels.labelOpacity 0 /\
  0.72 <= Labels.labelScale 0 <= 2.35 /\
  0.24 <= Labels.labelOpacity 0 <= 0.95 /\
  (forall cam p a,
      Labels.updateLabel cam p a
      = (mkVec3 (a * Labels.labelScale (Vector3.distanceTo cam p))
           (Labels.labelScale (Vector3.distanceTo cam p)) 1,
         Labels.labelOpacity (Vector3.distanceTo cam p))).
Proof.
  apply (label_scale_opacity_monotone_bounded 0 100); lra.
Defined.

(** The clamps are reached: up close the scale is 2.35 and the opacity
    0.95, far away they are 0.72 and 0.24. *)
Example label_extremes :
  Labels.labelScale 0 = 2.35 /\ Labels.labelOpacity 0 = 0.95 /\
  Labels.labelScale 1000 = 0.72 /\ Labels.labelOpacity 1000 = 0.24.
Proof.
  unfold Labels.labelScale, Labels.labelOpacity, clamp, Rmax, Rmin.
  repeat split; repeat destruct (Rle_dec _ _); lra.
Qed.

(** ** Disturbance weight *)

Lemma disturbBlend_range (delta : R) :
  0 < delta -> 0 < Disturb.disturbBlend delta <= 1.
Proof.
  intros H; unfold Disturb.disturbBlend, Rmin.
  destruct (Rle_dec _ _); lra.
Qed.

Lemma disturbBlend_monotone (d d' : R) :
  d <= d' -> Disturb.disturbBlend d <= Disturb.disturbBlend d'.
Proof.
  intros H; unfold Disturb.disturbBlend, Rmin.
  repeat destruct (Rle_dec _ _); lra.
Qed.

Lemma smooth_to_zero (isFocused : bool) (target w delta : R) :
  isFocused = true \/ target = 0 ->
  Disturb.smooth isFocused target w delta
  = (0, w * (1 - Disturb.disturbBlend delta)).
Proof.
  intros [-> | ->]; unfold Disturb.smooth.
  - f_equal; ring.
  - destruct isFocused; f_equal; ring.
Qed.

Lemma decay_cons (w d : R) (l : list R) :
  Disturb.decay w (d :: l)
  = Disturb.decay (w * (1 - Disturb.disturbBlend d)) l.
Proof.
  change (Disturb.decay w (d :: l))
    with (Disturb.decay (snd (Disturb.smooth false 0 w d)) l).
  rewrite (smooth_to_zero false 0 w d) by (right; reflexivity); reflexivity.
Qed.

Lemma decay_app (w : R) (l1 l2 : list R) :
  Disturb.decay w (l1 ++ l2) = Disturb.decay (Disturb.decay w l1) l2.
Proof.
  revert w; induction l1 as [|d l1 IH]; intros w; [reflexivity|].
  rewrite <- app_comm_cons, !decay_cons; apply IH.
Qed.

Lemma decay_range (w : R) (deltas : list R) :
  0 <= w -> Forall (Rlt 0) deltas ->
  0 <= Disturb.decay w deltas <= w.
Proof.
  intros Hw Hd; revert w Hw.
  induction Hd as [|d l Hpos _ IH]; intros w Hw; [simpl; lra|].
  rewrite decay_cons.
  pose proof (disturbBlend_range d Hpos) as Hb.
  assert (H0 : 0 <= w * (1 - Disturb.disturbBlend d)) by nra.
  specialize (IH _ H0); nra.
Qed.

Lemma decay_le_pow (dmin w : R) (deltas : list R) :
  0 < dmin -> 0 <= w -> Forall (Rle dmin) deltas ->
  0 <= Disturb.decay w deltas
  <= w * (1 - Disturb.disturbBlend dmin) ^ List.length deltas.
Proof.
  intros Hmin Hw Hd; revert w Hw.
  pose proof (disturbBlend_range dmin Hmin) as Hq.
  induction Hd as [|d l Hle _ IH]; intros w Hw; [simpl; lra|].
  rewrite decay_cons; cbn [List.length pow].
  assert (Hpos : 0 < d) by lra.
  pose proof (disturbBlend_range d Hpos) as Hb.
  pose proof (disturbBlend_monotone dmin d Hle) as Hm.
  assert (H0 : 0 <= w * (1 - Disturb.disturbBlend d)) by nra.
  specialize (IH _ H0).
  assert (Hp : 0 <= (1 - Disturb.disturbBlend dmin) ^ List.length l)
    by (apply pow_le; lra).
  split; [lra|].
  apply Rle_trans with (1 := proj2 IH).
  rewrite <- Rmult_assoc.
  apply Rmult_le_compat_r; [exact Hp | nra].
Qed.

(** ** Particle field *)

Lemma hypot_0_0 : hypot 0 0 = 0.
Proof. unfold hypot; replace (0 * 0 + 0 * 0) with 0 by ring; apply sqrt_0. Qed.

(** The ranges of the animation parameters of a generated particle. *)
Lemma generate_ranges (uRadius uTheta uY uPhase uSpeed uAmplitude uTwist uPulse : R) :
  Galaxy.draw uPhase -> Galaxy.draw uSpeed -> Galaxy.draw uAmplitude ->
  Galaxy.draw uTwist -> Galaxy.draw uPulse ->
  let p := Galaxy.generate uRadius uTheta uY uPhase uSpeed uAmplitude uTwist uPulse in
  0 <= Galaxy.galaxyPhase p < 2 * PI /\
  0.25 <= Galaxy.galaxySpeed p < 1.45 /\
  0.08 <= Galaxy.galaxyAmplitude p < 0.42 /\
  0.0018 <= Galaxy.galaxyTwist p < 0.0108 /\
  0.004 <= Galaxy.galaxyPulse p < 0.022.
Proof.
  unfold Galaxy.draw, Galaxy.generate; simpl; intros.
  pose proof PI_RGT_0.
  repeat split; try lra; nra.
Qed.

Lemma livePosition_undisturbed (elapsed w : R) (dc : Vec3) (p : Galaxy.Particle) :
  w <= 0.001 -> Galaxy.livePosition elapsed w dc p = Galaxy.swirled elapsed p.
Proof.
  intros H; unfold Galaxy.livePosition, Rgtb.
  rewrite Rltb_ge by exact H; reflexivity.
Qed.

(** C1 fails: a particle generated with phase draw 0.25 (phase pi/2) on
    the axis of the disk is, at elapsed time 0 and without disturbance,
    0.08 above its base position. *)
Lemma live_position_at_zero_counterexample :
  let p := Galaxy.generate 0 0 0.5 0.25 0 0 0 0 in
  Galaxy.draw 0 /\ Galaxy.draw 0.5 /\ Galaxy.draw 0.25 /\
  Galaxy.base p = mkVec3 0 0 0 /\
  Galaxy.livePosition 0 0 (mkVec3 0 0 0) p = mkVec3 0 0.08 0 /\
  Galaxy.livePosition 0 0 (mkVec3 0 0 0) p <> Galaxy.base p.
Proof.
  intros p.
  assert (Hb : Galaxy.base p = mkVec3 0 0 0).
  { unfold p, Galaxy.generate; simpl. apply vec3_eq; simpl; lra. }
  assert (Hl : Galaxy.livePosition 0 0 (mkVec3 0 0 0) p = mkVec3 0 0.08 0).
  { rewrite livePosition_undisturbed by lra.
    unfold Galaxy.swirled; rewrite Hb; simpl; rewrite hypot_0_0.
    replace (0 * ((0.25 + 0 * 1.2) * 1.38) + 0.25 * PI * 2 + 0 * 0.19)
      with (PI / 2) by lra.
    rewrite sin_PI2.
    apply vec3_eq; simpl; lra. }
  unfold Galaxy.draw; repeat split; try lra; try assumption.
  rewrite Hl, Hb; intros H.
  apply (f_equal vy) in H; simpl in H; lra.
Qed.

Lemma sin_zero_small (x : R) : - PI < x < PI -> sin x = 0 -> x = 0.
Proof.
  intros [Hlo Hhi] Hs.
  destruct (Rtotal_order x 0) as [Hneg | [Hz | Hpos]]; [|exact Hz|].
  - pose proof (sin_lt_0_var x Hlo Hneg); lra.
  - pose proof (sin_gt_0 x Hpos Hhi); lra.
Qed.

Lemma hypot_zero (a b : R) : hypot a b = 0 <-> a = 0 /\ b = 0.
Proof.
  unfold hypot; split.
  - intros H.
    assert (Hsq : a * a + b * b = 0).
    { apply sqrt_eq_0; [nra | exact H]. }
    split; nra.
  - intros [-> ->]; rewrite Rmult_0_l, Rplus_0_l; apply sqrt_0.
Qed.

(** C1 (as amended): at elapsed time 0 and without disturbance the live
    position is the base position turned about the y axis by
    [sin(phase + 0.22 radius) * twist], scaled radially by
    [1 + sin(1.7 phase + 0.08 radius) * pulse] and lifted by
    [sin(phase + 0.19 radius) * amplitude].  For parameters in their
    ranges it is the base position exactly when the third sine is 0 and,
    unless the particle lies on the axis (radius 0), the first two are 0
    as well; so it is when the three sines are 0 and it is not when the
    third one is not.  It is at most the amplitude (below 0.42) above or
    below the base and at the base's distance from the axis up to the
    factor, which lies within 0.022 of 1. *)
Theorem live_position_at_zero (p : Galaxy.Particle) (w : R) (dc : Vec3)
    (Hw : w <= 0.001)
    (Hamp : 0.08 <= Galaxy.galaxyAmplitude p < 0.42)
    (Htwist : 0.0018 <= Galaxy.galaxyTwist p < 0.0108)
    (Hpulse : 0.004 <= Galaxy.galaxyPulse p < 0.022) :
  let bx := vx (Galaxy.base p) in
  let bz := vz (Galaxy.base p) in
  let radius := hypot bx bz in
  let phase := Galaxy.galaxyPhase p in
  let swirl := sin (phase + radius * 0.22) * Galaxy.galaxyTwist p in
  let pulse := 1 + sin (phase * 1.7 + radius * 0.08) * Galaxy.galaxyPulse p in
  let lift := sin (phase + radius * 0.19) * Galaxy.galaxyAmplitude p in
  let live := Galaxy.livePosition 0 w dc p in
  live = mkVec3 ((bx * cos swirl - bz * sin swirl) * pulse)
                (vy (Galaxy.base p) + lift)
                ((bx * sin swirl + bz * cos swirl) * pulse) /\
  (live = Galaxy.base p <->
   sin (phase + radius * 0.19) = 0 /\
   (radius = 0 \/
    (sin (phase + radius * 0.22) = 0 /\ sin (phase * 1.7 + radius * 0.08) = 0))) /\
  (sin (phase + radius * 0.22) = 0 -> sin (phase * 1.7 + radius * 0.08) = 0 ->
   sin (phase + radius * 0.19) = 0 -> live = Galaxy.base p) /\
  (sin (phase + radius * 0.19) <> 0 -> live <> Galaxy.base p) /\
  - Galaxy.galaxyAmplitude p <= vy live - vy (Galaxy.base p)
    <= Galaxy.galaxyAmplitude p /\
  0.978 < pulse < 1.022 /\
  vx live * vx live + vz live * vz live = (bx * bx + bz * bz) * (pulse * pulse).
Proof.
  intros bx bz radius phase swirl pulse lift live.
  assert (Hlive : live = mkVec3 ((bx * cos swirl - bz * sin swirl) * pulse)
                (vy (Galaxy.base p) + lift)
                ((bx * sin swirl + bz * cos swirl) * pulse)).
  { unfold live; rewrite livePosition_undisturbed by exact Hw.
    unfold Galaxy.swirled; cbv zeta.
    fold bx bz; fold radius; fold phase.
    replace (0 * Galaxy.galaxySpeed p + phase + radius * 0.22)
      with (phase + radius * 0.22) by ring.
    replace (0 * (Galaxy.galaxySpeed p * 0.72) + phase * 1.7 + radius * 0.08)
      with (phase * 1.7 + radius * 0.08) by ring.
    replace (0 * (Galaxy.galaxySpeed p * 1.38) + phase + radius * 0.19)
      with (phase + radius * 0.19) by ring.
    reflexivity. }
  pose proof (SIN_bound (phase + radius * 0.19)) as Hs3.
  pose proof (SIN_bound (phase * 1.7 + radius * 0.08)) as Hs2.
  pose proof (SIN_bound (phase + radius * 0.22)) as Hs1.
  assert (Hpulse' : 0.978 < pulse < 1.022) by (unfold pulse; nra).
  assert (Hzero : sin (phase + radius * 0.22) = 0 ->
                  sin (phase * 1.7 + radius * 0.08) = 0 ->
                  sin (phase + radius * 0.19) = 0 -> live = Galaxy.base p).
  { intros H1 H2 H3; rewrite Hlive.
    unfold swirl, pulse, lift; rewrite H1, H2, H3.
    rewrite !Rmult_0_l, sin_0, cos_0.
    apply vec3_eq; simpl; unfold bx, bz; ring. }
  split; [exact Hlive|].
  split; [|split; [exact Hzero|split; [|split; [|split]]]].
  - split.
    + intros Heq.
      pose proof (f_equal vx Heq) as Hx.
      pose proof (f_equal vy Heq) as Hy.
      pose proof (f_equal vz Heq) as Hz.
      rewrite Hlive in Hx, Hy, Hz; simpl in Hx, Hy, Hz.
      fold bx in Hx; fold bz in Hz.
      split; [unfold lift in Hy; nra|].
      destruct (Req_dec radius 0) as [Hr | Hr]; [left; exact Hr | right].
      assert (Hsq : 0 < bx * bx + bz * bz).
      { destruct (Req_dec bx 0) as [Hbx | Hbx];
          [destruct (Req_dec bz 0) as [Hbz | Hbz]|]; [|nra|nra].
        exfalso; apply Hr; apply hypot_zero; split; assumption. }
      assert (Hsin : sin swirl = 0).
      { assert (H : pulse * (sin swirl * (bx * bx + bz * bz)) = 0).
        { replace (pulse * (sin swirl * (bx * bx + bz * bz)))
            with (bx * ((bx * sin swirl + bz * cos swirl) * pulse)
                  - bz * ((bx * cos swirl - bz * sin swirl) * pulse)) by ring.
          rewrite Hx, Hz; ring. }
        apply Rmult_integral in H as [H | H]; [lra|].
        apply Rmult_integral in H as [H | H]; [exact H | lra]. }
      assert (Hswirl : swirl = 0).
      { apply sin_zero_small; [|exact Hsin].
        pose proof PI2_3_2; unfold swirl; split; nra. }
      assert (H1 : sin (phase + radius * 0.22) = 0).
      { unfold swirl in Hswirl.
        apply Rmult_integral in Hswirl as [H | H]; [exact H | lra]. }
      split; [exact H1|].
      rewrite Hswirl, sin_0, cos_0 in Hx, Hz.
      assert (Hk : pulse = 1).
      { destruct (Req_dec bx 0) as [Hbx | Hbx]; [|nra].
        destruct (Req_dec bz 0) as [Hbz | Hbz]; [|nra].
        exfalso; nra. }
      unfold pulse in Hk.
      assert (Hprod : sin (phase * 1.7 + radius * 0.08) * Galaxy.galaxyPulse p = 0)
        by lra.
      apply Rmult_integral in Hprod as [H | H]; [exact H | lra].
    + intros [H3 [Hr | [H1 H2]]]; [|apply Hzero; assumption].
      apply hypot_zero in Hr as [Hbx Hbz].
      rewrite Hlive; unfold lift; rewrite H3, Hbx, Hbz.
      apply vec3_eq; simpl; unfold bx, bz in *; try rewrite Hbx; try rewrite Hbz; ring.
  - intros H3 Heq.
    apply (f_equal vy) in Heq; rewrite Hlive in Heq; simpl in Heq.
    unfold lift in Heq; nra.
  - rewrite Hlive; simpl; unfold lift; nra.
  - exact Hpulse'.
  - rewrite Hlive; simpl.
    pose proof (sin2_cos2 swirl) as Hsc; unfold Rsqr in Hsc.
    nra.
Qed.

Lemma live_position_at_zero_witness :
  let p := Galaxy.mkParticle (mkVec3 3 1 4) 1 0.25 0.08 0.0018 0.004 in
  let bx := vx (Galaxy.base p) in
  let bz := vz (Galaxy.base p) in
  let radius := hypot bx bz in
  let phase := Galaxy.galaxyPhase p in
  let swirl := sin (phase + radius * 0.22) * Galaxy.galaxyTwist p in
  let pulse := 1 + sin (phase * 1.7 + radius * 0.08) * Galaxy.galaxyPulse p in
  let lift := sin (phase + radius * 0.19) * Galaxy.galaxyAmplitude p in
  let live := Galaxy.livePosition 0 0 (mkVec3 0 0 0) p in
  live = mkVec3 ((bx * cos swirl - bz * sin swirl) * pulse)
                (vy (Galaxy.base p) + lift)
                ((bx * sin swirl + bz * cos swirl) * pulse) /\
  (live = Galaxy.base p <->
   sin (phase + radius * 0.19) = 0 /\
   (radius = 0 \/
    (sin (phase + radius * 0.22) = 0 /\ sin (phase * 1.7 + radius * 0.08) = 0))) /\
  (sin (phase + radius * 0.22) = 0 -> sin (phase * 1.7 + radius * 0.08) = 0 ->
   sin (phase + radius * 0.19) = 0 -> live = Galaxy.base p) /\
  (sin (phase + radius * 0.19) <> 0 -> live <> Galaxy.base p) /\
  - Galaxy.galaxyAmplitude p <= vy live - vy (Galaxy.base p)
    <= Galaxy.galaxyAmplitude p /\
  0.978 < pulse < 1.022 /\
  vx live * vx live + vz live * vz live = (bx * bx + bz * bz) * (pulse * pulse).
Proof.
  apply (live_position_at_zero
           (Galaxy.mkParticle (mkVec3 3 1 4) 1 0.25 0.08 0.0018 0.004)
           0 (mkVec3 0 0 0)); simpl; lra.
Defined.

(** ** Double arithmetic *)

Lemma Int_part_between (r : R) (lo hi : Z) :
  IZR lo <= r -> r < IZR hi + 1 -> (lo <= Int_part r <= hi)%Z.
Proof.
  intros Hlo Hhi.
  destruct (base_Int_part r) as [Hle Hgt].
  split.
  - assert (H : IZR (lo - 1) < IZR (Int_part r)) by (rewrite minus_IZR; lra).
    apply lt_IZR in H; lia.
  - assert (H : IZR (Int_part r) < IZR (hi + 1)) by (rewrite plus_IZR; lra).
    apply lt_IZR in H; lia.
Qed.

Lemma Int_part_is (r : R) (z : Z) : IZR z <= r < IZR z + 1 -> Int_part r = z.
Proof.
  intros H; pose proof (Int_part_between r z z ltac:(lra) ltac:(lra)); lia.
Qed.

Lemma ln_2_pos : 0 < ln 2.
Proof. rewrite <- ln_1; apply ln_increasing; lra. Qed.

Lemma ln_powerRZ_2 (e : Z) : ln (powerRZ 2 e) = IZR e * ln 2.
Proof.
  rewrite powerRZ_Rpower by lra.
  unfold Rpower; apply ln_exp.
Qed.

Lemma powerRZ_2_pos (e : Z) : 0 < powerRZ 2 e.
Proof. apply powerRZ_lt; lra. Qed.

(** The binade of a number fixes its exponent. *)
Lemma binade_Int_part (x : R) (e : Z) :
  powerRZ 2 e <= Rabs x < powerRZ 2 (e + 1) ->
  Int_part (ln (Rabs x) / ln 2) = e.
Proof.
  intros [Hlo Hhi].
  pose proof ln_2_pos as H2.
  pose proof (powerRZ_2_pos e) as Hpos.
  apply Int_part_is.
  assert (Hl : IZR e * ln 2 <= ln (Rabs x)).
  { rewrite <- ln_powerRZ_2.
    destruct (Rle_lt_or_eq_dec _ _ Hlo) as [Hlt | Heq];
      [left; apply ln_increasing; assumption | rewrite Heq; right; reflexivity]. }
  assert (Hh : ln (Rabs x) < (IZR e + 1) * ln 2).
  { rewrite <- plus_IZR, <- ln_powerRZ_2.
    apply ln_increasing; lra. }
  split.
  - apply Rmult_le_reg_r with (ln 2); [exact H2|].
    unfold Rdiv; rewrite Rmult_assoc, Rinv_l by lra; lra.
  - apply Rmult_lt_reg_r with (ln 2); [exact H2|].
    unfold Rdiv; rewrite Rmult_assoc, Rinv_l by lra; lra.
Qed.

Lemma exponent_normal (x : R) (e : Z) :
  (-1022 <= e)%Z ->
  powerRZ 2 e <= Rabs x < powerRZ 2 (e + 1) ->
  Double.exponent x = e.
Proof.
  intros He H; unfold Double.exponent.
  rewrite (binade_Int_part x e H); lia.
Qed.

Lemma powerRZ_2_lt (a b : Z) : (a < b)%Z -> powerRZ 2 a < powerRZ 2 b.
Proof.
  intros H.
  replace b with (a + (b - a))%Z by lia.
  rewrite powerRZ_add by lra.
  pose proof (powerRZ_2_pos a).
  assert (1 < powerRZ 2 (b - a)).
  { replace (b - a)%Z with (Z.of_nat (S (Z.to_nat (b - a - 1)))) by lia.
    rewrite <- pow_powerRZ.
    apply Rlt_pow_R1; [lra | lia]. }
  nra.
Qed.

(** Below the smallest normal number the exponent is that of the
    subnormal numbers. *)
Lemma exponent_subnormal (x : R) :
  0 < Rabs x < powerRZ 2 (-1022) -> Double.exponent x = (-1022)%Z.
Proof.
  intros [Hpos Hhi]; unfold Double.exponent.
  pose proof ln_2_pos as H2.
  assert (Hh : ln (Rabs x) < IZR (-1022) * ln 2).
  { rewrite <- ln_powerRZ_2; apply ln_increasing; assumption. }
  assert (Hq : ln (Rabs x) / ln 2 < IZR (-1022)).
  { apply Rmult_lt_reg_r with (ln 2); [exact H2|].
    unfold Rdiv; rewrite Rmult_assoc, Rinv_l by lra; lra. }
  destruct (base_Int_part (ln (Rabs x) / ln 2)) as [Hle _].
  assert (H : IZR (Int_part (ln (Rabs x) / ln 2)) < IZR (-1022)) by lra.
  apply lt_IZR in H; lia.
Qed.

Lemma nearestEven_near (y : R) (m : Z) :
  IZR m - 1 / 2 < y < IZR m + 1 / 2 -> Double.nearestEven y = m.
Proof.
  intros [Hlo Hhi]; unfold Double.nearestEven.
  destruct (Rle_lt_dec (IZR m) y) as [Hge | Hlt].
  - rewrite (Int_part_is y m) by lra.
    rewrite Rltb_lt by lra; reflexivity.
  - rewrite (Int_part_is y (m - 1)) by (rewrite minus_IZR; lra).
    rewrite minus_IZR.
    rewrite Rltb_ge by lra.
    rewrite Rltb_lt by lra; lia.
Qed.

(** Rounding in a normal binade [2^e <= |x| < 2^(e+1)], [e <= 52], with
    the scale [2^(52-e)] that makes the significand an integer. *)
Lemma round_near (x : R) (e m scale : Z) :
  (-1022 <= e <= 52)%Z -> scale = (2 ^ (52 - e))%Z ->
  4503599627370496 <= Rabs (x * IZR scale) < 9007199254740992 ->
  IZR m - 1 / 2 < x * IZR scale < IZR m + 1 / 2 ->
  Double.round x = IZR m / IZR scale.
Proof.
  intros He Hscale Hbin Hm.
  assert (Hs : IZR scale = powerRZ 2 (52 - e)).
  { rewrite Hscale.
    replace (52 - e)%Z with (Z.of_nat (Z.to_nat (52 - e))) at 2 by lia.
    rewrite <- pow_powerRZ, pow_IZR.
    replace (Z.of_nat (Z.to_nat (52 - e))) with (52 - e)%Z by lia; reflexivity. }
  pose proof (powerRZ_2_pos (52 - e)) as Hspos.
  pose proof (powerRZ_2_pos (e - 52)) as Hupos.
  assert (Hinv : powerRZ 2 (e - 52) * powerRZ 2 (52 - e) = 1).
  { rewrite <- powerRZ_add by lra.
    replace (e - 52 + (52 - e))%Z with 0%Z by lia; reflexivity. }
  assert (H52 : powerRZ 2 52 = 4503599627370496).
  { change 52%Z with (Z.of_nat 52); rewrite <- pow_powerRZ.
    change 2 with (IZR 2); rewrite pow_IZR; reflexivity. }
  assert (Hexp : Double.exponent x = e).
  { apply exponent_normal; [lia|].
    rewrite Rabs_mult, (Rabs_pos_eq (IZR scale)) in Hbin by (rewrite Hs; lra).
    rewrite Hs in Hbin.
    assert (He1 : powerRZ 2 e = 4503599627370496 * powerRZ 2 (e - 52)).
    { rewrite <- H52, <- powerRZ_add by lra.
      replace (52 + (e - 52))%Z with e by lia; reflexivity. }
    assert (He2 : powerRZ 2 (e + 1) = 9007199254740992 * powerRZ 2 (e - 52)).
    { replace (e + 1)%Z with (1 + 52 + (e - 52))%Z by lia.
      rewrite !powerRZ_add by lra.
      rewrite H52; simpl; lra. }
    rewrite He1, He2.
    replace (Rabs x) with (Rabs x * powerRZ 2 (52 - e) * powerRZ 2 (e - 52))
      by (rewrite Rmult_assoc, (Rmult_comm (powerRZ 2 (52 - e))), Hinv; ring).
    split; [apply Rmult_le_compat_r | apply Rmult_lt_compat_r]; lra. }
  unfold Double.round, Double.ulp; rewrite Hexp.
  assert (Hdiv : x / powerRZ 2 (e - 52) = x * IZR scale).
  { rewrite Hs; apply Rmult_eq_reg_r with (powerRZ 2 (e - 52)); [|lra].
    unfold Rdiv; rewrite Rmult_assoc, Rinv_l by lra.
    rewrite Rmult_assoc, (Rmult_comm (powerRZ 2 (52 - e))), Hinv; ring. }
  rewrite Hdiv, (nearestEven_near _ m Hm).
  rewrite Hs; apply Rmult_eq_reg_r with (powerRZ 2 (52 - e)); [|lra].
  unfold Rdiv; rewrite !Rmult_assoc, Rinv_l, Hinv by lra; ring.
Qed.

Lemma round_0 : Double.round 0 = 0.
Proof.
  unfold Double.round.
  replace (0 / Double.ulp 0) with 0 by (unfold Rdiv; ring).
  rewrite (nearestEven_near 0 0) by lra; ring.
Qed.

(** A result below half the smallest subnormal number underflows to 0. *)
Lemma round_underflow (x : R) : Rabs x < powerRZ 2 (-1075) -> Double.round x = 0.
Proof.
  intros Hx.
  destruct (Req_dec x 0) as [-> | Hne]; [apply round_0|].
  pose proof (Rabs_pos_lt x Hne) as Hpos.
  pose proof (powerRZ_2_lt (-1075) (-1022) ltac:(lia)) as Hlt.
  unfold Double.round, Double.ulp.
  rewrite exponent_subnormal by lra.
  replace (-1022 - 52)%Z with (-1074)%Z by lia.
  pose proof (powerRZ_2_pos (-1074)) as Hu.
  assert (Hhalf : powerRZ 2 (-1075) = powerRZ 2 (-1074) / 2).
  { replace (-1075)%Z with (-1074 + -1)%Z by lia.
    rewrite powerRZ_add by lra; simpl; lra. }
  rewrite (nearestEven_near _ 0); [ring|].
  assert (Habs : Rabs (x / powerRZ 2 (-1074)) < 1 / 2).
  { unfold Rdiv; rewrite Rabs_mult, (Rabs_pos_eq (/ _))
      by (left; apply Rinv_0_lt_compat; exact Hu).
    apply Rmult_lt_reg_r with (powerRZ 2 (-1074)); [exact Hu|].
    rewrite Rmult_assoc, Rinv_l by lra; lra. }
  apply Rabs_def2 in Habs; lra.
Qed.

(** ** Direction fallbacks *)

Lemma curveNormal_origin : Constellation.curveNormal (mkVec3 0 0 0) = mkVec3 0 1 0.
Proof.
  unfold Constellation.curveNormal.
  rewrite normalize_zero by (unfold Vector3.lengthSq; simpl; ring).
  rewrite Rltb_lt by (unfold Vector3.lengthSq; simpl; lra).
  reflexivity.
Qed.

Lemma curveNormal_off_origin (m : Vec3) :
  m <> mkVec3 0 0 0 ->
  Vector3.length m <> 0 /\
  Constellation.curveNormal m = Vector3.divideScalar m (Vector3.length m).
Proof.
  intros Hm.
  assert (Hsq : Vector3.lengthSq m <> 0)
    by (intros H; apply Hm, lengthSq_zero, H).
  destruct (normalize_nonzero m Hsq) as (Hl & Hn & H1).
  split; [exact Hl|].
  unfold Constellation.curveNormal.
  rewrite Rltb_ge by lra.
  exact Hn.
Qed.

Lemma normalize_default_approach : Vector3.normalize (mkVec3 0 0 1) = mkVec3 0 0 1.
Proof.
  assert (Hsq : Vector3.lengthSq (mkVec3 0 0 1) = 1)
    by (unfold Vector3.lengthSq; simpl; ring).
  assert (Hl : Vector3.length (mkVec3 0 0 1) = 1)
    by (unfold Vector3.length; rewrite Hsq; apply sqrt_1).
  unfold Vector3.normalize, Vector3.length_or_1; rewrite Hl.
  destruct (Req_dec_T 1 0); [lra|].
  apply vec3_eq; simpl; field.
Qed.

Lemma approachDirection_near (cam node : Vec3) :
  Vector3.lengthSq (Vector3.sub cam node) < 0.0001 ->
  Scene.approachDirection cam node = mkVec3 0 0 1.
Proof.
  intros H; unfold Scene.approachDirection.
  rewrite Rltb_lt by exact H.
  apply normalize_default_approach.
Qed.

Lemma approachDirection_far (cam node : Vec3) :
  0.0001 <= Vector3.lengthSq (Vector3.sub cam node) ->
  Vector3.length (Vector3.sub cam node) <> 0 /\
  Scene.approachDirection cam node
  = Vector3.divideScalar (Vector3.sub cam node)
      (Vector3.length (Vector3.sub cam node)).
Proof.
  intros H; unfold Scene.approachDirection.
  rewrite Rltb_ge by exact H.
  destruct (normalize_nonzero (Vector3.sub cam node)) as (Hl & Hn & _); [lra|].
  split; assumption.
Qed.

Lemma double_1 : Double.round 1 = 1.
Proof.
  rewrite (round_near 1 0 4503599627370496 4503599627370496);
    [lra | lia | reflexivity | rewrite Rabs_pos_eq by lra; lra | lra].
Qed.

Lemma double_2 : Double.round 2 = 2.
Proof.
  rewrite (round_near 2 1 4503599627370496 2251799813685248);
    [lra | lia | reflexivity | rewrite Rabs_pos_eq by lra; lra | lra].
Qed.

Lemma double_4 : Double.round 4 = 4.
Proof.
  rewrite (round_near 4 2 4503599627370496 1125899906842624);
    [lra | lia | reflexivity | rewrite Rabs_pos_eq by lra; lra | lra].
Qed.

(** A midpoint at distance 2 on the x axis: its computed length is 2, and
    the computed squared length of its quotient by 2 is 1. *)
Lemma double_length_2 :
  Double.length (mkVec3 2 0 0) = 2 /\
  Double.lengthSq (Vector3.divideScalar (mkVec3 2 0 0) 2) = 1.
Proof.
  unfold Double.length, Double.Math_sqrt, Double.lengthSq, Double.add, Double.mul,
    Vector3.divideScalar, Vector3.multiplyScalar; cbn [vx vy vz].
  replace (2 * 2) with 4 by lra.
  replace (2 * (1 / 2) * (2 * (1 / 2))) with 1 by lra.
  replace (0 * (1 / 2) * (0 * (1 / 2))) with 0 by lra.
  rewrite Rmult_0_l, round_0, double_4, double_1.
  rewrite !Rplus_0_r, double_4, double_1, double_4, double_1.
  replace 4 with (2 * 2) at 1 by lra.
  rewrite sqrt_square by lra.
  split; [apply double_2 | reflexivity].
Qed.

(** A midpoint at [2^-600] from the origin: its square, [2^-1200], is below
    every double but 0, so the squared length and the length the library
    computes are 0. *)
Lemma double_tiny :
  Double.lengthSq tinyMidpoint = 0 /\ Double.length tinyMidpoint = 0.
Proof.
  assert (Hsq : Double.lengthSq tinyMidpoint = 0).
  { unfold Double.lengthSq, Double.add, Double.mul, tinyMidpoint; cbn [vx vy vz].
    rewrite <- powerRZ_add by lra.
    rewrite (round_underflow (powerRZ 2 (-600 + -600)))
      by (rewrite Rabs_pos_eq by (left; apply powerRZ_2_pos);
          apply powerRZ_2_lt; lia).
    rewrite Rmult_0_l, round_0, Rplus_0_l, round_0, Rplus_0_l, round_0.
    reflexivity. }
  split; [exact Hsq|].
  unfold Double.length, Double.Math_sqrt; rewrite Hsq, sqrt_0; apply round_0.
Qed.

Lemma divideScalar_1 (a : Vec3) : Vector3.divideScalar a 1 = a.
Proof. destruct a; apply vec3_eq; simpl; field. Qed.

(** The curve normal when the computed length of the midpoint is 0. *)
Lemma curveNormalWith_zero (length lengthSq : Vec3 -> R) (m : Vec3) :
  length m = 0 -> lengthSq m < 0.0001 ->
  Constellation.curveNormalWith length lengthSq m = mkVec3 0 1 0.
Proof.
  intros Hl Hsq; unfold Constellation.curveNormalWith; rewrite Hl.
  destruct (Req_dec_T 0 0) as [_ | Hne]; [|contradiction].
  cbv zeta; rewrite divideScalar_1, Rltb_lt by exact Hsq; reflexivity.
Qed.

Lemma curveNormalWith_nonzero (length lengthSq : Vec3 -> R) (m : Vec3) :
  length m <> 0 ->
  0.0001 <= lengthSq (Vector3.divideScalar m (length m)) ->
  Constellation.curveNormalWith length lengthSq m
  = Vector3.divideScalar m (length m).
Proof.
  intros Hl Hsq; unfold Constellation.curveNormalWith.
  destruct (Req_dec_T (length m) 0) as [H0 | _]; [contradiction|].
  cbv zeta; rewrite Rltb_ge by exact Hsq; reflexivity.
Qed.

Lemma tenth_pow_pos (n : nat) : 0 < / 10 ^ n.
Proof. apply Rinv_0_lt_compat, pow_lt; lra. Qed.

(** C9 fails: a camera 0.005 away from the node does not coincide with it,
    and its normalized direction from the node is (1, 0, 0), but the focus
    effect approaches along the default (0, 0, 1); the curve normal of a
    midpoint at the same small offset from the origin is the normalized
    (1, 0, 0), not the up vector. *)
Lemma direction_fallback_counterexample :
  let cam := mkVec3 0.005 0 0 in
  let node := mkVec3 0 0 0 in
  cam <> node /\
  Vector3.normalize (Vector3.sub cam node) = mkVec3 1 0 0 /\
  Scene.approachDirection cam node = mkVec3 0 0 1 /\
  Scene.approachDirection cam node <> Vector3.normalize (Vector3.sub cam node) /\
  Constellation.curveNormal cam = mkVec3 1 0 0.
Proof.
  intros cam node.
  assert (Hsub : Vector3.sub cam node = cam)
    by (apply vec3_eq; simpl; ring).
  assert (Hsq : Vector3.lengthSq cam = 0.005 * 0.005)
    by (unfold Vector3.lengthSq; simpl; ring).
  assert (Hl : Vector3.length cam = 0.005)
    by (unfold Vector3.length; rewrite Hsq; apply sqrt_square; lra).
  assert (Hn : Vector3.normalize cam = mkVec3 1 0 0).
  { destruct (normalize_nonzero cam) as (_ & -> & _); [rewrite Hsq; lra|].
    rewrite Hl; apply vec3_eq; simpl; lra. }
  assert (Ha : Scene.approachDirection cam node = mkVec3 0 0 1)
    by (apply approachDirection_near; rewrite Hsub, Hsq; lra).
  assert (Hne : cam <> node)
    by (intros H; apply (f_equal vx) in H; simpl in H; lra).
  repeat split.
  - exact Hne.
  - rewrite Hsub; exact Hn.
  - exact Ha.
  - rewrite Ha, Hsub, Hn; intros H; apply (f_equal vx) in H; simpl in H; lra.
  - destruct (curveNormal_off_origin cam Hne) as [_ ->].
    rewrite Hl; apply vec3_eq; simpl; lra.
Qed.

(** C9 (as amended): no direction is divided by zero, a length of 0 being
    replaced by 1.  With [length] and [lengthSq] the values the library
    computes: the curve normal of an edge is the up vector (0, 1, 0) when
    the computed length of the midpoint is 0, which is so at the origin
    and for a midpoint whose squared length underflows; it is the midpoint
    divided by its computed length when that is not 0 and the quotient
    passes the test, and for a midpoint whose squared length lies between
    [10^-300] and [10^300], where doubles neither underflow nor overflow,
    this is the normalized midpoint, of length 1; the control point of
    the curve is the midpoint moved along the normal.  The approach
    direction of a focus request is the default (0, 0, 1) when the squared
    distance between camera and node is below 0.0001, in particular when
    they coincide, and the normalized direction from the node to the
    camera when it is at least 0.0001 and at most [10^300]. *)
Theorem direction_fallbacks (length lengthSq : Vec3 -> R) (m cam node : Vec3) :
  Vector3.length_or_1 m <> 0 /\
  (if Req_dec_T (length m) 0 then 1 else length m) <> 0 /\
  (m = mkVec3 0 0 0 -> Constellation.curveNormal m = mkVec3 0 1 0) /\
  (length m = 0 -> lengthSq m < 0.0001 ->
   Constellation.curveNormalWith length lengthSq m = mkVec3 0 1 0) /\
  (length m <> 0 ->
   0.0001 <= lengthSq (Vector3.divideScalar m (length m)) ->
   Constellation.curveNormalWith length lengthSq m
   = Vector3.divideScalar m (length m)) /\
  (/ 10 ^ 300 <= Vector3.lengthSq m <= 10 ^ 300 ->
   Vector3.length m <> 0 /\
   Constellation.curveNormal m = Vector3.divideScalar m (Vector3.length m) /\
   Vector3.lengthSq (Constellation.curveNormal m) = 1) /\
  (forall from c,
      Vector3.multiplyScalar (Vector3.add from (Constellation.point c)) 0.5 = m ->
      Constellation.v1
        (Constellation.curveToWith
           (Constellation.curveNormalWith length lengthSq) from c)
      = Vector3.addScaledVector m
          (Constellation.curveNormalWith length lengthSq m)
          (0.2 * sqrt (Constellation.distance c) + 1.2)) /\
  (cam = node -> Scene.approachDirection cam node = mkVec3 0 0 1) /\
  (Vector3.lengthSq (Vector3.sub cam node) < 0.0001 ->
   Scene.approachDirection cam node = mkVec3 0 0 1) /\
  (0.0001 <= Vector3.lengthSq (Vector3.sub cam node) <= 10 ^ 300 ->
   Vector3.length (Vector3.sub cam node) <> 0 /\
   Scene.approachDirection cam node
   = Vector3.divideScalar (Vector3.sub cam node)
       (Vector3.length (Vector3.sub cam node))).
Proof.
  split; [apply length_or_1_nonzero|].
  split; [destruct (Req_dec_T (length m) 0); [lra | assumption]|].
  split; [intros ->; apply curveNormal_origin|].
  split; [apply curveNormalWith_zero|].
  split; [apply curveNormalWith_nonzero|].
  split.
  { intros [Hlo _].
    pose proof (tenth_pow_pos 300) as Hpos.
    assert (Hne : Vector3.lengthSq m <> 0) by lra.
    destruct (normalize_nonzero m Hne) as (Hl & Hn & H1).
    assert (Hc : Constellation.curveNormal m = Vector3.normalize m).
    { unfold Constellation.curveNormal; rewrite Rltb_ge by lra; reflexivity. }
    split; [exact Hl|]; split; [rewrite Hc; exact Hn | rewrite Hc; exact H1]. }
  split; [intros from c <-; reflexivity|].
  split; [|split].
  - intros ->; apply approachDirection_near.
    unfold Vector3.lengthSq, Vector3.sub; simpl; nra.
  - apply approachDirection_near.
  - intros [Hlo _]; apply approachDirection_far, Hlo.
Qed.

Lemma direction_fallbacks_witness :
  Double.length tinyMidpoint = 0 /\
  Double.lengthSq tinyMidpoint < 0.0001 /\
  Constellation.curveNormalWith Double.length Double.lengthSq tinyMidpoint
  = mkVec3 0 1 0 /\
  Constellation.curveNormalWith Double.length Double.lengthSq (mkVec3 2 0 0)
  = mkVec3 1 0 0 /\
  Constellation.curveNormal (mkVec3 0 0 0) = mkVec3 0 1 0 /\
  Scene.approachDirection (mkVec3 1 2 3) (mkVec3 1 2 3) = mkVec3 0 0 1.
Proof.
  pose proof (direction_fallbacks Double.length Double.lengthSq tinyMidpoint
                (mkVec3 1 2 3) (mkVec3 1 2 3))
    as (_ & _ & _ & Htiny & _ & _ & _ & Hsame & _).
  pose proof (direction_fallbacks Double.length Double.lengthSq (mkVec3 2 0 0)
                (mkVec3 1 2 3) (mkVec3 1 2 3))
    as (_ & _ & _ & _ & Hnormal & _).
  pose proof (direction_fallbacks Double.length Double.lengthSq (mkVec3 0 0 0)
                (mkVec3 1 2 3) (mkVec3 1 2 3))
    as (_ & _ & Hup & _).
  destruct double_tiny as [Hsq Hl].
  destruct double_length_2 as [Hl2 Hsq2].
  assert (Hlt : Double.lengthSq tinyMidpoint < 0.0001) by (rewrite Hsq; lra).
  split; [exact Hl|].
  split; [exact Hlt|].
  split; [apply Htiny; assumption|].
  split.
  { rewrite Hnormal; rewrite Hl2; [apply vec3_eq; simpl; lra | lra | rewrite Hsq2; lra]. }
  split; [apply Hup | apply Hsame]; reflexivity.
Defined.

(** ** Constellation *)

Section SortFacts.

Import Constellation.

Variable A : Type.
Variable compareFn : A -> A -> R.

Lemma sortedInsert_perm (x : A) (l : list A) :
  Permutation (sortedInsert compareFn x l) (x :: l).
Proof.
  induction l as [|y l IH]; simpl; [reflexivity|].
  destruct (Rgtb _ _); [|reflexivity].
  rewrite IH; apply perm_swap.
Qed.

Lemma Array_sort_perm (l : list A) : Permutation (Array_sort compareFn l) l.
Proof.
  induction l as [|x l IH]; simpl; [reflexivity|].
  rewrite sortedInsert_perm; apply perm_skip, IH.
Qed.

End SortFacts.

Lemma StronglySorted_app_cross {A : Type} (R : A -> A -> Prop) (l1 l2 : list A) :
  StronglySorted R (l1 ++ l2) ->
  forall a b, In a l1 -> In b l2 -> R a b.
Proof.
  induction l1 as [|x l1 IH]; simpl; intros Hs a b Ha Hb; [contradiction|].
  apply StronglySorted_inv in Hs as [Hs Hall].
  destruct Ha as [<- | Ha].
  - rewrite Forall_forall in Hall; apply Hall, in_or_app; right; exact Hb.
  - apply IH; assumption.
Qed.

Lemma StronglySorted_of_map {A B : Type} (f : A -> B) (R : B -> B -> Prop)
    (l : list A) :
  StronglySorted R (map f l) -> StronglySorted (fun a b => R (f a) (f b)) l.
Proof.
  induction l as [|x l IH]; simpl; intros Hs; constructor;
    apply StronglySorted_inv in Hs as [Hs Hall].
  - apply IH, Hs.
  - rewrite Forall_forall in *; intros y Hy; apply Hall, in_map, Hy.
Qed.

Lemma StronglySorted_seq (s n : nat) : StronglySorted lt (seq s n).
Proof.
  revert s; induction n as [|n IH]; intros s; simpl; constructor.
  - apply IH.
  - rewrite Forall_forall; intros y Hy; apply in_seq in Hy; lia.
Qed.

Lemma nearer_trans (a b c : Constellation.Candidate) :
  Constellation.nearer a b -> Constellation.nearer b c -> Constellation.nearer a c.
Proof.
  unfold Constellation.nearer; intros [H1 | [H1 H1']] [H2 | [H2 H2']].
  - left; lra.
  - left; lra.
  - left; lra.
  - right; split; [lra | lia].
Qed.

Lemma sortedInsert_sorted (x : Constellation.Candidate)
    (l : list Constellation.Candidate) :
  StronglySorted Constellation.nearer l ->
  (forall y, In y l -> (Constellation.pointIndex x < Constellation.pointIndex y)%nat) ->
  StronglySorted Constellation.nearer (Constellation.sortedInsert Constellation.byDistance x l).
Proof.
  induction l as [|y l IH]; simpl; intros Hs Hidx.
  - constructor; constructor.
  - apply StronglySorted_inv in Hs as [Hs Hall].
    unfold Rgtb at 1, Constellation.byDistance at 1.
    destruct (Rltb 0 _) eqn:Hcmp.
    + apply Rltb_true in Hcmp.
      constructor; [apply IH; auto|].
      rewrite Forall_forall in *; intros z Hz.
      apply (Permutation_in _ (sortedInsert_perm _ Constellation.byDistance x l)) in Hz.
      destruct Hz as [<- | Hz]; [left; lra | apply Hall, Hz].
    + apply Rltb_false in Hcmp.
      assert (Hxy : Constellation.nearer x y).
      { specialize (Hidx y (or_introl eq_refl)).
        unfold Constellation.nearer.
        destruct (Rle_lt_or_eq_dec _ _ Hcmp) as [Hlt | Heq];
          [left; lra | right; split; [lra | exact Hidx]]. }
      constructor; [constructor; assumption|].
      constructor; [exact Hxy|].
      rewrite Forall_forall in *; intros z Hz.
      apply nearer_trans with y; [exact Hxy | apply Hall, Hz].
Qed.

Lemma Array_sort_sorted (l : list Constellation.Candidate) :
  StronglySorted (fun a b =>
      (Constellation.pointIndex a < Constellation.pointIndex b)%nat) l ->
  StronglySorted Constellation.nearer (Constellation.Array_sort Constellation.byDistance l).
Proof.
  induction l as [|x l IH]; simpl; intros Hs; [constructor|].
  apply StronglySorted_inv in Hs as [Hs Hall].
  apply sortedInsert_sorted; [apply IH, Hs|].
  intros y Hy.
  apply (Permutation_in _ (Array_sort_perm _ Constellation.byDistance l)) in Hy.
  rewrite Forall_forall in Hall; apply Hall, Hy.
Qed.

Lemma StronglySorted_app_l {A : Type} (R : A -> A -> Prop) (l1 l2 : list A) :
  StronglySorted R (l1 ++ l2) -> StronglySorted R l1.
Proof.
  induction l1 as [|x l1 IH]; simpl; intros Hs; constructor;
    apply StronglySorted_inv in Hs as [Hs Hall].
  - apply IH, Hs.
  - apply Forall_app in Hall; apply Hall.
Qed.

Lemma StronglySorted_map_in {A B : Type} (f : A -> B) (R : A -> A -> Prop)
    (R' : B -> B -> Prop) (l : list A) :
  (forall a b, In a l -> In b l -> R a b -> R' (f a) (f b)) ->
  StronglySorted R l -> StronglySorted R' (map f l).
Proof.
  induction l as [|x l IH]; simpl; intros Himp Hs; constructor;
    apply StronglySorted_inv in Hs as [Hs Hall].
  - apply IH; [intros a b Ha Hb; apply Himp; auto | exact Hs].
  - rewrite Forall_forall in *; intros y Hy.
    apply in_map_iff in Hy as (a & <- & Ha).
    apply Himp; auto.
Qed.

Lemma map_snd_filter {A B : Type} (f : B -> bool) (l : list (A * B)) :
  map snd (filter (fun e => f (snd e)) l) = filter f (map snd l).
Proof.
  induction l as [|e l IH]; simpl; [reflexivity|].
  destruct (f (snd e)); simpl; rewrite IH; reflexivity.
Qed.

Lemma filter_above_seq (index n s : nat) :
  filter (fun k => (index <? k)%nat) (seq s n)
  = seq (Nat.max s (S index)) (s + n - Nat.max s (S index)).
Proof.
  revert s; induction n as [|n IH]; intros s; simpl.
  - replace (s + 0 - Nat.max s (S index))%nat with 0%nat by lia; reflexivity.
  - rewrite IH; destruct (Nat.ltb_spec index s).
    + replace (Nat.max s (S index)) with s by lia.
      replace (Nat.max (S s) (S index)) with (S s) by lia.
      replace (s + S n - s)%nat with (S (S s + n - S s)) by lia.
      reflexivity.
    + replace (Nat.max (S s) (S index)) with (Nat.max s (S index)) by lia.
      replace (S s + n)%nat with (s + S n)%nat by lia.
      reflexivity.
Qed.

Lemma map_snd_indexed {A : Type} (l : list A) :
  map snd (Constellation.indexed l) = seq 0 (List.length l).
Proof.
  unfold Constellation.indexed; generalize 0%nat.
  induction l as [|a l IH]; intros s; simpl; [reflexivity|].
  rewrite IH; reflexivity.
Qed.

Lemma in_indexed {A : Type} (l : list A) (a : A) (k : nat) :
  In (a, k) (Constellation.indexed l) <-> nth_error l k = Some a.
Proof.
  unfold Constellation.indexed.
  assert (H : forall s, In (a, k) (combine l (seq s (List.length l))) <->
                        (s <= k)%nat /\ nth_error l (k - s) = Some a).
  { induction l as [|b l IH]; intros s; simpl.
    - split; [contradiction|]. intros [_ H]; destruct (k - s)%nat; discriminate.
    - rewrite IH; split.
      + intros [H | [Hle Hn]].
        * injection H as -> ->; split; [lia|].
          replace (k - k)%nat with 0%nat by lia; reflexivity.
        * split; [lia|].
          replace (k - s)%nat with (S (k - S s)) by lia; exact Hn.
      + intros [Hle Hn].
        destruct (Nat.eq_dec s k) as [-> | Hne].
        * replace (k - k)%nat with 0%nat in Hn by lia.
          injection Hn as ->; left; reflexivity.
        * right; split; [lia|].
          replace (k - s)%nat with (S (k - S s)) in Hn by lia; exact Hn. }
  rewrite H, Nat.sub_0_r; split; [intros [_ Hn]; exact Hn | split; [lia | assumption]].
Qed.

Lemma filter_flat_map {A B : Type} (P : B -> bool) (g : A -> list B) (l : list A) :
  filter P (flat_map g l) = flat_map (fun a => filter P (g a)) l.
Proof.
  induction l as [|a l IH]; simpl; [reflexivity|].
  rewrite filter_app, IH; reflexivity.
Qed.

Lemma flat_map_pick {A B : Type} (G : A * nat -> list B) (index : nat)
    (l : list A) (s : nat) :
  flat_map (fun e => if (snd e =? index)%nat then G e else [])
    (combine l (seq s (List.length l)))
  = if (s <=? index)%nat
    then match nth_error l (index - s) with
         | Some a => G (a, index)
         | None => []
         end
    else [].
Proof.
  revert s; induction l as [|a l IH]; intros s.
  - simpl; destruct (s <=? index)%nat; [destruct (index - s)%nat|]; reflexivity.
  - cbn [List.length seq combine flat_map snd]; rewrite IH.
    destruct (Nat.leb_spec (S s) index), (Nat.leb_spec s index),
      (Nat.eqb_spec s index) as [Heq | Hne]; try lia.
    + replace (index - s)%nat with (S (index - S s)) by lia; reflexivity.
    + subst s; rewrite Nat.sub_diag; simpl; apply app_nil_r.
    + reflexivity.
Qed.

(** The candidates of a node before they are sorted and cut. *)
Lemma candidate_indices (distanceToSquared : Vec3 -> Vec3 -> R)
    (sitePoints : list Vec3) (index : nat) (from : Vec3) :
  map Constellation.pointIndex
    (map (fun e => Constellation.mkCandidate (fst e) (snd e)
                     (distanceToSquared from (fst e)))
       (filter (fun e => (index <? snd e)%nat) (Constellation.indexed sitePoints)))
  = seq (S index) (List.length sitePoints - S index).
Proof.
  rewrite map_map; simpl.
  rewrite (map_snd_filter (fun k => (index <? k)%nat)), map_snd_indexed.
  rewrite filter_above_seq; simpl.
  reflexivity.
Qed.

Section Candidates.

Import Constellation.

Variable distanceToSquared : Vec3 -> Vec3 -> R.
Variable sitePoints : list Vec3.
Variable index : nat.
Variable from : Vec3.

(** The candidates before the sort, after the sort, and the selection. *)
Let unsorted : list Candidate :=
  map (fun e => mkCandidate (fst e) (snd e) (distanceToSquared from (fst e)))
    (filter (fun e => (index <? snd e)%nat) (indexed sitePoints)).
Let sorted : list Candidate := Array_sort byDistance unsorted.

Lemma candidatesWith_firstn :
  candidatesWith distanceToSquared sitePoints index from = firstn 2 sorted.
Proof. reflexivity. Qed.

Lemma unsorted_in (c : Candidate) :
  In c unsorted ->
  nth_error sitePoints (pointIndex c) = Some (point c) /\
  distance c = distanceToSquared from (point c) /\
  (index < pointIndex c < List.length sitePoints)%nat.
Proof.
  unfold unsorted; intros H.
  apply in_map_iff in H as ([p k] & <- & H); simpl.
  apply filter_In in H as [H Hk]; simpl in Hk.
  apply in_indexed in H.
  apply Nat.ltb_lt in Hk.
  repeat split; try assumption.
  apply nth_error_Some; congruence.
Qed.

Lemma sorted_perm : Permutation sorted unsorted.
Proof. apply Array_sort_perm. Qed.

Lemma sorted_nearer : StronglySorted nearer sorted.
Proof.
  apply Array_sort_sorted, (StronglySorted_of_map pointIndex lt).
  unfold unsorted; rewrite (candidate_indices distanceToSquared sitePoints index from).
  apply StronglySorted_seq.
Qed.

Lemma sorted_indices :
  Permutation (map pointIndex sorted)
    (seq (S index) (List.length sitePoints - S index)).
Proof.
  rewrite <- (candidate_indices distanceToSquared sitePoints index from).
  apply Permutation_map, sorted_perm.
Qed.

Lemma candidatesWith_in (c : Candidate) :
  In c (candidatesWith distanceToSquared sitePoints index from) ->
  nth_error sitePoints (pointIndex c) = Some (point c) /\
  distance c = distanceToSquared from (point c) /\
  (index < pointIndex c < List.length sitePoints)%nat.
Proof.
  rewrite candidatesWith_firstn; intros H.
  apply unsorted_in, (Permutation_in _ sorted_perm).
  rewrite <- (firstn_skipn 2 sorted); apply in_or_app; left; exact H.
Qed.

Lemma candidatesWith_length :
  List.length (candidatesWith distanceToSquared sitePoints index from)
  = Nat.min 2 (List.length sitePoints - 1 - index).
Proof.
  rewrite candidatesWith_firstn, length_firstn.
  rewrite <- (length_map pointIndex sorted).
  rewrite (Permutation_length sorted_indices), length_seq.
  lia.
Qed.

Lemma candidatesWith_NoDup :
  NoDup (map pointIndex (candidatesWith distanceToSquared sitePoints index from)).
Proof.
  rewrite candidatesWith_firstn.
  assert (H : NoDup (map pointIndex sorted)).
  { apply (Permutation_NoDup (Permutation_sym sorted_indices)), seq_NoDup. }
  rewrite <- (firstn_skipn 2 sorted), map_app in H.
  apply NoDup_app_remove_r in H; exact H.
Qed.

Lemma candidatesWith_sorted :
  StronglySorted nearer (candidatesWith distanceToSquared sitePoints index from).
Proof.
  rewrite candidatesWith_firstn.
  apply StronglySorted_app_l with (l2 := skipn 2 sorted).
  rewrite firstn_skipn; apply sorted_nearer.
Qed.

(** A node of higher index that is not selected comes after every selected
    one in the order of selection. *)
Lemma candidatesWith_nearest (c : Candidate) (k : nat) :
  In c (candidatesWith distanceToSquared sitePoints index from) ->
  (index < k < List.length sitePoints)%nat ->
  ~ In k (map pointIndex (candidatesWith distanceToSquared sitePoints index from)) ->
  exists c', pointIndex c' = k /\
    nth_error sitePoints k = Some (point c') /\
    distance c' = distanceToSquared from (point c') /\
    nearer c c'.
Proof.
  rewrite candidatesWith_firstn; intros Hc Hk Hnot.
  assert (Hin : In k (map pointIndex sorted)).
  { apply (Permutation_in _ (Permutation_sym sorted_indices)), in_seq; lia. }
  apply in_map_iff in Hin as (c' & Hidx & Hc').
  exists c'.
  destruct (unsorted_in c' (Permutation_in _ sorted_perm Hc')) as (Hp & Hdist & _).
  rewrite Hidx in Hp.
  repeat split; try assumption.
  rewrite <- (firstn_skipn 2 sorted) in Hc'.
  apply in_app_or in Hc' as [Hc' | Hc'].
  - exfalso; apply Hnot; rewrite <- Hidx; apply in_map, Hc'.
  - apply (StronglySorted_app_cross nearer (firstn 2 sorted) (skipn 2 sorted));
      [rewrite firstn_skipn; apply sorted_nearer | exact Hc | exact Hc'].
Qed.

End Candidates.


Lemma candidates_length (sitePoints : list Vec3) (index : nat) (from : Vec3) :
  List.length (Constellation.candidates sitePoints index from)
  = Nat.min 2 (List.length sitePoints - 1 - index).
Proof. exact (candidatesWith_length Vector3.distanceToSquared sitePoints index from). Qed.

Lemma filter_source_map (index i : nat) (p : Vec3)
    (l : list Constellation.Candidate) :
  filter (fun e : nat * Vec3 * Constellation.Candidate => (fst (fst e) =? index)%nat)
    (map (fun c => (i, p, c)) l)
  = if (i =? index)%nat then map (fun c => (i, p, c)) l else [].
Proof.
  induction l as [|c l IH]; simpl; [destruct (i =? index)%nat; reflexivity|].
  rewrite IH; destruct (i =? index)%nat; reflexivity.
Qed.

(** The edges that leave the node [index] are the candidates of its
    iteration of the outer loop. *)
Lemma edgesWith_from (distanceToSquared : Vec3 -> Vec3 -> R)
    (sitePoints : list Vec3) (index : nat) :
  map (fun e => Constellation.pointIndex (snd e))
    (filter (fun e => (fst (fst e) =? index)%nat)
       (Constellation.edgesWith distanceToSquared sitePoints))
  = Constellation.targetsWith distanceToSquared sitePoints index.
Proof.
  unfold Constellation.edgesWith, Constellation.targetsWith.
  rewrite filter_flat_map.
  rewrite (flat_map_ext _
             (fun e => if (snd e =? index)%nat
                       then map (fun c => (snd e, fst e, c))
                              (Constellation.candidatesWith distanceToSquared
                                 sitePoints (snd e) (fst e))
                       else []))
    by (intros e; apply filter_source_map).
  unfold Constellation.indexed; rewrite flat_map_pick; simpl.
  rewrite Nat.sub_0_r.
  destruct (nth_error sitePoints index); [|reflexivity].
  rewrite map_map; reflexivity.
Qed.

Lemma edgesWith_in (distanceToSquared : Vec3 -> Vec3 -> R)
    (sitePoints : list Vec3) (i : nat) (p : Vec3) (c : Constellation.Candidate) :
  In (i, p, c) (Constellation.edgesWith distanceToSquared sitePoints) <->
  nth_error sitePoints i = Some p /\
  In c (Constellation.candidatesWith distanceToSquared sitePoints i p).
Proof.
  unfold Constellation.edgesWith; rewrite in_flat_map; split.
  - intros ([p' i'] & Hin & H); simpl in H.
    apply in_map_iff in H as (c' & Heq & H).
    injection Heq as -> -> ->.
    apply in_indexed in Hin; split; assumption.
  - intros [Hn Hc]; exists (p, i); split; [apply in_indexed, Hn|].
    simpl; apply in_map_iff; exists c; split; [reflexivity | exact Hc].
Qed.


(** The points pushed for one curve. *)
Lemma length_segments (sampledPoints : list Vec3) :
  List.length (Constellation.segments sampledPoints)
  = (2 * (List.length sampledPoints - 1))%nat.
Proof.
  induction sampledPoints as [|a [|b rest] IH]; try reflexivity.
  change (Constellation.segments (a :: b :: rest))
    with (a :: b :: Constellation.segments (b :: rest)).
  cbn [List.length] in *; lia.
Qed.

Lemma last_segments (a b d : Vec3) (rest : list Vec3) :
  last (Constellation.segments (a :: b :: rest)) d = last (b :: rest) d.
Proof.
  revert a b; induction rest as [|c rest IH]; intros a b; [reflexivity|].
  change (Constellation.segments (a :: b :: c :: rest))
    with (a :: b :: Constellation.segments (b :: c :: rest)).
  change (last (a :: b :: Constellation.segments (b :: c :: rest)) d)
    with (last (Constellation.segments (b :: c :: rest)) d).
  - rewrite IH; reflexivity.
Qed.

(** A sampled curve: 14 segments, 28 points, from the first end of the
    curve to the last, each segment starting where the one before it
    ends. *)
Lemma curve_drawn (c : Constellation.Curve) :
  let drawn := Constellation.segments (Constellation.getPoints c 14) in
  List.length drawn = 28%nat /\
  hd (Constellation.v0 c) drawn = Constellation.v0 c /\
  last drawn (Constellation.v0 c) = Constellation.v2 c /\
  (forall k, (k < 13)%nat ->
     nth (2 * k + 1) drawn (Constellation.v0 c)
     = nth (2 * k + 2) drawn (Constellation.v0 c)).
Proof.
  assert (H0 : Constellation.getPoint c (INR 0 / INR 14) = Constellation.v0 c).
  { replace (INR 0 / INR 14) with 0 by (simpl; lra).
    unfold Constellation.getPoint.
    destruct (Constellation.v0 c); apply vec3_eq; simpl; ring. }
  assert (H1 : Constellation.getPoint c (INR 14 / INR 14) = Constellation.v2 c).
  { replace (INR 14 / INR 14) with 1 by (simpl; field).
    unfold Constellation.getPoint.
    destruct (Constellation.v2 c); apply vec3_eq; simpl; ring. }
  cbv zeta; split; [|split; [|split]].
  - rewrite length_segments; unfold Constellation.getPoints.
    rewrite length_map, length_seq; reflexivity.
  - unfold Constellation.getPoints; cbn [seq map Constellation.segments hd].
    exact H0.
  - unfold Constellation.getPoints; cbn [seq map].
    rewrite last_segments; cbn [last]; exact H1.
  - intros k Hk; unfold Constellation.getPoints; cbn [seq map Constellation.segments].
    do 13 (destruct k as [|k]; [reflexivity|]); lia.
Qed.

Lemma length_flat_map_const {A B : Type} (f : A -> list B) (n : nat) (l : list A) :
  (forall a, List.length (f a) = n) ->
  List.length (flat_map f l) = (n * List.length l)%nat.
Proof.
  intros Hf; induction l as [|a l IH]; simpl; [lia|].
  rewrite length_app, Hf, IH; lia.
Qed.

(** With the exact squared distance and the exact normal the builder is
    the one defined first. *)
Lemma builder_exact (sitePoints : list Vec3) :
  Constellation.edgesWith Vector3.distanceToSquared sitePoints
  = Constellation.edges sitePoints /\
  Constellation.curveSegmentsWith Vector3.distanceToSquared
    Constellation.curveNormal sitePoints
  = Constellation.curveSegments sitePoints /\
  (forall index,
     Constellation.targetsWith Vector3.distanceToSquared sitePoints index
     = Constellation.targets sitePoints index) /\
  (forall m, Constellation.curveNormalWith Vector3.length Vector3.lengthSq m
             = Constellation.curveNormal m).
Proof. repeat split. Qed.

(** ** Distances in double arithmetic *)

(** [2^-30] and its square are doubles. *)
Lemma double_small : Double.round (/ 1073741824) = / 1073741824.
Proof.
  rewrite (round_near _ (-30) 4503599627370496 4835703278458516698824704);
    [lra | lia | reflexivity | rewrite Rabs_pos_eq by lra; lra | lra].
Qed.

Lemma double_small_squared :
  Double.round (/ 1073741824 * / 1073741824) = / 1152921504606846976.
Proof.
  rewrite (round_near _ (-60) 4503599627370496
             5192296858534827628530496329220096);
    [lra | lia | reflexivity | rewrite Rabs_pos_eq by lra; lra | lra].
Qed.

(** [1 + 2^-60] is not a double: the sum is rounded to 1. *)
Lemma double_absorbed : Double.round (1 + / 1152921504606846976) = 1.
Proof.
  rewrite (round_near _ 0 4503599627370496 4503599627370496);
    [lra | lia | reflexivity | rewrite Rabs_pos_eq by lra; lra | lra].
Qed.

Lemma double_distances :
  let from := mkVec3 0 0 0 in
  Double.distanceToSquared from (mkVec3 (-1) (- / 1073741824) 0) = 1 /\
  Double.distanceToSquared from (mkVec3 (-1) 0 0) = 1 /\
  Double.distanceToSquared from (mkVec3 0 (-1) 0) = 1.
Proof.
  unfold Double.distanceToSquared, Double.add, Double.sub, Double.mul; simpl.
  replace (0 - -1) with 1 by lra.
  replace (0 - - / 1073741824) with (/ 1073741824) by lra.
  replace (0 - 0) with 0 by lra.
  rewrite double_1, double_small, round_0.
  rewrite Rmult_1_r, Rmult_0_r, double_1, round_0, double_small_squared.
  rewrite double_absorbed.
  rewrite !Rplus_0_r, Rplus_0_l, !double_1.
  repeat split.
Qed.

(** C2 fails for the squared Euclidean distance itself: among the nodes
    [(0,0,0)], [(-1,-2^-30,0)], [(-1,0,0)], [(0,-1,0)] node 3 is nearer
    to node 0 than node 1 is, by [2^-60], but the squared distances the
    builder computes are all 1, so it joins node 0 to the nodes 1 and 2
    and not to node 3.  The two nodes of least squared distance are 2
    and 3. *)
Lemma constellation_near_tie_counterexample :
  let from := mkVec3 0 0 0 in
  let d := fun j => Vector3.distanceToSquared from (nth j nearTiePoints from) in
  Constellation.targetsWith Double.distanceToSquared nearTiePoints 0 = [1; 2]%nat /\
  d 3%nat < d 1%nat /\ d 2%nat < d 1%nat /\
  Constellation.targets nearTiePoints 0 = [2; 3]%nat.
Proof.
  intros from d.
  destruct double_distances as (H1 & H2 & H3).
  split; [|split; [|split]].
  - unfold Constellation.targetsWith, Constellation.candidatesWith, nearTiePoints,
      Constellation.indexed, Constellation.Array_sort, Constellation.byDistance.
    cbn [nth_error List.length seq combine filter snd fst Nat.ltb Nat.leb map
         fold_right].
    rewrite H1, H2, H3; simpl.
    repeat (unfold Rgtb, Rltb;
            match goal with
            | |- context [Rlt_dec ?a ?b] =>
                destruct (Rlt_dec a b); [try (exfalso; lra) | try (exfalso; lra)]
            end; simpl);
      reflexivity.
  - unfold d, Vector3.distanceToSquared, nearTiePoints, from; simpl; lra.
  - unfold d, Vector3.distanceToSquared, nearTiePoints, from; simpl; lra.
  - unfold Constellation.targets, Constellation.candidates, nearTiePoints,
      Constellation.indexed, Constellation.Array_sort, Constellation.byDistance,
      Vector3.distanceToSquared; simpl.
    repeat (unfold Rgtb, Rltb;
            match goal with
            | |- context [Rlt_dec ?a ?b] =>
                destruct (Rlt_dec a b); [try (exfalso; lra) | try (exfalso; lra)]
            end; simpl);
      reflexivity.
Qed.

(** C2 (as amended): for every function [distanceToSquared] that gives the
    squared distance the builder computes, the curves that leave node
    [index] go to exactly the two nodes of higher index that are nearest
    to it in this computed squared distance (to all of them when fewer
    than two exist), equal computed distances going to the lower index,
    nearest first; every edge joins a node to one of strictly higher
    index, so none joins a node to itself; and the points the builder
    emits are, edge after edge in this order, the 28 points of the 14
    segments of a curve that starts at the node and ends at its target.
    With the exact squared distance and the exact normal the builder is
    [Constellation.edges], [Constellation.targets] and
    [Constellation.curveSegments]. *)
Theorem constellation_two_nearest (distanceToSquared : Vec3 -> Vec3 -> R)
    (normalOf : Vec3 -> Vec3) (sitePoints : list Vec3) (index : nat)
    (from : Vec3) (Hfrom : nth_error sitePoints index = Some from) :
  let n := List.length sitePoints in
  let d := fun j => distanceToSquared from (nth j sitePoints from) in
  let closer := fun j k => d j < d k \/ (d j = d k /\ (j < k)%nat) in
  let js := Constellation.targetsWith distanceToSquared sitePoints index in
  let all := Constellation.edgesWith distanceToSquared sitePoints in
  let drawn := fun e : nat * Vec3 * Constellation.Candidate =>
    Constellation.segments
      (Constellation.getPoints
         (Constellation.curveToWith normalOf (snd (fst e)) (snd e)) 14) in
  map (fun e => Constellation.pointIndex (snd e))
    (filter (fun e => (fst (fst e) =? index)%nat) all)
  = js /\
  List.length js = Nat.min 2 (n - 1 - index) /\
  NoDup js /\
  (forall j, In j js -> (index < j < n)%nat) /\
  (forall j k, In j js -> (index < k < n)%nat -> ~ In k js -> closer j k) /\
  StronglySorted closer js /\
  (forall i p c, In (i, p, c) all ->
      (i < Constellation.pointIndex c < n)%nat /\
      i <> Constellation.pointIndex c /\
      nth_error sitePoints i = Some p /\
      nth_error sitePoints (Constellation.pointIndex c)
      = Some (Constellation.point c) /\
      In (Constellation.pointIndex c)
        (Constellation.targetsWith distanceToSquared sitePoints i)) /\
  Constellation.curveSegmentsWith distanceToSquared normalOf sitePoints
  = List.concat (map drawn all) /\
  List.length (Constellation.curveSegmentsWith distanceToSquared normalOf sitePoints)
  = (28 * List.length all)%nat /\
  (forall i p c, In (i, p, c) all ->
      List.length (drawn (i, p, c)) = 28%nat /\
      hd p (drawn (i, p, c)) = p /\
      last (drawn (i, p, c)) p = Constellation.point c /\
      (forall k, (k < 13)%nat ->
         nth (2 * k + 1) (drawn (i, p, c)) p = nth (2 * k + 2) (drawn (i, p, c)) p)) /\
  Constellation.edgesWith Vector3.distanceToSquared sitePoints
  = Constellation.edges sitePoints /\
  Constellation.targetsWith Vector3.distanceToSquared sitePoints index
  = Constellation.targets sitePoints index /\
  Constellation.curveSegmentsWith Vector3.distanceToSquared
    Constellation.curveNormal sitePoints
  = Constellation.curveSegments sitePoints.
Proof.
  intros n d closer js all drawn.
  assert (Hjs : js = map Constellation.pointIndex
                       (Constellation.candidatesWith distanceToSquared
                          sitePoints index from))
    by (unfold js, Constellation.targetsWith; rewrite Hfrom; reflexivity).
  assert (Hd : forall c,
             In c (Constellation.candidatesWith distanceToSquared
                     sitePoints index from) ->
             Constellation.distance c = d (Constellation.pointIndex c)).
  { intros c Hc.
    destruct (candidatesWith_in distanceToSquared sitePoints index from c Hc)
      as (Hp & -> & _).
    unfold d; rewrite (nth_error_nth _ _ _ Hp); reflexivity. }
  split; [apply edgesWith_from|].
  split; [rewrite Hjs, length_map; apply candidatesWith_length|].
  split; [rewrite Hjs; apply candidatesWith_NoDup|].
  split; [|split; [|split; [|split; [|split; [|split; [|split]]]]]].
  - intros j Hj; rewrite Hjs in Hj.
    apply in_map_iff in Hj as (c & <- & Hc).
    apply (candidatesWith_in distanceToSquared sitePoints index from c Hc).
  - intros j k Hj Hk Hnot; rewrite Hjs in Hj, Hnot.
    apply in_map_iff in Hj as (c & <- & Hc).
    destruct (candidatesWith_nearest distanceToSquared sitePoints index from
                c k Hc Hk Hnot)
      as (c' & <- & Hp & Hdist & Hnear).
    unfold closer; rewrite <- (Hd c Hc).
    replace (d (Constellation.pointIndex c')) with (Constellation.distance c')
      by (rewrite Hdist; unfold d; rewrite (nth_error_nth _ _ _ Hp); reflexivity).
    exact Hnear.
  - rewrite Hjs.
    apply StronglySorted_map_in with (R := Constellation.nearer);
      [|apply candidatesWith_sorted].
    intros a b Ha Hb Hnear; unfold closer.
    rewrite <- (Hd a Ha), <- (Hd b Hb); exact Hnear.
  - intros i p c Hin.
    apply edgesWith_in in Hin as [Hp Hc].
    destruct (candidatesWith_in distanceToSquared sitePoints i p c Hc)
      as (Hpc & _ & Hrange).
    repeat split; try assumption; try lia.
    unfold Constellation.targetsWith; rewrite Hp; apply in_map, Hc.
  - unfold Constellation.curveSegmentsWith; apply flat_map_concat_map.
  - unfold Constellation.curveSegmentsWith.
    apply length_flat_map_const; intros e.
    apply (curve_drawn (Constellation.curveToWith normalOf (snd (fst e)) (snd e))).
  - intros i p c _.
    apply (curve_drawn (Constellation.curveToWith normalOf p c)).
  - split; [reflexivity | split; reflexivity].
Qed.

Lemma constellation_two_nearest_witness :
  let distanceToSquared := Double.distanceToSquared in
  let normalOf := Constellation.curveNormalWith Double.length Double.lengthSq in
  let sitePoints := nearTiePoints in
  let index := 0%nat in
  let from := mkVec3 0 0 0 in
  let n := List.length sitePoints in
  let d := fun j => distanceToSquared from (nth j sitePoints from) in
  let closer := fun j k => d j < d k \/ (d j = d k /\ (j < k)%nat) in
  let js := Constellation.targetsWith distanceToSquared sitePoints index in
  let all := Constellation.edgesWith distanceToSquared sitePoints in
  let drawn := fun e : nat * Vec3 * Constellation.Candidate =>
    Constellation.segments
      (Constellation.getPoints
         (Constellation.curveToWith normalOf (snd (fst e)) (snd e)) 14) in
  map (fun e => Constellation.pointIndex (snd e))
    (filter (fun e => (fst (fst e) =? index)%nat) all)
  = js /\
  List.length js = Nat.min 2 (n - 1 - index) /\
  NoDup js /\
  (forall j, In j js -> (index < j < n)%nat) /\
  (forall j k, In j js -> (index < k < n)%nat -> ~ In k js -> closer j k) /\
  StronglySorted closer js /\
  (forall i p c, In (i, p, c) all ->
      (i < Constellation.pointIndex c < n)%nat /\
      i <> Constellation.pointIndex c /\
      nth_error sitePoints i = Some p /\
      nth_error sitePoints (Constellation.pointIndex c)
      = Some (Constellation.point c) /\
      In (Constellation.pointIndex c)
        (Constellation.targetsWith distanceToSquared sitePoints i)) /\
  Constellation.curveSegmentsWith distanceToSquared normalOf sitePoints
  = List.concat (map drawn all) /\
  List.length (Constellation.curveSegmentsWith distanceToSquared normalOf sitePoints)
  = (28 * List.length all)%nat /\
  (forall i p c, In (i, p, c) all ->
      List.length (drawn (i, p, c)) = 28%nat /\
      hd p (drawn (i, p, c)) = p /\
      last (drawn (i, p, c)) p = Constellation.point c /\
      (forall k, (k < 13)%nat ->
         nth (2 * k + 1) (drawn (i, p, c)) p = nth (2 * k + 2) (drawn (i, p, c)) p)) /\
  Constellation.edgesWith Vector3.distanceToSquared sitePoints
  = Constellation.edges sitePoints /\
  Constellation.targetsWith Vector3.distanceToSquared sitePoints index
  = Constellation.targets sitePoints index /\
  Constellation.curveSegmentsWith Vector3.distanceToSquared
    Constellation.curveNormal sitePoints
  = Constellation.curveSegments sitePoints.
Proof.
  apply (constellation_two_nearest Double.distanceToSquared
           (Constellation.curveNormalWith Double.length Double.lengthSq)
           nearTiePoints 0 (mkVec3 0 0 0)); reflexivity.
Defined.

(** Three nodes at squared distance 1 from node 0: the tie goes to the
    nodes 1 and 2, in this order; node 3 has only node 4 left and node 4
    none. *)
Example constellation_tie :
  Constellation.targets squarePoints 0 = [1; 2]%nat /\
  Constellation.targets squarePoints 1 = [3; 2]%nat /\
  Constellation.targets squarePoints 3 = [4]%nat /\
  Constellation.targets squarePoints 4 = [].
Proof.
  unfold Constellation.targets, Constellation.candidates, squarePoints,
    Constellation.indexed, Constellation.Array_sort, Constellation.byDistance,
    Vector3.distanceToSquared; simpl.
  repeat split;
    repeat (unfold Rgtb, Rltb;
            match goal with
            | |- context [Rlt_dec ?a ?b] =>
                destruct (Rlt_dec a b); [try (exfalso; lra) | try (exfalso; lra)]
            end; simpl);
    reflexivity.
Qed.

(** ** The scene *)

Section SceneFacts.

Import Scene.

Variable unproject : Vec3 -> Vec3 -> Vec3 -> Vec3.
Variable controlsUpdate : Vec3 * Vec3 -> Vec3 * Vec3.

Local Abbreviation step := (Scene.step unproject controlsUpdate).
Local Abbreviation run := (Scene.run unproject controlsUpdate).
Local Abbreviation animate := (Scene.animate controlsUpdate).
Local Abbreviation onPointerMove := (Scene.onPointerMove unproject).
Local Abbreviation tweenComplete := (Scene.tweenComplete controlsUpdate).
Local Abbreviation tweenUpdate := (Scene.tweenUpdate controlsUpdate).
Local Abbreviation updateControls := (Scene.updateControls controlsUpdate).

Lemma sameMesh_refl (m : option NodeMesh) : sameMesh m m = true.
Proof. destruct m; simpl; [apply Nat.eqb_refl | reflexivity]. Qed.

Lemma sameId_refl (i : option string) : sameId i i = true.
Proof. destruct i; simpl; [apply String.eqb_refl | reflexivity]. Qed.

(** *** The hover setter *)

(** The event of a hover transition to [nextHovered]. *)
Lemma setHovered_same (nextHovered : option NodeMesh) (s : Scene) :
  sameMesh (currentHovered s) nextHovered = true -> setHovered nextHovered s = s.
Proof. intros H; unfold setHovered; rewrite H; reflexivity. Qed.

Lemma setHovered_emitted (nextHovered : option NodeMesh) (s : Scene) :
  sameMesh (currentHovered s) nextHovered = false ->
  emitted (setHovered nextHovered s)
  = emitted s ++
    [onHoverChange
       match nextHovered with
       | Some m => mkHoverState (Some (userData_site m))
                     (fst (pointerClient s)) (snd (pointerClient s))
       | None => mkHoverState None 0 0
       end].
Proof.
  intros H; unfold setHovered; rewrite H.
  destruct nextHovered as [m|], (currentHovered s) as [m0|]; reflexivity.
Qed.

Lemma setHovered_currentHovered (nextHovered : option NodeMesh) (s : Scene) :
  sameMesh (currentHovered s) nextHovered = false ->
  currentHovered (setHovered nextHovered s) = nextHovered.
Proof.
  intros H; unfold setHovered; rewrite H.
  destruct nextHovered as [m|], (currentHovered s) as [m0|]; reflexivity.
Qed.

Lemma setHovered_cursor (nextHovered : option NodeMesh) (s : Scene) :
  sameMesh (currentHovered s) nextHovered = false ->
  cursor (setHovered nextHovered s)
  = match nextHovered with Some _ => CursorPointer | None => CursorDefault end.
Proof.
  intros H; unfold setHovered; rewrite H.
  destruct nextHovered as [m|], (currentHovered s) as [m0|]; reflexivity.
Qed.

Lemma setHovered_runtime (nextHovered : option NodeMesh) (s : Scene) :
  runtime (setHovered nextHovered s) = runtime s.
Proof.
  unfold setHovered; destruct (sameMesh _ _); [reflexivity|].
  destruct nextHovered as [m|], (currentHovered s) as [m0|]; reflexivity.
Qed.

Lemma setHovered_pointerClient (nextHovered : option NodeMesh) (s : Scene) :
  pointerClient (setHovered nextHovered s) = pointerClient s.
Proof.
  unfold setHovered; destruct (sameMesh _ _); [reflexivity|].
  destruct nextHovered as [m|], (currentHovered s) as [m0|]; reflexivity.
Qed.

Lemma onPointerMove_pointerClient (cx cy w h : R) (s : Scene) :
  pointerClient (onPointerMove cx cy w h s) = (cx, cy).
Proof.
  unfold Scene.onPointerMove; simpl.
  destruct (pointerDown s); simpl; destruct (currentHovered s); reflexivity.
Qed.


Lemma animate_hover (delta : R) (hit : option NodeMesh) (s : Scene) :
  let s' := animate delta hit s in
  let h := setHovered (frameTarget hit s) s in
  emitted s' = emitted h /\ currentHovered s' = currentHovered h /\
  cursor s' = cursor h /\ runtime s' = runtime s /\ pointerClient s' = pointerClient s.
Proof.
  unfold Scene.animate, Scene.updateControls, frameTarget; simpl.
  destruct (runtime s) as [rt|] eqn:Hrt; [destruct (focusLocked rt)|];
    unfold setHovered; simpl;
    destruct (currentHovered s) as [m0|]; simpl;
    try (destruct hit as [m|]; simpl; try destruct (ref m0 =? ref m)%nat);
    repeat split; try reflexivity; simpl; assumption.
Qed.

Lemma setHovered_calls (nextHovered : option NodeMesh) (s : Scene) :
  exists new,
    emitted (setHovered nextHovered s) = emitted s ++ new /\
    List.length new
    = (if sameMesh (currentHovered s)
            (currentHovered (setHovered nextHovered s)) then 0 else 1)%nat /\
    hoverChanges new = match new with [] => [] | _ => hoverChanges new end /\
    List.length (hoverChanges new) = List.length new.
Proof.
  destruct (sameMesh (currentHovered s) nextHovered) eqn:Hsame.
  - rewrite (setHovered_same _ _ Hsame), sameMesh_refl.
    exists []; rewrite app_nil_r; repeat split.
  - rewrite (setHovered_emitted _ _ Hsame), (setHovered_currentHovered _ _ Hsame), Hsame.
    eexists; repeat split.
Qed.

Lemma runFrames_calls (frames : list (R * option NodeMesh)) (s : Scene) :
  exists new,
    emitted (runFrames controlsUpdate frames s) = emitted s ++ new /\
    List.length new = hoverTransitions controlsUpdate frames s /\
    List.length (hoverChanges new) = List.length new.
Proof.
  revert s; induction frames as [|[delta hit] frames IH]; intros s.
  - exists []; simpl; rewrite app_nil_r; repeat split.
  - cbn [Scene.runFrames fold_left fst snd hoverTransitions].
    fold (runFrames controlsUpdate frames (animate delta hit s)).
    destruct (IH (animate delta hit s)) as (new' & He & Hl & Hh).
    destruct (animate_hover delta hit s) as (Hemit & Hcur & _).
    destruct (setHovered_calls (frameTarget hit s) s) as (new & He0 & Hl0 & _ & Hh0).
    exists (new ++ new').
    rewrite He, Hemit, He0, <- app_assoc.
    split; [reflexivity|].
    unfold hoverChanges in *.
    rewrite Hcur, flat_map_app, !length_app.
    split; lia.
Qed.

(** C10: calling [setHovered] with the mesh that is already hovered, or
    with [null] when nothing is hovered, leaves the whole scene as it is:
    no event, no tween, no cursor change.  Hence a frame whose hit is the
    hovered mesh emits nothing, and a run of frames emits one hover-changed
    event for each frame across which the hovered mesh changes, and no
    other. *)
Theorem setHovered_same_is_noop (s : Scene) (frames : list (R * option NodeMesh)) :
  setHovered (currentHovered s) s = s /\
  (forall next, sameMesh (currentHovered s) next = true ->
     setHovered next s = s) /\
  (forall delta hit,
     sameMesh (currentHovered s) (frameTarget hit s) = true ->
     emitted (animate delta hit s) = emitted s /\
     currentHovered (animate delta hit s) = currentHovered s /\
     cursor (animate delta hit s) = cursor s) /\
  (exists new,
     emitted (runFrames controlsUpdate frames s) = emitted s ++ new /\
     List.length new = hoverTransitions controlsUpdate frames s /\
     List.length (hoverChanges new) = List.length new /\
     (List.length new <= List.length frames)%nat).
Proof.
  split; [apply setHovered_same, sameMesh_refl|].
  split; [intros next; apply setHovered_same|].
  split.
  - intros delta hit Hsame.
    destruct (animate_hover delta hit s) as (-> & -> & -> & _).
    rewrite (setHovered_same _ _ Hsame); repeat split.
  - destruct (runFrames_calls frames s) as (new & He & Hl & Hh).
    exists new; repeat split; try assumption.
    rewrite Hl; clear.
    revert s; induction frames as [|[delta hit] frames IH]; intros s; simpl; [lia|].
    specialize (IH (animate delta hit s)).
    destruct (sameMesh _ _); lia.
Qed.

(** C5 (as amended): the event emitted on a hover transition to a node
    carries the site of that node and the last known pointer client
    coordinates, those of the latest pointer move; the event emitted when
    the hover clears carries [null] and the coordinates (0, 0).  The
    per-frame hit test emits this event, and [setHovered] leaves the new
    mesh hovered. *)
Theorem hover_event_payload (s : Scene) (nextHovered : option NodeMesh)
    (Hchange : sameMesh (currentHovered s) nextHovered = false) :
  let event :=
    onHoverChange
      match nextHovered with
      | Some m => mkHoverState (Some (userData_site m))
                    (fst (pointerClient s)) (snd (pointerClient s))
      | None => mkHoverState None 0 0
      end in
  emitted (setHovered nextHovered s) = emitted s ++ [event] /\
  currentHovered (setHovered nextHovered s) = nextHovered /\
  (forall delta hit, frameTarget hit s = nextHovered ->
     emitted (animate delta hit s) = emitted s ++ [event]) /\
  (forall cx cy w h, pointerClient (onPointerMove cx cy w h s) = (cx, cy)).
Proof.
  intros event.
  split; [apply setHovered_emitted, Hchange|].
  split; [apply setHovered_currentHovered, Hchange|].
  split; [|intros; apply onPointerMove_pointerClient].
  intros delta hit Hhit.
  destruct (animate_hover delta hit s) as (-> & _).
  rewrite Hhit; apply setHovered_emitted, Hchange.
Qed.

(** *** Clicks *)

Lemma onClick_dragged (s : Scene) :
  dragThreshold < dragDistance s ->
  onClick s = set_dragDistance 0 s.
Proof.
  intros H; unfold onClick, Rgtb; rewrite Rltb_lt by exact H; reflexivity.
Qed.

Lemma onClick_still (s : Scene) :
  dragDistance s <= dragThreshold ->
  onClick s
  = match runtime s with
    | None => s
    | Some rt =>
        if focusLocked rt then s
        else match currentHovered s with
             | None => s
             | Some m => emit (onNodeSelect (userData_site m)) (set_dragDistance 0 s)
             end
    end.
Proof.
  intros H; unfold onClick, Rgtb; rewrite Rltb_ge by exact H; reflexivity.
Qed.

Lemma app_one_neq_nil {A : Type} (l : list A) (a : A) : l <> l ++ [a].
Proof.
  intros H; apply (f_equal (@List.length A)) in H.
  rewrite length_app in H; simpl in H; lia.
Qed.

Lemma onPointerMove_dragDistance (cx cy w h : R) (s : Scene) :
  dragDistance (onPointerMove cx cy w h s)
  = if pointerDown s
    then Rmax (dragDistance s)
           (hypot (cx - fst (pointerDownAt s)) (cy - snd (pointerDownAt s)))
    else dragDistance s.
Proof.
  unfold Scene.onPointerMove; simpl.
  destruct (pointerDown s); simpl; destruct (currentHovered s); reflexivity.
Qed.

(** C4: in the mounted scene a click calls [onNodeSelect] with the site of
    the hovered node exactly when the drag distance accumulated since
    pointer-down is at most the threshold of 8 pixels, the camera is not
    focus-locked and a node is hovered, and then it resets the drag
    distance; a click makes no other call, and none at all when the drag
    distance exceeds the threshold, whatever is hovered.  The drag distance
    is 0 at pointer-down and afterwards the largest distance of a pointer
    move from the place of the pointer-down. *)
Theorem click_selects_hovered (s : Scene) (rt : SceneRuntime)
    (Hrt : runtime s = Some rt) :
  dragThreshold = 8 /\
  (forall st,
     emitted (onClick s) = emitted s ++ [onNodeSelect st] <->
     dragDistance s <= dragThreshold /\ focusLocked rt = false /\
     exists m, currentHovered s = Some m /\ userData_site m = st) /\
  (emitted (onClick s) = emitted s \/
   exists m, currentHovered s = Some m /\
     emitted (onClick s) = emitted s ++ [onNodeSelect (userData_site m)] /\
     dragDistance (onClick s) = 0) /\
  (dragThreshold < dragDistance s -> emitted (onClick s) = emitted s) /\
  (forall cx cy, dragDistance (onPointerDown cx cy s) = 0) /\
  (forall cx cy w h,
     dragDistance (onPointerMove cx cy w h s)
     = if pointerDown s
       then Rmax (dragDistance s)
              (hypot (cx - fst (pointerDownAt s)) (cy - snd (pointerDownAt s)))
       else dragDistance s).
Proof.
  split; [reflexivity|].
  split; [|split; [|split; [|split]]].
  - intros st; split.
    + intros He.
      destruct (Rlt_le_dec dragThreshold (dragDistance s)) as [Hd | Hd].
      * rewrite (onClick_dragged s Hd) in He; simpl in He.
        exfalso; exact (app_one_neq_nil _ _ He).
      * rewrite (onClick_still s Hd), Hrt in He.
        split; [exact Hd|].
        destruct (focusLocked rt);
          [exfalso; exact (app_one_neq_nil _ _ He)|].
        split; [reflexivity|].
        destruct (currentHovered s) as [m|];
          [|exfalso; exact (app_one_neq_nil _ _ He)].
        exists m; split; [reflexivity|].
        simpl in He; apply app_inv_head in He; congruence.
    + intros (Hd & Hf & m & Hm & <-).
      rewrite (onClick_still s Hd), Hrt, Hf, Hm; reflexivity.
  - destruct (Rlt_le_dec dragThreshold (dragDistance s)) as [Hd | Hd].
    + left; rewrite (onClick_dragged s Hd); reflexivity.
    + rewrite (onClick_still s Hd), Hrt.
      destruct (focusLocked rt); [left; reflexivity|].
      destruct (currentHovered s) as [m|]; [|left; reflexivity].
      right; exists m; repeat split.
  - intros Hd; rewrite (onClick_dragged s Hd); reflexivity.
  - reflexivity.
  - intros; apply onPointerMove_dragDistance.
Qed.

(** *** Tweens *)

Lemma nth_error_replaceAt {A : Type} (h k : nat) (f : A -> A) (l : list A) :
  nth_error (replaceAt h f l) k
  = if (k =? h)%nat then option_map f (nth_error l k) else nth_error l k.
Proof.
  revert h k; induction l as [|a l IH]; intros h k.
  - destruct (k =? h)%nat; destruct k; reflexivity.
  - destruct h, k; simpl; try reflexivity. apply IH.
Qed.

Lemma length_replaceAt {A : Type} (h : nat) (f : A -> A) (l : list A) :
  List.length (replaceAt h f l) = List.length l.
Proof.
  revert h; induction l as [|a l IH]; intros h; simpl; [reflexivity|].
  destruct h; simpl; [|rewrite IH]; reflexivity.
Qed.

Lemma killTween_running (tw : Tween) :
  status (killTween tw) = Running -> False.
Proof. unfold killTween; destruct (status tw) eqn:H; simpl; congruence. Qed.

Lemma killTween_not_running (tw : Tween) :
  status tw <> Running -> killTween tw = tw.
Proof. unfold killTween; destruct (status tw); congruence. Qed.

Section GsapTo.

Variables (tg : TweenTarget) (to : Vec3) (dur : R) (e : Ease)
  (overwrite upd : bool) (compl : option SiteNode) (s : Scene).

Let s' : Scene := fst (gsapTo tg to dur e overwrite upd compl s).

Lemma gsapTo_handle :
  snd (gsapTo tg to dur e overwrite upd compl s) = List.length (tweens s).
Proof. unfold gsapTo; simpl; destruct overwrite; [apply length_map | reflexivity]. Qed.

Lemma gsapTo_length : List.length (tweens s') = S (List.length (tweens s)).
Proof.
  unfold s', gsapTo; simpl; rewrite length_app; simpl.
  destruct overwrite; [rewrite length_map|]; lia.
Qed.

Lemma gsapTo_new :
  nth_error (tweens s') (List.length (tweens s))
  = Some (mkTween tg to dur e upd compl Running).
Proof.
  unfold s', gsapTo; simpl.
  rewrite nth_error_app2; destruct overwrite; rewrite ?length_map; try lia;
    rewrite Nat.sub_diag; reflexivity.
Qed.

Lemma gsapTo_backward (h : nat) (tw' : Tween) :
  nth_error (tweens s') h = Some tw' -> status tw' = Running ->
  nth_error (tweens s) h = Some tw' \/
  (h = List.length (tweens s) /\ tw' = mkTween tg to dur e upd compl Running).
Proof.
  intros Hn Hrun.
  destruct (Nat.lt_ge_cases h (List.length (tweens s))) as [Hlt | Hge].
  - left; unfold s', gsapTo in Hn; simpl in Hn.
    rewrite nth_error_app1 in Hn
      by (destruct overwrite; rewrite ?length_map; exact Hlt).
    destruct overwrite; [|exact Hn].
    rewrite nth_error_map in Hn.
    destruct (nth_error (tweens s) h) as [tw|]; [|discriminate].
    simpl in Hn; injection Hn as <-.
    destruct (sameTarget (target tw) tg); [|reflexivity].
    exfalso; exact (killTween_running _ Hrun).
  - right.
    assert (Hlen := gsapTo_length).
    assert (h < List.length (tweens s'))%nat
      by (apply nth_error_Some; congruence).
    assert (h = List.length (tweens s)) as -> by lia.
    rewrite gsapTo_new in Hn; injection Hn as <-; split; reflexivity.
Qed.

Lemma gsapTo_forward (h : nat) (tw : Tween) :
  nth_error (tweens s) h = Some tw ->
  overwrite = false \/ sameTarget (target tw) tg = false ->
  nth_error (tweens s') h = Some tw.
Proof.
  intros Hn Hkeep; unfold s', gsapTo; simpl.
  assert (Hlt : (h < List.length (tweens s))%nat)
    by (apply nth_error_Some; congruence).
  rewrite nth_error_app1 by (destruct overwrite; rewrite ?length_map; exact Hlt).
  destruct overwrite; [|exact Hn].
  rewrite nth_error_map, Hn; simpl.
  destruct Hkeep as [? | ->]; [discriminate | reflexivity].
Qed.

End GsapTo.

(** *** Quiet steps *)

Lemma quiet_refl (s : Scene) : quiet s s.
Proof.
  unfold quiet; repeat split; auto.
  exists []; rewrite app_nil_r; split; reflexivity.
Qed.

Lemma focusCompletes_app (l1 l2 : list Callback) :
  focusCompletes (l1 ++ l2) = focusCompletes l1 ++ focusCompletes l2.
Proof. apply flat_map_app. Qed.

Lemma quiet_trans (s1 s2 s3 : Scene) : quiet s1 s2 -> quiet s2 s3 -> quiet s1 s3.
Proof.
  intros (Hr & (n1 & He1 & Hf1) & Hl1 & Hb1 & Hw1)
         (Hr' & (n2 & He2 & Hf2) & Hl2 & Hb2 & Hw2).
  unfold quiet; repeat split.
  - congruence.
  - exists (n1 ++ n2); split.
    + rewrite He2, He1, app_assoc; reflexivity.
    + rewrite focusCompletes_app, Hf1, Hf2; reflexivity.
  - lia.
  - intros h tw' Hn Hrun.
    destruct (Hb2 h tw' Hn Hrun) as [H2 | (Hlen & Hm & Hc)].
    + apply Hb1; assumption.
    + right; repeat split; try assumption; lia.
  - intros h tw Hn Ht; apply Hw2; [apply Hw1|]; assumption.
Qed.

Lemma quiet_fields (s x y : Scene) :
  runtime y = runtime x -> tweens y = tweens x -> emitted y = emitted x ->
  quiet s x -> quiet s y.
Proof.
  intros Hr Ht He Hq; apply quiet_trans with (1 := Hq).
  unfold quiet; rewrite Hr, Ht, He; apply quiet_refl.
Qed.

Lemma quiet_set_cameraPosition v (s x : Scene) : quiet s x -> quiet s (set_cameraPosition v x).
Proof. apply quiet_fields; reflexivity. Qed.

Lemma quiet_set_controlsTarget v (s x : Scene) : quiet s x -> quiet s (set_controlsTarget v x).
Proof. apply quiet_fields; reflexivity. Qed.

Lemma quiet_set_controlsEnabled v (s x : Scene) : quiet s x -> quiet s (set_controlsEnabled v x).
Proof. apply quiet_fields; reflexivity. Qed.

Lemma quiet_set_cursor v (s x : Scene) : quiet s x -> quiet s (set_cursor v x).
Proof. apply quiet_fields; reflexivity. Qed.

Lemma quiet_set_elapsedTime v (s x : Scene) : quiet s x -> quiet s (set_elapsedTime v x).
Proof. apply quiet_fields; reflexivity. Qed.

Lemma quiet_set_nodesRotationY v (s x : Scene) : quiet s x -> quiet s (set_nodesRotationY v x).
Proof. apply quiet_fields; reflexivity. Qed.

Lemma quiet_set_children v (s x : Scene) : quiet s x -> quiet s (set_children v x).
Proof. apply quiet_fields; reflexivity. Qed.

Lemma quiet_set_pointerNdc v (s x : Scene) : quiet s x -> quiet s (set_pointerNdc v x).
Proof. apply quiet_fields; reflexivity. Qed.

Lemma quiet_set_pointerClient v (s x : Scene) : quiet s x -> quiet s (set_pointerClient v x).
Proof. apply quiet_fields; reflexivity. Qed.

Lemma quiet_set_currentHovered v (s x : Scene) : quiet s x -> quiet s (set_currentHovered v x).
Proof. apply quiet_fields; reflexivity. Qed.

Lemma quiet_set_pointerDown v (s x : Scene) : quiet s x -> quiet s (set_pointerDown v x).
Proof. apply quiet_fields; reflexivity. Qed.

Lemma quiet_set_dragDistance v (s x : Scene) : quiet s x -> quiet s (set_dragDistance v x).
Proof. apply quiet_fields; reflexivity. Qed.

Lemma quiet_set_pointerDownAt v (s x : Scene) : quiet s x -> quiet s (set_pointerDownAt v x).
Proof. apply quiet_fields; reflexivity. Qed.

Lemma quiet_set_disturbWeightTarget v (s x : Scene) : quiet s x -> quiet s (set_disturbWeightTarget v x).
Proof. apply quiet_fields; reflexivity. Qed.

Lemma quiet_set_disturbWeight v (s x : Scene) : quiet s x -> quiet s (set_disturbWeight v x).
Proof. apply quiet_fields; reflexivity. Qed.

Lemma quiet_set_disturbTarget v (s x : Scene) : quiet s x -> quiet s (set_disturbTarget v x).
Proof. apply quiet_fields; reflexivity. Qed.

Lemma quiet_set_disturbCurrent v (s x : Scene) : quiet s x -> quiet s (set_disturbCurrent v x).
Proof. apply quiet_fields; reflexivity. Qed.

Lemma quiet_emit (c : Callback) (s x : Scene) :
  focusCompletes [c] = [] -> quiet s x -> quiet s (emit c x).
Proof.
  intros Hc Hq; apply quiet_trans with (1 := Hq).
  unfold quiet, emit; simpl; repeat split; auto.
  exists [c]; split; [reflexivity | exact Hc].
Qed.

Lemma quiet_gsapTo_scale (m : nat) (to : Vec3) (dur : R) (e : Ease)
    (overwrite upd : bool) (s x : Scene) :
  quiet s x ->
  quiet s (fst (gsapTo (MeshScale m) to dur e overwrite upd None x)).
Proof.
  intros Hq; apply quiet_trans with (1 := Hq).
  unfold quiet; repeat split.
  - exists []; rewrite app_nil_r; split; reflexivity.
  - rewrite gsapTo_length; lia.
  - intros h tw' Hn Hrun.
    destruct (gsapTo_backward _ _ _ _ _ _ _ _ h tw' Hn Hrun) as [H | [-> ->]];
      [left; exact H | right].
    repeat split; [lia | exists m; reflexivity].
  - intros h tw Hn Ht; apply gsapTo_forward; [exact Hn|].
    right; destruct Ht as [-> | ->]; reflexivity.
Qed.

Create HintDb scene.

#[local] Hint Resolve quiet_refl quiet_emit quiet_gsapTo_scale
  quiet_set_cameraPosition
  quiet_set_controlsTarget
  quiet_set_controlsEnabled
  quiet_set_cursor
  quiet_set_elapsedTime
  quiet_set_nodesRotationY
  quiet_set_children
  quiet_set_pointerNdc
  quiet_set_pointerClient
  quiet_set_currentHovered
  quiet_set_pointerDown
  quiet_set_dragDistance
  quiet_set_pointerDownAt
  quiet_set_disturbWeightTarget
  quiet_set_disturbWeight
  quiet_set_disturbTarget
  quiet_set_disturbCurrent : scene.


Lemma quiet_setHovered (nextHovered : option NodeMesh) (s x : Scene) :
  quiet s x -> quiet s (setHovered nextHovered x).
Proof.
  intros Hq; unfold setHovered.
  destruct (sameMesh _ _); [exact Hq|].
  destruct nextHovered as [m|], (currentHovered x) as [m0|];
    auto 10 with scene.
Qed.

Lemma quiet_updateControls (s x : Scene) :
  quiet s x -> quiet s (updateControls x).
Proof. intros Hq; unfold Scene.updateControls; auto with scene. Qed.

#[local] Hint Resolve quiet_setHovered quiet_updateControls : scene.

Lemma quiet_writeTarget (tg : TweenTarget) (v : Vec3) (s x : Scene) :
  quiet s x -> quiet s (writeTarget tg v x).
Proof. intros Hq; destruct tg; simpl; auto with scene. Qed.

#[local] Hint Resolve quiet_writeTarget : scene.

Lemma quiet_step (s : Scene) (a : Action) : quietAction a -> quiet s (step s a).
Proof.
  destruct a; simpl; intros Ha; try contradiction.
  - unfold Scene.onPointerMove.
    match goal with |- context [if ?b then _ else _] => destruct b end;
      match goal with |- context [match ?b with Some _ => _ | None => _ end] =>
        destruct b end; auto 12 with scene.
  - unfold onPointerDown; auto with scene.
  - unfold onPointerUp; auto with scene.
  - unfold onPointerLeave; auto with scene.
  - unfold onClick.
    destruct (Rgtb _ _); [auto with scene|].
    destruct (runtime s) as [rt|]; [|auto with scene].
    destruct (focusLocked rt); [auto with scene|].
    destruct (currentHovered s); auto with scene.
  - unfold onControlStart; auto with scene.
  - unfold Scene.animate.
    match goal with |- context [if ?b then _ else _] => destruct b end;
      [match goal with |- context [match ?b with Some _ => _ | None => _ end] =>
         destruct b end|]; auto 12 with scene.
  - unfold Scene.tweenUpdate.
    destruct (nth_error (tweens s) h) as [tw|]; [|auto with scene].
    destruct (status tw); auto with scene.
    unfold Scene.runOnUpdate; destruct (onUpdate tw); auto with scene.
Qed.

Lemma tracked_quiet (s s' : Scene) : tweensTracked s -> quiet s s' -> tweensTracked s'.
Proof.
  intros (rt & Hrt & Hinv) (Hr & _ & _ & Hb & _).
  exists rt; split; [congruence|].
  intros h tw' Hn Hrun.
  destruct (Hb h tw' Hn Hrun) as [Hold | (_ & (m & Hm) & Hc)].
  - apply Hinv; assumption.
  - rewrite Hm; repeat split; try discriminate. intros; exact Hc.
Qed.

Lemma quiet_not_running (s s' : Scene) (h : nat) (tw : Tween) :
  quiet s s' -> nth_error (tweens s) h = Some tw -> status tw <> Running ->
  exists tw', nth_error (tweens s') h = Some tw' /\ status tw' <> Running.
Proof.
  intros (_ & _ & Hl & Hb & _) Hn Hs.
  assert (Hlt : (h < List.length (tweens s))%nat)
    by (apply nth_error_Some; congruence).
  destruct (nth_error (tweens s') h) as [tw'|] eqn:Hn';
    [|apply nth_error_None in Hn'; lia].
  exists tw'; split; [reflexivity|].
  intros Hrun; destruct (Hb h tw' Hn' Hrun) as [Hold | (Hge & _)]; [|lia].
  congruence.
Qed.

Lemma kill_backward (ho : option nat) (x : Scene) (h : nat) (tw : Tween) :
  nth_error (tweens (kill ho x)) h = Some tw -> status tw = Running ->
  nth_error (tweens x) h = Some tw /\ ho <> Some h.
Proof.
  destruct ho as [k|]; simpl; [|split; [assumption | discriminate]].
  rewrite nth_error_replaceAt.
  destruct (Nat.eqb_spec h k) as [-> | Hne]; intros Hn Hrun.
  - destruct (nth_error (tweens x) k) as [tw0|]; [|discriminate].
    simpl in Hn; injection Hn as <-.
    exfalso; exact (killTween_running _ Hrun).
  - split; [exact Hn | congruence].
Qed.

Lemma kill_killed (ho : option nat) (x : Scene) (h : nat) (tw : Tween) :
  nth_error (tweens x) h = Some tw -> ho = Some h \/ status tw <> Running ->
  exists tw', nth_error (tweens (kill ho x)) h = Some tw' /\ status tw' <> Running.
Proof.
  intros Hn Hor.
  destruct ho as [k|]; simpl.
  - rewrite nth_error_replaceAt, Hn; simpl.
    destruct (Nat.eqb_spec h k) as [-> | Hne].
    + eexists; split; [reflexivity|]. intros H; exact (killTween_running _ H).
    + exists tw; split; [reflexivity|].
      destruct Hor as [H | H]; [congruence | exact H].
  - exists tw; split; [exact Hn|].
    destruct Hor as [H | H]; [discriminate | exact H].
Qed.

Lemma kill_fields (ho : option nat) (x : Scene) :
  runtime (kill ho x) = runtime x /\ emitted (kill ho x) = emitted x /\
  currentHovered (kill ho x) = currentHovered x /\
  List.length (tweens (kill ho x)) = List.length (tweens x).
Proof. destruct ho; simpl; repeat split; apply length_replaceAt. Qed.

Lemma setRuntime_fields (f : SceneRuntime -> SceneRuntime) (x : Scene) (rt : SceneRuntime) :
  runtime x = Some rt ->
  runtime (setRuntime f x) = Some (f rt) /\ tweens (setRuntime f x) = tweens x /\
  emitted (setRuntime f x) = emitted x /\
  currentHovered (setRuntime f x) = currentHovered x /\
  controlsEnabled (setRuntime f x) = controlsEnabled x.
Proof. intros H; unfold setRuntime; rewrite H; repeat split. Qed.

(** *** Completion of a tween *)

Lemma tweenComplete_idle (k : nat) (s : Scene) :
  (forall tw, nth_error (tweens s) k = Some tw -> status tw <> Running) ->
  tweenComplete k s = s.
Proof.
  intros H; unfold Scene.tweenComplete.
  destruct (nth_error (tweens s) k) as [tw|]; [|reflexivity].
  specialize (H tw eq_refl); destruct (status tw); congruence.
Qed.

(** The calls made by the completion callback of [tw]. *)
Lemma tweenComplete_running (k : nat) (s : Scene) (tw : Tween) :
  nth_error (tweens s) k = Some tw -> status tw = Running ->
  runtime (tweenComplete k s) = runtime s /\
  tweens (tweenComplete k s) = replaceAt k (set_status Completed) (tweens s) /\
  emitted (tweenComplete k s)
  = emitted s ++
    match onComplete tw, runtime s with
    | Some fs, Some rt =>
        if sameId (pendingFocusId rt) (Some (id fs)) then [onFocusComplete fs] else []
    | _, _ => []
    end /\
  (cameraPosition (tweenComplete k s), controlsTarget (tweenComplete k s))
  = let w := writeTarget (target tw) (toValue tw) s in
    if onUpdate tw then controlsUpdate (cameraPosition w, controlsTarget w)
    else (cameraPosition w, controlsTarget w).
Proof.
  intros Hn Hrun; unfold Scene.tweenComplete; rewrite Hn, Hrun.
  unfold Scene.runOnComplete, Scene.runOnUpdate, Scene.updateControls.
  destruct (onUpdate tw), (onComplete tw) as [fs|], (target tw); simpl;
    destruct (runtime s) as [rt|] eqn:Hrt; simpl; rewrite ?Hrt;
    try destruct (sameId _ _); simpl; rewrite ?app_nil_r;
    repeat split; try (symmetry; apply surjective_pairing); assumption.
Qed.

Ltac not_running Hk :=
  let H := fresh in
  intros ? H; rewrite Hk in H; try discriminate; injection H as <-; congruence.

Lemma tweenComplete_backward (k : nat) (s : Scene) (h : nat) (tw' : Tween) :
  nth_error (tweens (tweenComplete k s)) h = Some tw' -> status tw' = Running ->
  nth_error (tweens s) h = Some tw' /\ h <> k.
Proof.
  intros Hn Hrun.
  destruct (nth_error (tweens s) k) as [tw|] eqn:Hk.
  - destruct (status tw) eqn:Hst.
    + destruct (tweenComplete_running k s tw Hk Hst) as (_ & Ht & _).
      rewrite Ht, nth_error_replaceAt in Hn.
      destruct (Nat.eqb_spec h k) as [-> | Hne].
      * rewrite Hk in Hn; simpl in Hn; injection Hn as <-; discriminate.
      * split; assumption.
    + rewrite tweenComplete_idle in Hn by (not_running Hk).
      split; [exact Hn | intros ->; congruence].
    + rewrite tweenComplete_idle in Hn by (not_running Hk).
      split; [exact Hn | intros ->; congruence].
  - rewrite tweenComplete_idle in Hn by (not_running Hk).
    split; [exact Hn | intros ->; congruence].
Qed.

Lemma tweenComplete_forward (k : nat) (s : Scene) (h : nat) (tw : Tween) :
  nth_error (tweens s) h = Some tw -> h <> k ->
  nth_error (tweens (tweenComplete k s)) h = Some tw.
Proof.
  intros Hn Hne.
  destruct (nth_error (tweens s) k) as [twk|] eqn:Hk.
  - destruct (status twk) eqn:Hst.
    + destruct (tweenComplete_running k s twk Hk Hst) as (_ & Ht & _).
      rewrite Ht, nth_error_replaceAt.
      destruct (Nat.eqb_spec h k); [contradiction | exact Hn].
    + rewrite tweenComplete_idle by (not_running Hk); exact Hn.
    + rewrite tweenComplete_idle by (not_running Hk); exact Hn.
  - rewrite tweenComplete_idle by (not_running Hk); exact Hn.
Qed.

Lemma tweenComplete_runtime (k : nat) (s : Scene) :
  runtime (tweenComplete k s) = runtime s.
Proof.
  destruct (nth_error (tweens s) k) as [tw|] eqn:Hk.
  - destruct (status tw) eqn:Hst.
    + apply (tweenComplete_running k s tw Hk Hst).
    + rewrite tweenComplete_idle by (not_running Hk); reflexivity.
    + rewrite tweenComplete_idle by (not_running Hk); reflexivity.
  - rewrite tweenComplete_idle by (not_running Hk); reflexivity.
Qed.

Lemma tracked_tweenComplete (k : nat) (s : Scene) :
  tweensTracked s -> tweensTracked (tweenComplete k s).
Proof.
  intros (rt & Hrt & Hinv).
  exists rt; split; [rewrite tweenComplete_runtime; exact Hrt|].
  intros h tw' Hn Hrun.
  destruct (tweenComplete_backward k s h tw' Hn Hrun) as [Hold _].
  apply Hinv; assumption.
Qed.

(** *** The focus effect *)

Lemma setHovered_null (x : Scene) : currentHovered (setHovered None x) = None.
Proof.
  destruct (sameMesh (currentHovered x) None) eqn:H.
  - rewrite (setHovered_same _ _ H).
    destruct (currentHovered x); [discriminate | reflexivity].
  - apply setHovered_currentHovered, H.
Qed.

Lemma setHovered_controlsEnabled (n : option NodeMesh) (x : Scene) :
  controlsEnabled (setHovered n x) = controlsEnabled x.
Proof.
  unfold setHovered; destruct (sameMesh _ _); [reflexivity|].
  destruct n as [m|], (currentHovered x) as [m0|]; reflexivity.
Qed.

(** The two tweens the effect starts, from a state [x] without running
    tweens of the camera position or of the orbit target. *)
Lemma focus_tweens_started (x : Scene) (rtx : SceneRuntime)
    (to1 to2 : Vec3) (dur : R) (e : Ease) (compl : option SiteNode) :
  runtime x = Some rtx ->
  let g1 := gsapTo CameraPosition to1 dur e false false None x in
  let s6 := setRuntime (set_cameraTween (Some (snd g1))) (fst g1) in
  let g2 := gsapTo ControlsTarget to2 dur e false true compl s6 in
  let s' := setRuntime (set_targetTween (Some (snd g2))) (fst g2) in
  let hc := List.length (tweens x) in
  let ht := S hc in
  runtime s'
  = Some (mkSceneRuntime (nodeMeshById rtx) (focusLocked rtx) (pendingFocusId rtx)
            (Some hc) (Some ht)) /\
  nth_error (tweens s') hc = Some (mkTween CameraPosition to1 dur e false None Running) /\
  nth_error (tweens s') ht = Some (mkTween ControlsTarget to2 dur e true compl Running) /\
  (forall h tw, nth_error (tweens s') h = Some tw -> status tw = Running ->
     nth_error (tweens x) h = Some tw \/ h = hc \/ h = ht) /\
  (forall h tw, nth_error (tweens x) h = Some tw -> nth_error (tweens s') h = Some tw) /\
  emitted s' = emitted x /\ currentHovered s' = currentHovered x /\
  controlsEnabled s' = controlsEnabled x.
Proof.
  intros Hrt g1 s6 g2 s' hc ht.
  assert (H1 : runtime (fst g1) = Some rtx) by exact Hrt.
  destruct (setRuntime_fields (set_cameraTween (Some (snd g1))) (fst g1) rtx H1)
    as (Hr6 & Ht6 & He6 & Hh6 & Hc6).
  fold s6 in Hr6, Ht6, He6, Hh6, Hc6.
  assert (H2 : runtime (fst g2) = Some (set_cameraTween (Some (snd g1)) rtx))
    by exact Hr6.
  destruct (setRuntime_fields (set_targetTween (Some (snd g2))) (fst g2) _ H2)
    as (Hr8 & Ht8 & He8 & Hh8 & Hc8).
  fold s' in Hr8, Ht8, He8, Hh8, Hc8.
  assert (Hg1 : snd g1 = hc) by (unfold g1; apply gsapTo_handle).
  assert (Hl6 : List.length (tweens s6) = ht)
    by (rewrite Ht6; apply gsapTo_length).
  assert (Hg2 : snd g2 = ht) by (unfold g2; rewrite gsapTo_handle; exact Hl6).
  split; [rewrite Hr8, Hg1, Hg2; reflexivity|].
  split.
  { rewrite Ht8; unfold g2; apply gsapTo_forward; [|left; reflexivity].
    rewrite Ht6; apply gsapTo_new. }
  split; [rewrite Ht8, <- Hl6; apply gsapTo_new|].
  split.
  { intros h tw Hn Hrun; rewrite Ht8 in Hn.
    destruct (gsapTo_backward ControlsTarget to2 dur e false true compl s6
                h tw Hn Hrun) as [Hold | [-> _]];
      [|right; right; exact Hl6].
    rewrite Ht6 in Hold.
    destruct (gsapTo_backward CameraPosition to1 dur e false false None x
                h tw Hold Hrun) as [Hold' | [-> _]];
      [left; exact Hold' | right; left; reflexivity]. }
  split.
  { intros h tw Hn; rewrite Ht8.
    apply gsapTo_forward; [|left; reflexivity].
    rewrite Ht6; apply gsapTo_forward; [exact Hn | left; reflexivity]. }
  rewrite He8, Hh8, Hc8; repeat split; assumption.
Qed.

Lemma focusEffect_eq (focusSite : option SiteNode) (s : Scene) (rt : SceneRuntime) :
  runtime s = Some rt ->
  focusEffect focusSite s
  = let x := focusPrelude focusSite rt s in
    let to2 :=
      match focusSite with
      | Some fs => focusTargetOf fs rt x
      | None => mkVec3 0 0 0
      end in
    let to1 :=
      match focusSite with
      | Some fs =>
          Vector3.addScaledVector to2 (approachDirection (cameraPosition x) to2)
            FOCUS_DISTANCE
      | None => BASE_CAMERA_POSITION
      end in
    let dur := match focusSite with Some _ => FOCUS_DURATION | None => 2.1 end in
    let e := match focusSite with Some _ => ExpoInOut | None => ExpoOut end in
    let g1 := gsapTo CameraPosition to1 dur e false false None x in
    let s6 := setRuntime (set_cameraTween (Some (snd g1))) (fst g1) in
    let g2 := gsapTo ControlsTarget to2 dur e false true focusSite s6 in
    setRuntime (set_targetTween (Some (snd g2))) (fst g2).
Proof.
  intros Hrt; unfold focusEffect; rewrite Hrt.
  destruct focusSite; reflexivity.
Qed.

Lemma focusPrelude_spec (focusSite : option SiteNode) (s : Scene) (rt : SceneRuntime) :
  runtime s = Some rt -> tweensTracked s ->
  let x := focusPrelude focusSite rt s in
  runtime x
  = Some (set_focus (match focusSite with Some _ => true | None => false end)
            (option_map id focusSite) rt) /\
  (forall h tw, nth_error (tweens x) h = Some tw -> status tw = Running ->
     (exists m, target tw = MeshScale m) /\ onComplete tw = None) /\
  (forall h tw0, nth_error (tweens s) h = Some tw0 ->
     cameraTween rt = Some h \/ targetTween rt = Some h ->
     exists tw, nth_error (tweens x) h = Some tw /\ status tw <> Running) /\
  (exists new, emitted x = emitted s ++ new /\ focusCompletes new = []) /\
  currentHovered x = None /\
  controlsEnabled x = match focusSite with Some _ => false | None => true end.
Proof.
  intros Hrt (rt0 & Hrt0 & Hinv) x.
  assert (rt0 = rt) as -> by congruence.
  set (s1 := kill (targetTween rt) (kill (cameraTween rt) s)).
  assert (Hr1 : runtime s1 = Some rt).
  { unfold s1; rewrite (proj1 (kill_fields _ _)), (proj1 (kill_fields _ _)); exact Hrt. }
  assert (He1 : emitted s1 = emitted s).
  { unfold s1.
    rewrite (proj1 (proj2 (kill_fields _ _))), (proj1 (proj2 (kill_fields _ _))).
    reflexivity. }
  assert (Hno1 : forall h tw, nth_error (tweens s1) h = Some tw -> status tw = Running ->
             (exists m, target tw = MeshScale m) /\ onComplete tw = None).
  { intros h tw Hn Hrun.
    destruct (kill_backward _ _ _ _ Hn Hrun) as [Hn' Ht].
    destruct (kill_backward _ _ _ _ Hn' Hrun) as [Hn'' Hc].
    destruct (Hinv h tw Hn'' Hrun) as (Hcam & Htg & Hsc).
    destruct (target tw) as [| |m] eqn:Htarget.
    - exfalso; apply Hc, Hcam; reflexivity.
    - exfalso; apply Ht, Htg; reflexivity.
    - split; [exists m; reflexivity | apply Hsc; discriminate]. }
  assert (Hk1 : forall h tw0, nth_error (tweens s) h = Some tw0 ->
             cameraTween rt = Some h \/ targetTween rt = Some h ->
             exists tw, nth_error (tweens s1) h = Some tw /\ status tw <> Running).
  { intros h tw0 Hn Hor; unfold s1.
    destruct Hor as [Hc | Ht].
    - destruct (kill_killed (cameraTween rt) s h tw0 Hn (or_introl Hc))
        as (tw1 & Hn1 & Hs1).
      apply (kill_killed _ _ h tw1 Hn1); right; exact Hs1.
    - destruct (nth_error (tweens (kill (cameraTween rt) s)) h) as [tw1|] eqn:Hn1.
      + apply (kill_killed _ _ h tw1 Hn1); left; exact Ht.
      + apply nth_error_None in Hn1.
        rewrite (proj2 (proj2 (proj2 (kill_fields _ _)))) in Hn1.
        assert (h < List.length (tweens s))%nat
          by (apply nth_error_Some; congruence).
        lia. }
  set (f := set_focus (match focusSite with Some _ => true | None => false end)
              (option_map id focusSite)).
  set (s2 := setRuntime f s1).
  destruct (setRuntime_fields f s1 rt Hr1) as (Hr2 & Ht2 & He2 & _).
  fold s2 in Hr2, Ht2, He2.
  assert (Hq : quiet s2 x).
  { unfold x, focusPrelude; fold s1.
    destruct focusSite; unfold clearHover; fold s2; auto 8 with scene. }
  destruct Hq as (Hqr & (new & Hqe & Hqf) & Hql & Hqb & Hqw).
  split; [rewrite Hqr; exact Hr2|].
  split.
  { intros h tw Hn Hrun.
    destruct (Hqb h tw Hn Hrun) as [Hold | (_ & Hm & Hc)];
      [|split; assumption].
    rewrite Ht2 in Hold; apply (Hno1 h tw Hold Hrun). }
  split.
  { intros h tw0 Hn Hor.
    destruct (Hk1 h tw0 Hn Hor) as (tw1 & Hn1 & Hs1).
    rewrite <- Ht2 in Hn1.
    apply (quiet_not_running s2 x h tw1); [|assumption|assumption].
    unfold quiet; repeat split; try assumption. exists new; split; assumption. }
  split; [exists new; rewrite Hqe, He2, He1; split; [reflexivity | exact Hqf]|].
  unfold x, focusPrelude; destruct focusSite; simpl; unfold clearHover.
  - split; [apply setHovered_null | reflexivity].
  - split; [apply setHovered_null|].
    rewrite setHovered_controlsEnabled; reflexivity.
Qed.

Lemma focusEffect_spec (focusSite : option SiteNode) (s : Scene) (rt : SceneRuntime) :
  runtime s = Some rt -> tweensTracked s ->
  let locked := match focusSite with Some _ => true | None => false end in
  let x := focusPrelude focusSite rt s in
  let to2 :=
    match focusSite with
    | Some fs => focusTargetOf fs rt x
    | None => mkVec3 0 0 0
    end in
  let to1 :=
    match focusSite with
    | Some fs =>
        Vector3.addScaledVector to2 (approachDirection (cameraPosition x) to2)
          FOCUS_DISTANCE
    | None => BASE_CAMERA_POSITION
    end in
  let dur := match focusSite with Some _ => FOCUS_DURATION | None => 2.1 end in
  let e := match focusSite with Some _ => ExpoInOut | None => ExpoOut end in
  let s' := focusEffect focusSite s in
  exists hc ht,
    hc <> ht /\
    runtime s'
    = Some (mkSceneRuntime (nodeMeshById rt) locked (option_map id focusSite)
              (Some hc) (Some ht)) /\
    nth_error (tweens s') hc
    = Some (mkTween CameraPosition to1 dur e false None Running) /\
    nth_error (tweens s') ht
    = Some (mkTween ControlsTarget to2 dur e true focusSite Running) /\
    (forall h tw, nth_error (tweens s') h = Some tw -> status tw = Running ->
       h = hc \/ h = ht \/
       ((exists m, target tw = MeshScale m) /\ onComplete tw = None)) /\
    (forall h tw0, nth_error (tweens s) h = Some tw0 ->
       cameraTween rt = Some h \/ targetTween rt = Some h ->
       exists tw, nth_error (tweens s') h = Some tw /\ status tw <> Running) /\
    (exists new, emitted s' = emitted s ++ new /\ focusCompletes new = []) /\
    currentHovered s' = None /\
    controlsEnabled s' = negb locked.
Proof.
  intros Hrt Htr locked x to2 to1 dur e s'.
  destruct (focusPrelude_spec focusSite s rt Hrt Htr)
    as (Hrx & Hno & Hkilled & Hemit & Hhov & Hen).
  fold x in Hrx, Hno, Hkilled, Hemit, Hhov, Hen.
  assert (Hs' : s' = focusEffect focusSite s) by reflexivity.
  rewrite (focusEffect_eq focusSite s rt Hrt) in Hs'; cbv zeta in Hs'.
  fold x in Hs'; fold to2 in Hs'; fold to1 in Hs'; fold dur in Hs'; fold e in Hs'.
  destruct (focus_tweens_started x _ to1 to2 dur e focusSite Hrx)
    as (Hr & Hc & Ht & Hb & Hf & He & Hh & Hce).
  rewrite <- Hs' in Hr, Hc, Ht, Hb, Hf, He, Hh, Hce.
  exists (List.length (tweens x)), (S (List.length (tweens x))).
  split; [lia|].
  split; [exact Hr|].
  split; [exact Hc|].
  split; [exact Ht|].
  split.
  { intros h tw Hn Hrun.
    destruct (Hb h tw Hn Hrun) as [Hold | [-> | ->]];
      [right; right; apply (Hno h tw Hold Hrun) | left; reflexivity
      | right; left; reflexivity]. }
  split.
  { intros h tw0 Hn Hor.
    destruct (Hkilled h tw0 Hn Hor) as (tw & Hn' & Hs).
    exists tw; split; [apply Hf, Hn' | exact Hs]. }
  split; [rewrite He; exact Hemit|].
  split; [rewrite Hh; exact Hhov|].
  rewrite Hce, Hen; unfold locked; destruct focusSite; reflexivity.
Qed.

Lemma tracked_focusEffect (focusSite : option SiteNode) (s : Scene) :
  tweensTracked s -> tweensTracked (focusEffect focusSite s).
Proof.
  intros Htr; pose proof Htr as (rt & Hrt & _).
  destruct (focusEffect_spec focusSite s rt Hrt Htr)
    as (hc & ht & Hne & Hr & Hc & Ht & Hb & _).
  eexists; split; [exact Hr|].
  intros h tw Hn Hrun; simpl.
  destruct (Hb h tw Hn Hrun) as [-> | [-> | ((m & Hm) & Hcb)]].
  - rewrite Hc in Hn; injection Hn as <-; simpl.
    repeat split; try discriminate; reflexivity.
  - rewrite Ht in Hn; injection Hn as <-; simpl.
    repeat split; try discriminate; try reflexivity.
    intros H; exfalso; apply H; reflexivity.
  - rewrite Hm; repeat split; try discriminate. intros; exact Hcb.
Qed.

Lemma tracked_step (s : Scene) (a : Action) :
  tweensTracked s -> tweensTracked (step s a).
Proof.
  intros Htr.
  destruct a;
    try (apply (tracked_quiet s); [exact Htr | apply quiet_step; exact I]).
  - apply tracked_focusEffect, Htr.
  - apply tracked_tweenComplete, Htr.
Qed.

Lemma tracked_run (acts : list Action) (s : Scene) :
  tweensTracked s -> tweensTracked (run s acts).
Proof.
  revert s; induction acts as [|a acts IH]; intros s Htr; simpl; [exact Htr|].
  apply IH, tracked_step, Htr.
Qed.

Lemma tracked_mount (sites : list SiteNode) (draws : list (R * R)) :
  tweensTracked (mount controlsUpdate sites draws).
Proof.
  eexists; split; [reflexivity|].
  intros h tw Hn; simpl in Hn; destruct h; discriminate.
Qed.

(** *** Steps between focus requests *)

Lemma step_runtime (s : Scene) (a : Action) :
  isFocus a = false -> runtime (step s a) = runtime s.
Proof.
  intros Ha; destruct a; try discriminate;
    try (apply (quiet_step s); exact I).
  apply tweenComplete_runtime.
Qed.

Lemma step_keeps (s : Scene) (a : Action) (h : nat) (tw : Tween) :
  isFocus a = false -> isComplete h a = false ->
  nth_error (tweens s) h = Some tw ->
  target tw = CameraPosition \/ target tw = ControlsTarget ->
  nth_error (tweens (step s a)) h = Some tw.
Proof.
  intros Ha Hc Hn Ht; destruct a; try discriminate;
    try (apply (quiet_step s) with (a := _); [exact I | exact Hn | exact Ht]).
  simpl in Hc; apply Nat.eqb_neq in Hc.
  apply tweenComplete_forward; [exact Hn | congruence].
Qed.

Lemma step_stopped (s : Scene) (a : Action) (h : nat) (tw : Tween) :
  isFocus a = false ->
  nth_error (tweens s) h = Some tw -> status tw <> Running ->
  exists tw', nth_error (tweens (step s a)) h = Some tw' /\ status tw' <> Running.
Proof.
  intros Ha Hn Hs; destruct a; try discriminate;
    try (apply (quiet_not_running s _ h tw); [apply quiet_step; exact I | exact Hn | exact Hs]).
  simpl; destruct (Nat.eq_dec h h0) as [<- | Hne].
  - rewrite tweenComplete_idle by (not_running Hn).
    exists tw; split; assumption.
  - exists tw; split; [apply tweenComplete_forward; assumption | exact Hs].
Qed.

(** A step that is not a focus request calls [onFocusComplete] only when
    it completes a running tween that has a completion callback. *)
Lemma step_silent (s : Scene) (a : Action) :
  isFocus a = false ->
  (forall k tw, a = TweenComplete k -> nth_error (tweens s) k = Some tw ->
     status tw = Running -> onComplete tw = None) ->
  exists new, emitted (step s a) = emitted s ++ new /\ focusCompletes new = [].
Proof.
  intros Ha Hcb; destruct a; try discriminate;
    try (apply (quiet_step s); exact I).
  simpl.
  destruct (nth_error (tweens s) h) as [tw|] eqn:Hn.
  - destruct (status tw) eqn:Hst.
    + destruct (tweenComplete_running h s tw Hn Hst) as (_ & _ & He & _).
      rewrite (Hcb h tw eq_refl Hn Hst) in He.
      exists []; split; [exact He | reflexivity].
    + rewrite tweenComplete_idle by (not_running Hn).
      exists []; rewrite app_nil_r; split; reflexivity.
    + rewrite tweenComplete_idle by (not_running Hn).
      exists []; rewrite app_nil_r; split; reflexivity.
  - rewrite tweenComplete_idle by (not_running Hn).
    exists []; rewrite app_nil_r; split; reflexivity.
Qed.

(** In a tracked scene only the tween held by [runtime.targetTween] can
    call [onFocusComplete]. *)
Lemma tracked_callback (s : Scene) (rt : SceneRuntime) (k : nat) (tw : Tween) :
  tweensTracked s -> runtime s = Some rt ->
  nth_error (tweens s) k = Some tw -> status tw = Running ->
  targetTween rt <> Some k -> onComplete tw = None.
Proof.
  intros (rt0 & Hrt0 & Hinv) Hrt Hn Hrun Hne.
  assert (rt0 = rt) as -> by congruence.
  destruct (Hinv k tw Hn Hrun) as (_ & Htg & Hcb).
  apply Hcb; intros Ht; apply Hne, Htg, Ht.
Qed.

(** After the focus tween has stopped, no step calls [onFocusComplete]. *)
Lemma run_done (post : list Action) (s : Scene) (rt : SceneRuntime) (h : nat)
    (tw : Tween) :
  tweensTracked s -> runtime s = Some rt -> targetTween rt = Some h ->
  nth_error (tweens s) h = Some tw -> status tw <> Running ->
  forallb (fun a => negb (isFocus a)) post = true ->
  exists new, emitted (run s post) = emitted s ++ new /\ focusCompletes new = [].
Proof.
  revert s tw; induction post as [|a post IH]; intros s tw Htr Hrt Hh Hn Hs Hpost.
  - exists []; simpl; rewrite app_nil_r; split; reflexivity.
  - simpl in Hpost; apply andb_prop in Hpost as [Ha Hpost].
    apply negb_true_iff in Ha.
    destruct (step_silent s a Ha) as (n1 & He1 & Hf1).
    { intros k twk -> Hk Hrun.
      apply (tracked_callback s rt k twk Htr Hrt Hk Hrun).
      rewrite Hh; intros [= <-]; congruence. }
    destruct (step_stopped s a h tw Ha Hn Hs) as (tw' & Hn' & Hs').
    destruct (IH (step s a) tw') as (n2 & He2 & Hf2);
      [apply tracked_step, Htr | rewrite step_runtime; assumption | exact Hh
      | exact Hn' | exact Hs' | exact Hpost |].
    exists (n1 ++ n2); split.
    + simpl; rewrite He2, He1, app_assoc; reflexivity.
    + rewrite focusCompletes_app, Hf1, Hf2; reflexivity.
Qed.

(** While the focus tween for [fs] runs, [onFocusComplete] is called once,
    with [fs], by the completion of this tween, and not otherwise. *)
Lemma run_pending (post : list Action) (s : Scene) (rt : SceneRuntime) (h : nat)
    (tw : Tween) (fs : SiteNode) :
  tweensTracked s -> runtime s = Some rt -> targetTween rt = Some h ->
  pendingFocusId rt = Some (id fs) ->
  nth_error (tweens s) h = Some tw -> status tw = Running ->
  target tw = ControlsTarget -> onComplete tw = Some fs ->
  forallb (fun a => negb (isFocus a)) post = true ->
  tweensTracked (run s post) /\ runtime (run s post) = Some rt /\
  (existsb (isComplete h) post = false -> nth_error (tweens (run s post)) h = Some tw) /\
  exists new, emitted (run s post) = emitted s ++ new /\
    focusCompletes new = if existsb (isComplete h) post then [fs] else [].
Proof.
  revert s; induction post as [|a post IH];
    intros s Htr Hrt Hh Hp Hn Hrun Htg Hcb Hpost.
  - simpl; split; [|split; [|split]]; try assumption; [intros _; exact Hn|].
    exists []; rewrite app_nil_r; split; reflexivity.
  - simpl in Hpost; apply andb_prop in Hpost as [Ha Hpost].
    apply negb_true_iff in Ha.
    assert (Htr' : tweensTracked (step s a)) by apply tracked_step, Htr.
    assert (Hrt' : runtime (step s a) = Some rt)
      by (rewrite step_runtime; assumption).
    cbn [Scene.run fold_left existsb].
    fold (run (step s a) post).
    destruct (isComplete h a) eqn:Hc.
    + destruct a; try discriminate.
      simpl in Hc; apply Nat.eqb_eq in Hc; subst h0.
      destruct (tweenComplete_running h s tw Hn Hrun) as (_ & Ht & He & _).
      rewrite Hcb, Hrt, Hp, sameId_refl in He.
      assert (Hn' : nth_error (tweens (step s (TweenComplete h))) h
                    = Some (set_status Completed tw)).
      { simpl; rewrite Ht, nth_error_replaceAt, Nat.eqb_refl, Hn; reflexivity. }
      destruct (run_done post _ rt h _ Htr' Hrt' Hh Hn') as (n2 & He2 & Hf2);
        [discriminate | exact Hpost |].
      split; [apply tracked_run, Htr'|].
      split.
      { clear - Hrt' Hpost.
        revert Hrt'; generalize (step s (TweenComplete h)).
        induction post as [|b post IHp]; intros x Hx; [exact Hx|].
        simpl in Hpost; apply andb_prop in Hpost as [Hb Hpost].
        apply negb_true_iff in Hb.
        simpl; apply IHp; [exact Hpost | rewrite step_runtime; assumption]. }
      split; [discriminate|].
      exists ([onFocusComplete fs] ++ n2); split.
      * rewrite He2; simpl in He |- *; rewrite He, <- app_assoc; reflexivity.
      * rewrite focusCompletes_app, Hf2; reflexivity.
    + destruct (step_silent s a Ha) as (n1 & He1 & Hf1).
      { intros k twk -> Hk Hrunk.
        apply (tracked_callback s rt k twk Htr Hrt Hk Hrunk).
        rewrite Hh; intros [= <-].
        simpl in Hc; rewrite Nat.eqb_refl in Hc; discriminate. }
      assert (Hn' : nth_error (tweens (step s a)) h = Some tw)
        by (apply step_keeps; auto).
      destruct (IH (step s a) Htr' Hrt' Hh Hp Hn' Hrun Htg Hcb Hpost)
        as (Htr'' & Hrt'' & Hkeep & n2 & He2 & Hf2).
      split; [|split; [|split]]; try assumption.
      exists (n1 ++ n2); split.
      * rewrite He2, He1, app_assoc; reflexivity.
      * rewrite focusCompletes_app, Hf1, Hf2; reflexivity.
Qed.

Lemma run_app (s : Scene) (l1 l2 : list Action) :
  run s (l1 ++ l2) = run (run s l1) l2.
Proof. apply fold_left_app. Qed.

Lemma run_keeps (acts : list Action) (s : Scene) (h : nat) (tw : Tween) :
  forallb (fun a => negb (isFocus a || isComplete h a)) acts = true ->
  nth_error (tweens s) h = Some tw ->
  target tw = CameraPosition \/ target tw = ControlsTarget ->
  nth_error (tweens (run s acts)) h = Some tw.
Proof.
  revert s; induction acts as [|a acts IH]; intros s Hall Hn Ht; [exact Hn|].
  simpl in Hall; apply andb_prop in Hall as [Ha Hall].
  apply negb_true_iff, orb_false_iff in Ha as [Hf Hc].
  simpl; apply IH; [exact Hall | apply step_keeps; assumption | exact Ht].
Qed.

Lemma forallb_weaken {A : Type} (p q : A -> bool) (l : list A) :
  (forall a, p a = true -> q a = true) ->
  forallb p l = true -> forallb q l = true.
Proof.
  intros Hpq; induction l as [|a l IH]; simpl; [reflexivity|].
  intros H; apply andb_prop in H as [Ha Hl].
  rewrite (Hpq a Ha), (IH Hl); reflexivity.
Qed.

Lemma no_complete (h : nat) (acts : list Action) :
  forallb (fun a => negb (isFocus a || isComplete h a)) acts = true ->
  existsb (isComplete h) acts = false.
Proof.
  induction acts as [|a acts IH]; simpl; [reflexivity|].
  intros H; apply andb_prop in H as [Ha Hl].
  apply negb_true_iff, orb_false_iff in Ha as [_ ->]; apply IH, Hl.
Qed.

Lemma targetHandle_eq (s : Scene) (rt : SceneRuntime) (h : nat) :
  runtime s = Some rt -> targetTween rt = Some h -> targetHandle s = h.
Proof. intros Hr Ht; unfold targetHandle; rewrite Hr, Ht; reflexivity. Qed.

Lemma cameraHandle_eq (s : Scene) (rt : SceneRuntime) (h : nat) :
  runtime s = Some rt -> cameraTween rt = Some h -> cameraHandle s = h.
Proof. intros Hr Ht; unfold cameraHandle; rewrite Hr, Ht; reflexivity. Qed.

(** C3: in the mounted scene, when a focus request for [A] is followed by
    a focus request for [B] before the tween of [A]'s transition has
    completed, the second request leaves [A]'s tween stopped and [B]'s
    running, and from the first request on [onFocusComplete] is called
    exactly once, with [B], when [B]'s tween completes, and not at all
    before that: never for [A].  Had [A]'s tween still come to call its
    completion callback, the guard on [pendingFocusId] would have
    suppressed it. *)
Theorem superseded_focus_completes_once (sites : list SiteNode)
    (draws : list (R * R)) (pre mid post : list Action) (A B : SiteNode) :
  let s0 := run (mount controlsUpdate sites draws) pre in
  let sA := focusEffect (Some A) s0 in
  let sB := focusEffect (Some B) (run sA mid) in
  forallb (fun a => negb (isFocus a || isComplete (targetHandle sA) a)) mid = true ->
  forallb (fun a => negb (isFocus a)) post = true ->
  (exists twA, nth_error (tweens sA) (targetHandle sA) = Some twA /\
     onComplete twA = Some A /\ status twA = Running) /\
  (exists twA, nth_error (tweens sB) (targetHandle sA) = Some twA /\
     status twA <> Running) /\
  (exists twB, nth_error (tweens sB) (targetHandle sB) = Some twB /\
     onComplete twB = Some B /\ status twB = Running /\
     duration twB = FOCUS_DURATION) /\
  (exists new,
     emitted (run sB post) = emitted s0 ++ new /\
     focusCompletes new
     = if existsb (isComplete (targetHandle sB)) post then [B] else []) /\
  (forall x rt tw,
     runtime x = Some rt -> pendingFocusId rt = Some (id B) ->
     onComplete tw = Some A -> id A <> id B ->
     Scene.runOnComplete tw x = x).
Proof.
  intros s0 sA sB Hmid Hpost.
  assert (Htr0 : tweensTracked s0) by apply tracked_run, tracked_mount.
  pose proof Htr0 as (rt0 & Hrt0 & _).
  destruct (focusEffect_spec (Some A) s0 rt0 Hrt0 Htr0)
    as (hcA & hA & _ & HrA & _ & HtA & _ & _ & (n1 & He1 & Hf1) & _).
  fold sA in HrA, HtA, He1.
  assert (HhA : targetHandle sA = hA) by (apply (targetHandle_eq _ _ _ HrA); reflexivity).
  rewrite HhA in *.
  assert (HtrA : tweensTracked sA) by apply tracked_focusEffect, Htr0.
  destruct (run_pending mid sA _ hA _ A HtrA HrA eq_refl eq_refl HtA eq_refl
              eq_refl eq_refl)
    as (HtrM & HrM & HkeepM & n2 & He2 & Hf2).
  { revert Hmid; apply forallb_weaken; intros a Ha.
    apply negb_true_iff, orb_false_iff in Ha as [-> _]; reflexivity. }
  rewrite (no_complete hA mid Hmid) in Hf2.
  specialize (HkeepM (no_complete hA mid Hmid)).
  destruct (focusEffect_spec (Some B) (run sA mid) _ HrM HtrM)
    as (hcB & hB & _ & HrB & _ & HtB & _ & Hkilled & (n3 & He3 & Hf3) & _).
  fold sB in HrB, HtB, Hkilled, He3.
  assert (HhB : targetHandle sB = hB) by (apply (targetHandle_eq _ _ _ HrB); reflexivity).
  rewrite HhB.
  assert (HtrB : tweensTracked sB) by apply tracked_focusEffect, HtrM.
  destruct (run_pending post sB _ hB _ B HtrB HrB eq_refl eq_refl HtB eq_refl
              eq_refl eq_refl Hpost)
    as (_ & _ & _ & n4 & He4 & Hf4).
  split.
  { eexists; split; [exact HtA|]; split; reflexivity. }
  split.
  { destruct (Hkilled hA _ HkeepM (or_intror eq_refl)) as (twA & HnA & HsA).
    exists twA; split; assumption. }
  split.
  { eexists; split; [exact HtB|]; repeat split. }
  split.
  { exists (n1 ++ n2 ++ n3 ++ n4); split.
    - rewrite He4, He3, He2, He1, <- !app_assoc; reflexivity.
    - rewrite !focusCompletes_app, Hf1, Hf2, Hf3, Hf4; reflexivity. }
  intros x rt tw Hx Hp Hcb Hne.
  unfold Scene.runOnComplete; rewrite Hcb, Hx, Hp; simpl.
  destruct (String.eqb_spec (id B) (id A)); [congruence | reflexivity].
Qed.

(** C6: in the mounted scene a null focus request leaves the tweens that
    were in flight for the camera position and the orbit target stopped,
    nothing hovered, the orbit controls enabled and the focus lock open,
    and starts the only two running tweens of the camera position and of
    the orbit target, whose end values are the base pose (0, 0, 40) and
    the origin; when they complete, with the orbit controls at rest in
    that pose, the camera is at the base pose and the orbit target at the
    origin. *)
Theorem null_focus_returns_to_base (sites : list SiteNode) (draws : list (R * R))
    (pre acts : list Action)
    (Hrest : controlsUpdate (BASE_CAMERA_POSITION, mkVec3 0 0 0)
             = (BASE_CAMERA_POSITION, mkVec3 0 0 0)) :
  let s := run (mount controlsUpdate sites draws) pre in
  let s' := focusEffect None s in
  let hc := cameraHandle s' in
  let ht := targetHandle s' in
  (exists rt, runtime s = Some rt /\
     forall h tw0, nth_error (tweens s) h = Some tw0 ->
       cameraTween rt = Some h \/ targetTween rt = Some h ->
       exists tw, nth_error (tweens s') h = Some tw /\ status tw <> Running) /\
  (exists rt', runtime s' = Some rt' /\ focusLocked rt' = false /\
     pendingFocusId rt' = None /\
     cameraTween rt' = Some hc /\ targetTween rt' = Some ht) /\
  currentHovered s' = None /\
  controlsEnabled s' = true /\
  nth_error (tweens s') hc
  = Some (mkTween CameraPosition BASE_CAMERA_POSITION 2.1 ExpoOut false None Running) /\
  nth_error (tweens s') ht
  = Some (mkTween ControlsTarget (mkVec3 0 0 0) 2.1 ExpoOut true None Running) /\
  (forall h tw, nth_error (tweens s') h = Some tw -> status tw = Running ->
     target tw = CameraPosition \/ target tw = ControlsTarget -> h = hc \/ h = ht) /\
  (forallb (fun a => negb (isFocus a || isComplete hc a)
                     && negb (isFocus a || isComplete ht a)) acts = true ->
   let sEnd := run s' (acts ++ [TweenComplete hc; TweenComplete ht]) in
   cameraPosition sEnd = BASE_CAMERA_POSITION /\
   controlsTarget sEnd = mkVec3 0 0 0).
Proof.
  intros s s' hc ht.
  assert (Htr : tweensTracked s) by apply tracked_run, tracked_mount.
  pose proof Htr as (rt & Hrt & _).
  destruct (focusEffect_spec None s rt Hrt Htr)
    as (hc' & ht' & Hne & Hr & Hc & Ht & Hb & Hkilled & _ & Hhov & Hen).
  fold s' in Hr, Hc, Ht, Hb, Hkilled, Hhov, Hen.
  assert (Hhc : hc = hc') by (apply (cameraHandle_eq _ _ _ Hr); reflexivity).
  assert (Hht : ht = ht') by (apply (targetHandle_eq _ _ _ Hr); reflexivity).
  rewrite Hhc, Hht; clear Hhc Hht hc ht.
  split; [exists rt; split; assumption|].
  split; [eexists; split; [exact Hr|]; repeat split|].
  split; [exact Hhov|].
  split; [exact Hen|].
  split; [exact Hc|].
  split; [exact Ht|].
  split.
  { intros h tw Hn Hrun Htg.
    destruct (Hb h tw Hn Hrun) as [-> | [-> | ((m & Hm) & _)]]; auto.
    rewrite Hm in Htg; destruct Htg; discriminate. }
  intros Hacts sEnd; unfold sEnd.
  rewrite run_app.
  set (s1 := run s' acts).
  assert (Hc1 : nth_error (tweens s1) hc'
                = Some (mkTween CameraPosition BASE_CAMERA_POSITION 2.1 ExpoOut
                          false None Running)).
  { apply run_keeps; [|exact Hc | left; reflexivity].
    revert Hacts; apply forallb_weaken; intros a Ha.
    apply andb_prop in Ha; apply Ha. }
  assert (Ht1 : nth_error (tweens s1) ht'
                = Some (mkTween ControlsTarget (mkVec3 0 0 0) 2.1 ExpoOut
                          true None Running)).
  { apply run_keeps; [|exact Ht | right; reflexivity].
    revert Hacts; apply forallb_weaken; intros a Ha.
    apply andb_prop in Ha; apply Ha. }
  cbn [Scene.run fold_left Scene.step].
  destruct (tweenComplete_running hc' s1 _ Hc1 eq_refl) as (_ & _ & _ & Hpose2).
  simpl in Hpose2.
  set (s2 := tweenComplete hc' s1) in *.
  assert (Ht2 : nth_error (tweens s2) ht'
                = Some (mkTween ControlsTarget (mkVec3 0 0 0) 2.1 ExpoOut
                          true None Running))
    by (apply tweenComplete_forward; [exact Ht1 | congruence]).
  destruct (tweenComplete_running ht' s2 _ Ht2 eq_refl) as (_ & _ & _ & Hpose3).
  simpl in Hpose3.
  injection Hpose2 as Hcam2 Htg2.
  rewrite Hcam2, Hrest in Hpose3.
  injection Hpose3 as Hcam3 Htg3.
  split; assumption.
Qed.

(** *** The disturbance weight in the frame *)

Lemma animate_disturb (delta : R) (hit : option NodeMesh) (s : Scene) :
  let isFocused :=
    match runtime s with Some rt => focusLocked rt | None => false end in
  let smoothed :=
    Disturb.smooth isFocused (disturbWeightTarget s) (disturbWeight s) delta in
  disturbWeightTarget (animate delta hit s) = fst smoothed /\
  disturbWeight (animate delta hit s) = snd smoothed /\
  runtime (animate delta hit s) = runtime s.
Proof.
  cbv zeta; unfold Scene.animate, Scene.updateControls; simpl.
  destruct (runtime s) as [rt|] eqn:Hrt; [destruct (focusLocked rt) eqn:Hl|];
    unfold setHovered; simpl;
    destruct (currentHovered s) as [m0|]; simpl;
    try (destruct hit as [m|]; simpl; try destruct (ref m0 =? ref m)%nat);
    simpl; rewrite ?Hrt; repeat split; reflexivity.
Qed.

(** With the target at 0 or the camera focus-locked, a run of frames
    leaves the weight [Disturb.decay] computes from the frame deltas. *)
Lemma runFrames_decay (frames : list (R * option NodeMesh)) (s : Scene) :
  disturbWeightTarget s = 0 \/
  (exists rt, runtime s = Some rt /\ focusLocked rt = true) ->
  disturbWeight (runFrames controlsUpdate frames s)
  = Disturb.decay (disturbWeight s) (map fst frames).
Proof.
  revert s; induction frames as [|[delta hit] frames IH]; intros s Hs;
    [reflexivity|].
  cbn [Scene.runFrames fold_left fst snd map].
  fold (runFrames controlsUpdate frames (animate delta hit s)).
  destruct (animate_disturb delta hit s) as (Ht & Hw & Hr).
  rewrite decay_cons.
  set (isFocused := match runtime s with Some rt => focusLocked rt | None => false end)
    in Ht, Hw.
  assert (Hz : isFocused = true \/ disturbWeightTarget s = 0).
  { destruct Hs as [H | (rt & Hrt & Hl)]; [right; exact H|].
    left; unfold isFocused; rewrite Hrt; exact Hl. }
  rewrite (smooth_to_zero _ _ _ _ Hz) in Ht, Hw; cbn [fst snd] in Ht, Hw.
  rewrite IH, Hw; [reflexivity | left; exact Ht].
Qed.

End SceneFacts.

(** ** The theorems of the scene on the small scene *)

(** C5 fails: after a pointer move to (100, 200) and a frame whose ray
    hits the first node, a frame whose ray hits nothing emits the
    hover-changed event with the coordinates (0, 0), not (100, 200). *)
Lemma hover_clear_counterexample :
  let s := Scene.run Demo.unproject Demo.controlsUpdate Demo.mounted
             [Scene.PointerMove 100 200 800 600;
              Scene.Frame 0.016 (Some Demo.mesh0)] in
  let s' := Scene.step Demo.unproject Demo.controlsUpdate s (Scene.Frame 0.016 None) in
  Scene.pointerClient s = (100, 200) /\
  Scene.currentHovered s = Some Demo.mesh0 /\
  Scene.emitted s
  = [Scene.onHoverChange (Scene.mkHoverState (Some Demo.siteA) 100 200)] /\
  Scene.emitted s'
  = [Scene.onHoverChange (Scene.mkHoverState (Some Demo.siteA) 100 200);
     Scene.onHoverChange (Scene.mkHoverState None 0 0)] /\
  Scene.emitted s'
  <> Scene.emitted s ++ [Scene.onHoverChange (Scene.mkHoverState None 100 200)].
Proof.
  intros s s'.
  assert (Hp : Scene.pointerClient s = (100, 200)) by (lazy; reflexivity).
  assert (Hh : Scene.currentHovered s = Some Demo.mesh0) by (lazy; reflexivity).
  assert (He : Scene.emitted s
               = [Scene.onHoverChange (Scene.mkHoverState (Some Demo.siteA) 100 200)])
    by (lazy; reflexivity).
  assert (He' : Scene.emitted s'
               = [Scene.onHoverChange (Scene.mkHoverState (Some Demo.siteA) 100 200);
                  Scene.onHoverChange (Scene.mkHoverState None 0 0)])
    by (lazy; reflexivity).
  repeat split; try assumption.
  rewrite He, He'; simpl; intros H.
  injection H as H _; lra.
Qed.

Lemma hover_event_payload_witness :
  let s := Demo.mounted in
  let event :=
    Scene.onHoverChange
      (Scene.mkHoverState (Some Demo.siteA) (fst (Scene.pointerClient s))
         (snd (Scene.pointerClient s))) in
  Scene.emitted (Scene.setHovered (Some Demo.mesh0) s) = Scene.emitted s ++ [event] /\
  Scene.currentHovered (Scene.setHovered (Some Demo.mesh0) s) = Some Demo.mesh0 /\
  (forall delta hit, Scene.frameTarget hit s = Some Demo.mesh0 ->
     Scene.emitted (Scene.animate Demo.controlsUpdate delta hit s)
     = Scene.emitted s ++ [event]) /\
  (forall cx cy w h,
     Scene.pointerClient (Scene.onPointerMove Demo.unproject cx cy w h s) = (cx, cy)).
Proof.
  apply (hover_event_payload Demo.unproject Demo.controlsUpdate Demo.mounted
           (Some Demo.mesh0)).
  reflexivity.
Defined.

Lemma click_selects_hovered_witness :
  let s := Scene.run Demo.unproject Demo.controlsUpdate Demo.mounted
             [Scene.PointerMove 100 200 800 600;
              Scene.Frame 0.016 (Some Demo.mesh0)] in
  (forall st,
     Scene.emitted (Scene.onClick s) = Scene.emitted s ++ [Scene.onNodeSelect st] <->
     Scene.dragDistance s <= Scene.dragThreshold /\ false = false /\
     exists m, Scene.currentHovered s = Some m /\ Scene.userData_site m = st) /\
  (Scene.dragThreshold < Scene.dragDistance s ->
   Scene.emitted (Scene.onClick s) = Scene.emitted s).
Proof.
  intros s.
  pose proof (click_selects_hovered Demo.unproject s
                (Scene.mkSceneRuntime (Scene.makeMeshById [Demo.siteA; Demo.siteB])
                   false None None None))
    as (_ & Hiff & _ & Hdrag & _).
  - lazy; reflexivity.
  - split; [exact Hiff | exact Hdrag].
Defined.

Lemma superseded_focus_completes_once_witness :
  let mid :=
    [Scene.Frame 0.016 None; Scene.PointerMove 10 10 800 600;
     Scene.TweenUpdate 3 (mkVec3 1 0 0)] in
  let post :=
    [Scene.Frame 0.016 None; Scene.TweenComplete 3; Scene.TweenComplete 4;
     Scene.TweenComplete 5; Scene.TweenComplete 5] in
  let s0 := Scene.run Demo.unproject Demo.controlsUpdate Demo.mounted
              [Scene.Frame 0 None; Scene.Focus None] in
  let sA := Scene.focusEffect (Some Demo.siteA) s0 in
  let sB := Scene.focusEffect (Some Demo.siteB)
              (Scene.run Demo.unproject Demo.controlsUpdate sA mid) in
  Scene.targetHandle sA = 3%nat /\ Scene.targetHandle sB = 5%nat /\
  exists new,
    Scene.emitted (Scene.run Demo.unproject Demo.controlsUpdate sB post)
    = Scene.emitted s0 ++ new /\
    Scene.focusCompletes new = [Demo.siteB].
Proof.
  intros mid post s0 sA sB.
  split; [lazy; reflexivity|].
  split; [lazy; reflexivity|].
  destruct (superseded_focus_completes_once Demo.unproject Demo.controlsUpdate
              [Demo.siteA; Demo.siteB] [(0, 0); (0.5, 0.5)]
              [Scene.Frame 0 None; Scene.Focus None] mid post
              Demo.siteA Demo.siteB)
    as (_ & _ & _ & (new & He & Hf) & _).
  - lazy; reflexivity.
  - lazy; reflexivity.
  - exists new; split; [exact He|].
    rewrite Hf.
    replace (Scene.targetHandle
               (Scene.focusEffect (Some Demo.siteB)
                  (Scene.run Demo.unproject Demo.controlsUpdate
                     (Scene.focusEffect (Some Demo.siteA)
                        (Scene.run Demo.unproject Demo.controlsUpdate
                           (Scene.mount Demo.controlsUpdate [Demo.siteA; Demo.siteB]
                              [(0, 0); (0.5, 0.5)])
                           [Scene.Frame 0 None; Scene.Focus None])) mid)))
      with 5%nat by (lazy; reflexivity).
    reflexivity.
Defined.

(** When the transition to the first site is left to complete before the
    second request, [onFocusComplete] is called for both, in turn. *)
Example focus_completes_in_turn :
  let s := Scene.run Demo.unproject Demo.controlsUpdate Demo.mounted
             [Scene.Frame 0 None; Scene.Focus None;
              Scene.Focus (Some Demo.siteA); Scene.TweenComplete 2;
              Scene.TweenComplete 3;
              Scene.Focus (Some Demo.siteB); Scene.TweenComplete 4;
              Scene.TweenComplete 5] in
  Scene.focusCompletes (Scene.emitted s) = [Demo.siteA; Demo.siteB].
Proof. lazy; reflexivity. Qed.

Lemma null_focus_returns_to_base_witness :
  let pre := [Scene.Frame 0 None; Scene.Focus (Some Demo.siteA);
              Scene.TweenComplete 0; Scene.TweenComplete 1] in
  let acts := [Scene.Frame 0.016 None; Scene.TweenUpdate 3 (mkVec3 1 1 1)] in
  let s := Scene.run Demo.unproject Demo.controlsUpdate Demo.mounted pre in
  let s' := Scene.focusEffect None s in
  let sEnd :=
    Scene.run Demo.unproject Demo.controlsUpdate s'
      (acts ++ [Scene.TweenComplete (Scene.cameraHandle s');
                Scene.TweenComplete (Scene.targetHandle s')]) in
  Scene.cameraPosition sEnd = BASE_CAMERA_POSITION /\
  Scene.controlsTarget sEnd = mkVec3 0 0 0.
Proof.
  intros pre acts s s' sEnd.
  destruct (null_focus_returns_to_base Demo.unproject Demo.controlsUpdate
              [Demo.siteA; Demo.siteB] [(0, 0); (0.5, 0.5)] pre acts)
    as (_ & _ & _ & _ & _ & _ & _ & Hend).
  - reflexivity.
  - apply Hend. lazy; reflexivity.
Defined.

(** ** The disturbance weight after the pointer has left *)

(** C7: with the disturbance-weight target at 0 (after [onPointerLeave], or
    while focus-locked) a frame with [delta > 0] multiplies the weight by a
    factor in [0, 1), and a run of frames leaves the weight [Disturb.decay]
    computes.  From a weight in [0, 1] the weight stays in [0, 1], never
    increases from one frame to the next, and tends to 0: for frames no
    shorter than any fixed [dmin > 0] it is below any [eps > 0] after
    enough frames. *)
Theorem disturb_weight_decays (w : R) (deltas : list R)
    (Hw : 0 <= w <= 1) (Hd : Forall (Rlt 0) deltas) :
  (forall isFocused target delta,
      0 < delta -> isFocused = true \/ target = 0 ->
      exists factor, 0 <= factor < 1 /\
        Disturb.smooth isFocused target w delta = (0, w * factor)) /\
  (forall controlsUpdate frames s,
      Scene.disturbWeightTarget (Scene.onPointerLeave s) = 0 /\
      (Scene.disturbWeightTarget s = 0 \/
       (exists rt, Scene.runtime s = Some rt /\ Scene.focusLocked rt = true) ->
       Scene.disturbWeight (Scene.runFrames controlsUpdate frames s)
       = Disturb.decay (Scene.disturbWeight s) (map fst frames))) /\
  0 <= Disturb.decay w deltas <= 1 /\
  (forall before after, deltas = before ++ after ->
      Disturb.decay w deltas <= Disturb.decay w before) /\
  (forall dmin eps, 0 < dmin -> 0 < eps ->
      exists N, forall frames,
        Forall (Rle dmin) frames -> (N <= List.length frames)%nat ->
        0 <= Disturb.decay w frames < eps).
Proof.
  repeat split.
  - intros isFocused target delta Hpos Ht.
    exists (1 - Disturb.disturbBlend delta).
    pose proof (disturbBlend_range delta Hpos).
    split; [lra | apply smooth_to_zero; exact Ht].
  - apply runFrames_decay; assumption.
  - apply decay_range; [lra | exact Hd].
  - pose proof (decay_range w deltas (proj1 Hw) Hd); lra.
  - intros before after ->.
    rewrite decay_app.
    apply Forall_app in Hd as [Hb Ha].
    apply decay_range; [apply decay_range; [lra | exact Hb] | exact Ha].
  - intros dmin eps Hmin Heps.
    pose proof (disturbBlend_range dmin Hmin) as Hq.
    destruct (pow_lt_1_zero (1 - Disturb.disturbBlend dmin)) with (y := eps)
      as [N HN]; [rewrite Rabs_right; lra | exact Heps |].
    exists N; intros frames Hf Hlen.
    pose proof (decay_le_pow dmin w frames Hmin (proj1 Hw) Hf) as [H0 H1].
    split; [exact H0|].
    specialize (HN (List.length frames) Hlen).
    assert (Hp : 0 <= (1 - Disturb.disturbBlend dmin) ^ List.length frames)
      by (apply pow_le; lra).
    rewrite Rabs_right in HN by lra.
    nra.
Qed.

Lemma disturb_weight_decays_witness :
  (forall isFocused target delta,
      0 < delta -> isFocused = true \/ target = 0 ->
      exists factor, 0 <= factor < 1 /\
        Disturb.smooth isFocused target 1 delta = (0, 1 * factor)) /\
  (forall controlsUpdate frames s,
      Scene.disturbWeightTarget (Scene.onPointerLeave s) = 0 /\
      (Scene.disturbWeightTarget s = 0 \/
       (exists rt, Scene.runtime s = Some rt /\ Scene.focusLocked rt = true) ->
       Scene.disturbWeight (Scene.runFrames controlsUpdate frames s)
       = Disturb.decay (Scene.disturbWeight s) (map fst frames))) /\
  0 <= Disturb.decay 1 [0.016; 0.017] <= 1 /\
  (forall before after, [0.016; 0.017] = before ++ after ->
      Disturb.decay 1 [0.016; 0.017] <= Disturb.decay 1 before) /\
  (forall dmin eps, 0 < dmin -> 0 < eps ->
      exists N, forall frames,
        Forall (Rle dmin) frames -> (N <= List.length frames)%nat ->
        0 <= Disturb.decay 1 frames < eps).
Proof.
  apply (disturb_weight_decays 1 [0.016; 0.017]).
  - lra.
  - repeat constructor; lra.
Defined.

(** Two frames of 16 ms from a full weight: the blend is 0.096 and the
    weight is 0.904 and then 0.817216. *)
Example decay_two_frames :
  Disturb.decay 1 [0.016] = 0.904 /\ Disturb.decay 1 [0.016; 0.016] = 0.817216.
Proof.
  unfold Disturb.decay, Disturb.smooth, Disturb.disturbBlend, Rmin; simpl.
  destruct (Rle_dec _ _); lra.
Qed.


(** * Further properties of the code *)

(** ** Site data: the hash of a string *)

Lemma toInt32_range (z : Z) : (- 2 ^ 31 <= Sites.toInt32 z < 2 ^ 31)%Z.
Proof.
  unfold Sites.toInt32.
  pose proof (Z.mod_pos_bound (z + 2 ^ 31) (2 ^ 32) ltac:(lia)); lia.
Qed.

Lemma toInt32_small (z : Z) : (- 2 ^ 31 <= z < 2 ^ 31)%Z -> Sites.toInt32 z = z.
Proof.
  intros H; unfold Sites.toInt32.
  rewrite Z.mod_small by lia; lia.
Qed.

Lemma toInt32_congr (a b : Z) :
  (a mod 2 ^ 32 = b mod 2 ^ 32)%Z -> Sites.toInt32 a = Sites.toInt32 b.
Proof.
  intros H; unfold Sites.toInt32.
  rewrite <- (Zplus_mod_idemp_l a), <- (Zplus_mod_idemp_l b), H; reflexivity.
Qed.

Lemma toInt32_mod (z : Z) : (Sites.toInt32 z mod 2 ^ 32 = z mod 2 ^ 32)%Z.
Proof.
  unfold Sites.toInt32.
  rewrite <- Zminus_mod_idemp_l, Z.mod_mod by lia.
  rewrite Zminus_mod_idemp_l; f_equal; lia.
Qed.

(** The polynomial in 31 whose value, wrapped to 32 bits, is the hash. *)
Lemma hashStep_poly (hash charCode : Z) :
  Sites.hashStep (Sites.toInt32 hash) charCode
  = Sites.toInt32 (31 * hash + charCode).
Proof.
  unfold Sites.hashStep, Sites.shiftLeft.
  apply toInt32_congr.
  rewrite (toInt32_small (Sites.toInt32 hash)) by apply toInt32_range.
  replace (31 * hash + charCode)%Z with (hash * 2 ^ 5 - hash + charCode)%Z by lia.
  rewrite <- Zplus_mod_idemp_l, <- Zminus_mod_idemp_l, toInt32_mod.
  rewrite <- (Zminus_mod_idemp_r _ (Sites.toInt32 hash)), toInt32_mod.
  rewrite <- (Zmult_mod_idemp_l (Sites.toInt32 hash)), toInt32_mod.
  rewrite Zmult_mod_idemp_l, Zminus_mod_idemp_r, Zminus_mod_idemp_l.
  rewrite Zplus_mod_idemp_l; reflexivity.
Qed.

Lemma fold_hashStep (units : list Z) (hash : Z) :
  fold_left Sites.hashStep units (Sites.toInt32 hash)
  = Sites.toInt32 (fold_left (fun acc c => 31 * acc + c)%Z units hash).
Proof.
  revert hash; induction units as [|c units IH]; intros hash; simpl; [reflexivity|].
  rewrite hashStep_poly; apply IH.
Qed.

Lemma hashCodeUnits_poly (units : list Z) :
  Sites.hashCodeUnits units
  = Z.abs (Sites.toInt32 (fold_left (fun acc c => 31 * acc + c)%Z units 0%Z)).
Proof.
  unfold Sites.hashCodeUnits.
  rewrite <- fold_hashStep; reflexivity.
Qed.

Lemma hashString_range (value : string) :
  (0 <= Sites.hashString value <= 2 ^ 31)%Z.
Proof.
  unfold Sites.hashString; rewrite hashCodeUnits_poly.
  pose proof (toInt32_range
                (fold_left (fun acc c => 31 * acc + c)%Z (Sites.codeUnits value) 0%Z)).
  lia.
Qed.

(** X1: The hash is the absolute value of the polynomial
    [c0 * 31^(n-1) + ... + c(n-1)] of the code units wrapped to a signed 32
    bit integer: the wrap after every character gives the same as one wrap
    at the end.  It lies between 0 and 2^31, both included.  This holds
    for every sequence of code units, and so for the hash of a string. *)
Theorem hashString_wrapped_polynomial (units : list Z) (value : string) :
  Sites.hashCodeUnits units
  = Z.abs (Sites.toInt32 (fold_left (fun acc c => 31 * acc + c)%Z units 0%Z)) /\
  (0 <= Sites.hashCodeUnits units <= 2 ^ 31)%Z /\
  Sites.hashString value
  = Z.abs (Sites.toInt32
             (fold_left (fun acc c => 31 * acc + c)%Z (Sites.codeUnits value) 0%Z)) /\
  (0 <= Sites.hashString value <= 2 ^ 31)%Z.
Proof.
  assert (Hrange : forall l, (0 <= Sites.hashCodeUnits l <= 2 ^ 31)%Z).
  { intros l; rewrite hashCodeUnits_poly.
    pose proof (toInt32_range (fold_left (fun acc c => 31 * acc + c)%Z l 0%Z)).
    lia. }
  split; [apply hashCodeUnits_poly|].
  split; [apply Hrange|].
  split; [apply hashCodeUnits_poly | apply Hrange].
Qed.

(** The hashes of two keys of the site list, and a string whose hash wraps
    to the lowest 32 bit integer, whose absolute value is 2^31. *)
Example hashString_values :
  Sites.hashString "a" = 97%Z /\
  Sites.hashString "portal:root" = 279531728%Z /\
  Sites.hashString "dev:pyweb" = 1307735802%Z /\
  Sites.hashString "polygenelubricants" = (2 ^ 31)%Z.
Proof. vm_compute. repeat split. Qed.

(** ** Site data: colours *)

Lemma remainder_2_range (a : R) : 0 <= a -> 0 <= Sites.remainder a 2 < 2.
Proof.
  intros Ha; unfold Sites.remainder, Sites.trunc.
  rewrite Rltb_ge by lra.
  destruct (base_Int_part (a / 2)) as [Hle Hgt]; lra.
Qed.

Lemma Math_round_byte (v : R) :
  0 <= v <= 1 -> (0 <= Sites.Math_round (v * 255) <= 255)%Z.
Proof.
  intros Hv; unfold Sites.Math_round.
  apply Int_part_between; lra.
Qed.

Lemma hslChannels_range (hue saturation lightness : R) :
  0 <= hue -> 0 <= saturation <= 100 -> 0 <= lightness <= 100 ->
  let '(r, g, b, m) := Sites.hslChannels hue saturation lightness in
  0 <= r + m <= 1 /\ 0 <= g + m <= 1 /\ 0 <= b + m <= 1.
Proof.
  intros Hh Hs Hl; unfold Sites.hslChannels.
  set (s := saturation / 100).
  set (l := lightness / 100).
  set (chroma := (1 - Rabs (2 * l - 1)) * s).
  set (x := chroma * (1 - Rabs (Sites.remainder (hue / 60) 2 - 1))).
  assert (Hs' : 0 <= s <= 1) by (unfold s; lra).
  assert (Hl' : 0 <= l <= 1) by (unfold l; lra).
  assert (Hk : 0 <= 1 - Rabs (2 * l - 1) <= 1 /\
               1 - Rabs (2 * l - 1) <= 2 * l /\
               1 - Rabs (2 * l - 1) <= 2 - 2 * l).
  { unfold Rabs; destruct (Rcase_abs _); lra. }
  assert (Hc : 0 <= chroma <= 1 - Rabs (2 * l - 1)) by (unfold chroma; nra).
  assert (Hx : 0 <= x <= chroma).
  { pose proof (remainder_2_range (hue / 60) ltac:(lra)) as Hr.
    assert (0 <= 1 - Rabs (Sites.remainder (hue / 60) 2 - 1) <= 1)
      by (unfold Rabs; destruct (Rcase_abs _); lra).
    unfold x; nra. }
  destruct (negb (Rltb (hue / 60) 0) && Rltb (hue / 60) 1);
    [|destruct (Rltb (hue / 60) 2); [|destruct (Rltb (hue / 60) 3);
       [|destruct (Rltb (hue / 60) 4); [|destruct (Rltb (hue / 60) 5)]]]];
    repeat split; lra.
Qed.

Lemma shiftLeft_byte (byte k : Z) :
  (0 <= byte <= 255)%Z -> (0 <= k <= 16)%Z ->
  Sites.shiftLeft byte k = (byte * 2 ^ k)%Z.
Proof.
  intros Hb Hk; unfold Sites.shiftLeft.
  assert (H16 : (0 < 2 ^ k <= 2 ^ 16)%Z)
    by (split; [apply Z.pow_pos_nonneg | apply Z.pow_le_mono_r]; lia).
  rewrite (toInt32_small byte) by lia.
  apply toInt32_small; nia.
Qed.

Lemma hslBytes_range (hue saturation lightness : R) :
  0 <= hue -> 0 <= saturation <= 100 -> 0 <= lightness <= 100 ->
  let '(red, green, blue) := Sites.hslBytes hue saturation lightness in
  (0 <= red <= 255 /\ 0 <= green <= 255 /\ 0 <= blue <= 255)%Z.
Proof.
  intros Hh Hs Hl.
  pose proof (hslChannels_range hue saturation lightness Hh Hs Hl) as Hc.
  unfold Sites.hslBytes.
  destruct (Sites.hslChannels hue saturation lightness) as [[[r g] b] m].
  destruct Hc as (Hr & Hg & Hb).
  repeat split; apply Math_round_byte; assumption.
Qed.

Lemma hslToHex_range (hue saturation lightness : R) :
  0 <= hue -> 0 <= saturation <= 100 -> 0 <= lightness <= 100 ->
  (0 <= Sites.hslToHex hue saturation lightness <= 16777215)%Z.
Proof.
  intros Hh Hs Hl.
  pose proof (hslBytes_range hue saturation lightness Hh Hs Hl) as Hb.
  unfold Sites.hslToHex.
  destruct (Sites.hslBytes hue saturation lightness) as [[red green] blue].
  rewrite !shiftLeft_byte by lia.
  change (2 ^ 16)%Z with 65536%Z; change (2 ^ 8)%Z with 256%Z; lia.
Qed.

(** X2: For a hue that is not negative and saturation and lightness between 0
    and 100, the three channels of [hslToHex] are bytes and the result is
    the 24 bit colour that packs them: red, green and blue are read back
    from it. *)
Theorem hslToHex_packs_bytes (hue saturation lightness : R)
    (Hh : 0 <= hue) (Hs : 0 <= saturation <= 100) (Hl : 0 <= lightness <= 100) :
  let '(red, green, blue) := Sites.hslBytes hue saturation lightness in
  let hex := Sites.hslToHex hue saturation lightness in
  (0 <= red <= 255 /\ 0 <= green <= 255 /\ 0 <= blue <= 255)%Z /\
  hex = (red * 65536 + green * 256 + blue)%Z /\
  (0 <= hex <= 16777215)%Z /\
  (hex / 65536 = red /\ (hex / 256) mod 256 = green /\ hex mod 256 = blue)%Z.
Proof.
  pose proof (hslBytes_range hue saturation lightness Hh Hs Hl) as Hb.
  unfold Sites.hslToHex.
  destruct (Sites.hslBytes hue saturation lightness) as [[red green] blue].
  rewrite !shiftLeft_byte by lia.
  change (2 ^ 16)%Z with 65536%Z; change (2 ^ 8)%Z with 256%Z.
  split; [lia|].
  split; [reflexivity|].
  split; [lia|].
  repeat split.
  - symmetry; apply (Z.div_unique _ _ _ (green * 256 + blue)); lia.
  - replace ((red * 65536 + green * 256 + blue) / 256)%Z
      with (red * 256 + green)%Z
      by (apply (Z.div_unique _ _ _ blue); lia).
    symmetry; apply (Z.mod_unique _ _ red); lia.
  - symmetry; apply (Z.mod_unique _ _ (red * 256 + green)); lia.
Qed.

Lemma hslToHex_packs_bytes_witness :
  let '(red, green, blue) := Sites.hslBytes 212 40 60 in
  let hex := Sites.hslToHex 212 40 60 in
  (0 <= red <= 255 /\ 0 <= green <= 255 /\ 0 <= blue <= 255)%Z /\
  hex = (red * 65536 + green * 256 + blue)%Z /\
  (0 <= hex <= 16777215)%Z /\
  (hex / 65536 = red /\ (hex / 256) mod 256 = green /\ hex mod 256 = blue)%Z.
Proof.
  apply (hslToHex_packs_bytes 212 40 60); lra.
Defined.

Lemma CATEGORY_BASE_HUE_range (key : string) (hue : Z) :
  Sites.lookup key Sites.CATEGORY_BASE_HUE = Some hue -> (0 <= hue < 360)%Z.
Proof.
  unfold Sites.CATEGORY_BASE_HUE; cbn [Sites.lookup].
  repeat (destruct (String.eqb _ key); [intros [= <-]; lia|]).
  discriminate.
Qed.

(** X3: A colour given in the seed is returned as it is.  Otherwise, for a
    category that is not a name inherited from [Object.prototype],
    [hslToHex] is called with a hue in [0, 360), a saturation in [34, 48]
    and a lightness in [58, 68]; for a category of the table the hue is
    within 7 of the category's base hue, modulo 360; the colour is a 24 bit
    number. *)
Theorem resolveColor_generated_range (site : Sites.SiteSeed) :
  (forall value, Sites.color site = Some value ->
     Sites.resolveColor site = value) /\
  (Sites.color site = None ->
   ~ In (Sites.category site) Sites.inheritedKeys ->
   let '(hue, saturation, lightness) := Sites.colorArguments site in
   (0 <= hue < 360 /\ 34 <= saturation <= 48 /\ 58 <= lightness <= 68)%Z /\
   (forall base,
      Sites.lookup (Sites.category site) Sites.CATEGORY_BASE_HUE = Some base ->
      exists offset, (- 7 <= offset <= 7)%Z /\ hue = ((base + offset) mod 360)%Z) /\
   Sites.resolveColor site
   = Sites.hslToHex (IZR hue) (IZR saturation) (IZR lightness) /\
   (0 <= Sites.resolveColor site <= 16777215)%Z).
Proof.
  split.
  - intros value Hc; unfold Sites.resolveColor; rewrite Hc; reflexivity.
  - intros Hc _.
    unfold Sites.resolveColor; rewrite Hc.
    unfold Sites.colorArguments.
    set (hash := Sites.hashString _).
    pose proof (hashString_range
                  (Sites.category site ++ ":" ++ Sites.id site)%string) as Hh.
    fold hash in Hh.
    set (baseHue := match Sites.lookup _ _ with Some h => h | None => _ end).
    assert (Hb : (0 <= baseHue < 360)%Z).
    { unfold baseHue.
      destruct (Sites.lookup _ _) eqn:Hl.
      - exact (CATEGORY_BASE_HUE_range _ _ Hl).
      - rewrite Z.rem_mod_nonneg by lia.
        apply Z.mod_pos_bound; lia. }
    assert (H15 : (0 <= Z.rem hash 15 < 15)%Z)
      by (rewrite Z.rem_mod_nonneg by lia; apply Z.mod_pos_bound; lia).
    assert (H19 : (0 <= Z.rem (hash / 19) 15 < 15)%Z).
    { rewrite Z.rem_mod_nonneg by (try apply Z.div_pos; lia).
      apply Z.mod_pos_bound; lia. }
    assert (H37 : (0 <= Z.rem (hash / 37) 11 < 11)%Z).
    { rewrite Z.rem_mod_nonneg by (try apply Z.div_pos; lia).
      apply Z.mod_pos_bound; lia. }
    assert (Hhue : (Z.rem (baseHue + (Z.rem hash 15 - 7) + 360) 360
                    = (baseHue + (Z.rem hash 15 - 7)) mod 360)%Z).
    { rewrite Z.rem_mod_nonneg by lia.
      replace (baseHue + (Z.rem hash 15 - 7) + 360)%Z
        with (baseHue + (Z.rem hash 15 - 7) + 1 * 360)%Z by lia.
      apply Z.mod_add; lia. }
    assert (Hrange : (0 <= Z.rem (baseHue + (Z.rem hash 15 - 7) + 360) 360 < 360)%Z)
      by (rewrite Hhue; apply Z.mod_pos_bound; lia).
    cbv beta iota zeta.
    split; [lia|].
    split.
    { intros base Hl.
      exists (Z.rem hash 15 - 7)%Z; split; [lia|].
      rewrite Hhue; unfold baseHue; rewrite Hl; reflexivity. }
    split; [reflexivity|].
    apply hslToHex_range; [apply IZR_le; lia | split; apply IZR_le; lia ..].
Qed.

(** Pure red: hue 0 at full saturation and half lightness. *)
Example hslToHex_red : Sites.hslToHex 0 100 50 = 16711680%Z.
Proof.
  assert (Hr : Sites.remainder (0 / 60) 2 = 0).
  { unfold Sites.remainder, Sites.trunc.
    rewrite Rltb_ge by lra.
    rewrite (Int_part_is _ 0) by lra; lra. }
  assert (Hc : Sites.hslChannels 0 100 50 = (1, 0, 0, 0)).
  { unfold Sites.hslChannels; rewrite Hr.
    rewrite (Rltb_ge (0 / 60) 0), (Rltb_lt (0 / 60) 1) by lra; simpl.
    replace (2 * (50 / 100) - 1) with 0 by lra.
    replace (0 - 1) with (- (1)) by lra.
    rewrite Rabs_R0, Rabs_Ropp, Rabs_R1.
    repeat f_equal; lra. }
  unfold Sites.hslToHex, Sites.hslBytes; rewrite Hc.
  unfold Sites.Math_round.
  rewrite (Int_part_is ((1 + 0) * 255 + 0.5) 255) by lra.
  rewrite (Int_part_is ((0 + 0) * 255 + 0.5) 0) by lra.
  reflexivity.
Qed.

Lemma resolveColor_generated_range_witness :
  Sites.colorArguments SiteExamples.seedChat = (224, 40, 67)%Z /\
  (0 <= Sites.resolveColor SiteExamples.seedChat <= 16777215)%Z /\
  Sites.resolveColor SiteExamples.seedExternal = 0%Z.
Proof.
  split; [vm_compute; reflexivity|].
  split.
  - destruct (resolveColor_generated_range SiteExamples.seedChat) as [_ H].
    assert (Hk : ~ In (Sites.category SiteExamples.seedChat) Sites.inheritedKeys)
      by (simpl; intuition discriminate).
    specialize (H eq_refl Hk).
    destruct (Sites.colorArguments SiteExamples.seedChat) as [[hue saturation] lightness].
    apply H.
  - apply (resolveColor_generated_range SiteExamples.seedExternal); reflexivity.
Defined.

(** The colour of the chat seed: hash 1043778710, hue 224, saturation 40,
    lightness 67, which is the colour (137, 155, 205). *)
Example resolveColor_chat :
  Sites.hashString "ai:chat" = 1043778710%Z /\
  Sites.colorArguments SiteExamples.seedChat = (224, 40, 67)%Z /\
  Sites.resolveColor SiteExamples.seedChat = 9018317%Z.
Proof.
  split; [vm_compute; reflexivity|].
  assert (Ha : Sites.colorArguments SiteExamples.seedChat = (224, 40, 67)%Z)
    by (vm_compute; reflexivity).
  split; [exact Ha|].
  unfold Sites.resolveColor; rewrite Ha.
  change (Sites.color SiteExamples.seedChat) with (@None Z); cbv iota beta.
  assert (Hr : Sites.remainder (224 / 60) 2 = 224 / 60 - 2).
  { unfold Sites.remainder, Sites.trunc.
    rewrite Rltb_ge by lra.
    rewrite (Int_part_is _ 1) by lra; lra. }
  assert (Hc : Sites.hslChannels 224 40 67
               = (0, 0.264 * (1 - (224 / 60 - 2 - 1)), 0.264, 0.67 - 0.264 / 2)).
  { unfold Sites.hslChannels; rewrite Hr.
    rewrite (Rltb_ge (224 / 60) 0), (Rltb_ge (224 / 60) 1), (Rltb_ge (224 / 60) 2),
      (Rltb_ge (224 / 60) 3),
      (Rltb_lt (224 / 60) 4) by lra.
    cbn [negb andb].
    rewrite (Rabs_right (2 * (67 / 100) - 1)) by lra.
    rewrite (Rabs_right (224 / 60 - 2 - 1)) by lra.
    repeat f_equal; lra. }
  unfold Sites.hslToHex, Sites.hslBytes; rewrite Hc.
  unfold Sites.Math_round.
  rewrite (Int_part_is ((0 + (0.67 - 0.264 / 2)) * 255 + 0.5) 137) by lra.
  rewrite (Int_part_is
             ((0.264 * (1 - (224 / 60 - 2 - 1)) + (0.67 - 0.264 / 2)) * 255 + 0.5) 155)
    by lra.
  rewrite (Int_part_is ((0.264 + (0.67 - 0.264 / 2)) * 255 + 0.5) 205) by lra.
  reflexivity.
Qed.

(** ** Site data: addresses *)

Lemma present_Some (value : option string) (text : string) :
  Sites.present value = Some text <-> value = Some text /\ text <> EmptyString.
Proof.
  destruct value as [[|c v]|]; simpl; split.
  - discriminate.
  - intros [[= <-] H]; congruence.
  - intros [= <-]; split; [reflexivity | discriminate].
  - intros [[= <-] _]; reflexivity.
  - discriminate.
  - intros [H _]; discriminate.
Qed.

Lemma present_None (value : option string) :
  Sites.present value = None <-> value = None \/ value = Some EmptyString.
Proof.
  destruct value as [[|c v]|]; simpl; split; intros H.
  - right; reflexivity.
  - reflexivity.
  - discriminate.
  - destruct H; discriminate.
  - left; reflexivity.
  - reflexivity.
Qed.

(** X4: The address of a site is never empty.  A non-empty [url] of the seed
    is taken as it is; a missing or empty one is replaced by the https
    address of the base domain, under the subdomain of the seed when that
    is given and not empty. *)
Theorem resolveUrl_falls_back (site : Sites.SiteSeed) :
  Sites.resolveUrl site <> EmptyString /\
  (forall address, Sites.url site = Some address -> address <> EmptyString ->
     Sites.resolveUrl site = address) /\
  (Sites.url site = None \/ Sites.url site = Some EmptyString ->
   Sites.resolveUrl site = Sites.createUrl (Sites.subdomain site) /\
   (forall sub, Sites.subdomain site = Some sub -> sub <> EmptyString ->
      Sites.resolveUrl site = ("https://" ++ sub ++ ".5051001.xyz")%string) /\
   (Sites.subdomain site = None \/ Sites.subdomain site = Some EmptyString ->
      Sites.resolveUrl site = "https://5051001.xyz"%string)).
Proof.
  assert (Hc : forall sub, Sites.createUrl sub <> EmptyString).
  { intros sub; unfold Sites.createUrl.
    destruct (Sites.present sub); discriminate. }
  split; [|split].
  - unfold Sites.resolveUrl.
    destruct (Sites.present (Sites.url site)) as [address|] eqn:Hp; [|apply Hc].
    apply present_Some in Hp; tauto.
  - intros address Hu Hne; unfold Sites.resolveUrl.
    rewrite (proj2 (present_Some _ address)) by tauto; reflexivity.
  - intros Hu; unfold Sites.resolveUrl.
    rewrite (proj2 (present_None _) Hu).
    split; [reflexivity|]; split.
    + intros sub Hs Hne; unfold Sites.createUrl.
      rewrite (proj2 (present_Some _ sub)) by tauto; reflexivity.
    + intros Hs; unfold Sites.createUrl.
      rewrite (proj2 (present_None _) Hs); reflexivity.
Qed.

(** The addresses of the two example seeds. *)
Example resolveUrl_values :
  Sites.resolveUrl SiteExamples.seedChat = "https://chat.5051001.xyz"%string /\
  Sites.resolveUrl SiteExamples.seedExternal = "https://example.org"%string.
Proof. split; reflexivity. Qed.

(** ** Site data: orbit positions *)

Lemma mod3_cases (index : nat) :
  (index mod 3 = 0 \/ index mod 3 = 1 \/ index mod 3 = 2)%nat.
Proof.
  pose proof (Nat.mod_upper_bound index 3 ltac:(lia)); lia.
Qed.

(** X5: A site of even index is placed on the circle of radius 14 about the
    vertical axis, one of odd index on the circle of radius 20, at the
    angle [index / total] of a turn; its height is -5, 0 or 5 as the
    index is 0, 1 or 2 modulo 3. *)
Theorem createOrbitPosition_rings (index total : nat) (Htotal : (0 < total)%nat) :
  let p := Sites.createOrbitPosition index total in
  let angle := INR index / INR total * PI * 2 in
  (Nat.Even index -> p = mkVec3 (cos angle * 14) (vy p) (sin angle * 14) /\
                     hypot (vx p) (vz p) = 14) /\
  (Nat.Odd index -> p = mkVec3 (cos angle * 20) (vy p) (sin angle * 20) /\
                    hypot (vx p) (vz p) = 20) /\
  vy p = 5 * INR (index mod 3) - 5 /\
  (vy p = -5 \/ vy p = 0 \/ vy p = 5).
Proof.
  intros p angle.
  assert (Hh : forall r, 0 <= r -> hypot (cos angle * r) (sin angle * r) = r).
  { intros r Hr; unfold hypot.
    replace (cos angle * r * (cos angle * r) + sin angle * r * (sin angle * r))
      with (((sin angle)² + (cos angle)²) * (r * r)) by (unfold Rsqr; ring).
    rewrite sin2_cos2, Rmult_1_l; apply sqrt_square, Hr. }
  assert (Hy : vy p = 5 * INR (index mod 3) - 5)
    by (unfold p, Sites.createOrbitPosition; simpl; ring).
  split; [|split; [|split]].
  - intros [k ->].
    assert (Hm : ((2 * k) mod 2 =? 0)%nat = true)
      by (rewrite Nat.mul_comm, Nat.Div0.mod_mul; reflexivity).
    unfold p, Sites.createOrbitPosition; fold angle; rewrite Hm; simpl.
    split; [reflexivity | apply Hh; lra].
  - intros [k ->].
    assert (Hm : ((2 * k + 1) mod 2 =? 0)%nat = false).
    { replace (2 * k + 1)%nat with (1 + k * 2)%nat by lia.
      rewrite Nat.Div0.mod_add; reflexivity. }
    unfold p, Sites.createOrbitPosition; fold angle; rewrite Hm; simpl.
    split; [reflexivity | apply Hh; lra].
  - exact Hy.
  - rewrite Hy.
    destruct (mod3_cases index) as [-> | [-> | ->]]; simpl; lra.
Qed.

Lemma createOrbitPosition_rings_witness :
  (0 < 10)%nat /\
  hypot (vx (Sites.createOrbitPosition 3 10)) (vz (Sites.createOrbitPosition 3 10)) = 20 /\
  vy (Sites.createOrbitPosition 3 10) = -5.
Proof.
  split; [lia|].
  pose proof (createOrbitPosition_rings 3 10 ltac:(lia)) as H; cbv zeta in H.
  destruct H as (_ & Hodd & Hy & _).
  split.
  - apply Hodd; exists 1%nat; reflexivity.
  - rewrite Hy; simpl; lra.
Defined.

(** ** The particle fields: where the particles are *)

Lemma hypot_scaled (r theta : R) :
  0 <= r -> hypot (r * cos theta) (r * sin theta) = r.
Proof.
  intros Hr; unfold hypot.
  replace (r * cos theta * (r * cos theta) + r * sin theta * (r * sin theta))
    with (((sin theta)² + (cos theta)²) * (r * r)) by (unfold Rsqr; ring).
  rewrite sin2_cos2, Rmult_1_l; apply sqrt_square, Hr.
Qed.

(** X6: A generated particle of the foreground field lies in a lens about the
    origin: its distance from the vertical axis is 46 times its first draw,
    below 46, and its height is at most 5.5 times the rest of the way to
    the rim, so 5.5 on the axis and 0 at the rim. *)
Theorem generated_particle_in_lens
    (uRadius uTheta uY uPhase uSpeed uAmplitude uTwist uPulse : R)
    (HuRadius : Galaxy.draw uRadius) (HuY : Galaxy.draw uY) :
  let p := Galaxy.generate uRadius uTheta uY uPhase uSpeed uAmplitude uTwist uPulse in
  let radius := hypot (vx (Galaxy.base p)) (vz (Galaxy.base p)) in
  radius = uRadius * 46 /\ 0 <= radius < 46 /\
  Rabs (vy (Galaxy.base p)) <= 5.5 * (1 - radius / 46) /\
  Rabs (vy (Galaxy.base p)) <= 5.5.
Proof.
  intros p radius; unfold Galaxy.draw in *.
  assert (Hr : radius = uRadius * 46).
  { unfold radius, p, Galaxy.generate; simpl; apply hypot_scaled; lra. }
  split; [exact Hr|]; split; [lra|].
  rewrite Hr; unfold p, Galaxy.generate; simpl.
  replace (uRadius * 46 / 46) with uRadius by field.
  split; apply Rabs_le; split; nra.
Qed.

Lemma generated_particle_in_lens_witness :
  let p := Galaxy.generate 0.5 0 0 0 0 0 0 0 in
  Galaxy.draw 0.5 /\ Galaxy.draw 0 /\
  hypot (vx (Galaxy.base p)) (vz (Galaxy.base p)) = 23 /\
  Rabs (vy (Galaxy.base p)) <= 2.75.
Proof.
  assert (H5 : Galaxy.draw 0.5) by (unfold Galaxy.draw; lra).
  assert (H0 : Galaxy.draw 0) by (unfold Galaxy.draw; lra).
  pose proof (generated_particle_in_lens 0.5 0 0 0 0 0 0 0 H5 H0) as H.
  cbv zeta in H |- *; destruct H as (Hr & _ & Hy & _).
  rewrite Hr in Hy.
  split; [exact H5|]; split; [exact H0|]; split; [rewrite Hr; lra|].
  eapply Rle_trans; [exact Hy | lra].
Defined.

(** X7: At every elapsed time the swirl and the pulse keep a particle near
    its base position: its distance from the vertical axis is the base
    distance scaled by the pulse factor, which differs from 1 by at most
    the pulse amplitude of the particle, and its height differs from the
    base height by at most its amplitude. *)
Theorem swirled_near_base (elapsed : R) (p : Galaxy.Particle)
    (Hpulse : 0 <= Galaxy.galaxyPulse p <= 1)
    (Hamplitude : 0 <= Galaxy.galaxyAmplitude p) :
  let q := Galaxy.swirled elapsed p in
  let radius := hypot (vx (Galaxy.base p)) (vz (Galaxy.base p)) in
  (1 - Galaxy.galaxyPulse p) * radius <= hypot (vx q) (vz q)
    <= (1 + Galaxy.galaxyPulse p) * radius /\
  Rabs (vy q - vy (Galaxy.base p)) <= Galaxy.galaxyAmplitude p.
Proof.
  intros q radius.
  unfold q, Galaxy.swirled; cbv zeta; simpl.
  fold radius.
  set (bx := vx (Galaxy.base p)); set (bz := vz (Galaxy.base p)).
  set (swirl := sin _ * Galaxy.galaxyTwist p).
  set (a := sin (elapsed * (Galaxy.galaxySpeed p * 0.72) + _ + _)).
  set (b := sin (elapsed * (Galaxy.galaxySpeed p * 1.38) + _ + _)).
  assert (Ha : -1 <= a <= 1) by apply SIN_bound.
  assert (Hb : -1 <= b <= 1) by apply SIN_bound.
  set (g := Galaxy.galaxyPulse p) in *.
  assert (Hk : 0 <= 1 + a * g) by nra.
  assert (Hrad : 0 <= radius) by apply sqrt_pos.
  assert (Hh : hypot ((bx * cos swirl - bz * sin swirl) * (1 + a * g))
                 ((bx * sin swirl + bz * cos swirl) * (1 + a * g))
               = (1 + a * g) * radius).
  { unfold hypot, radius, hypot; fold bx bz.
    replace ((bx * cos swirl - bz * sin swirl) * (1 + a * g) *
             ((bx * cos swirl - bz * sin swirl) * (1 + a * g)) +
             (bx * sin swirl + bz * cos swirl) * (1 + a * g) *
             ((bx * sin swirl + bz * cos swirl) * (1 + a * g)))
      with ((1 + a * g) * (1 + a * g) *
            (((sin swirl)² + (cos swirl)²) * (bx * bx + bz * bz)))
      by (unfold Rsqr; ring).
    rewrite sin2_cos2, Rmult_1_l.
    rewrite sqrt_mult_alt by nra.
    rewrite sqrt_square by exact Hk; reflexivity. }
  rewrite Hh.
  assert (Hgr : 0 <= g * radius) by nra.
  split.
  { replace ((1 + a * g) * radius) with (radius + a * (g * radius)) by ring.
    split; nra. }
  replace (vy (Galaxy.base p) + b * Galaxy.galaxyAmplitude p - vy (Galaxy.base p))
    with (b * Galaxy.galaxyAmplitude p) by ring.
  apply Rabs_le; split; nra.
Qed.

Lemma swirled_near_base_witness :
  let p := Galaxy.generate 0.5 0 0 0 0 0 0 0 in
  Rabs (vy (Galaxy.swirled 7 p) - vy (Galaxy.base p)) <= 0.08.
Proof.
  cbv zeta.
  eapply Rle_trans;
    [apply (swirled_near_base 7 (Galaxy.generate 0.5 0 0 0 0 0 0 0)); simpl; lra|].
  simpl; lra.
Defined.

(** X8: The disturbance moves a particle only when the weight is above 0.001
    and the particle is within the radius 18 of the disturbance point.
    For a weight that is not negative it then moves it horizontally by at
    most 0.62 times the weight, at a right angle to its horizontal offset
    from the disturbance point, and vertically by at most 0.4836 times the
    weight. *)
Theorem disturbance_displacement_bounded (elapsed disturbWeight : R)
    (disturbCurrent : Vec3) (p : Galaxy.Particle) (Hweight : 0 <= disturbWeight) :
  let pos := Galaxy.swirled elapsed p in
  let live := Galaxy.livePosition elapsed disturbWeight disturbCurrent p in
  let moveX := vx live - vx pos in
  let moveY := vy live - vy pos in
  let moveZ := vz live - vz pos in
  (disturbWeight <= 0.001 \/
   DISTURB_RADIUS * DISTURB_RADIUS <= Vector3.distanceToSquared pos disturbCurrent ->
   live = pos) /\
  hypot moveX moveZ <= DISTURB_INTENSITY * disturbWeight /\
  moveX * (vx pos - vx disturbCurrent) + moveZ * (vz pos - vz disturbCurrent) = 0 /\
  Rabs moveY <= 0.4836 * disturbWeight.
Proof.
  intros pos live moveX moveY moveZ.
  assert (Hzero : live = pos ->
            hypot moveX moveZ <= DISTURB_INTENSITY * disturbWeight /\
            moveX * (vx pos - vx disturbCurrent)
              + moveZ * (vz pos - vz disturbCurrent) = 0 /\
            Rabs moveY <= 0.4836 * disturbWeight).
  { intros He; unfold moveX, moveY, moveZ; rewrite He.
    replace (vx pos - vx pos) with 0 by ring.
    replace (vy pos - vy pos) with 0 by ring.
    replace (vz pos - vz pos) with 0 by ring.
    rewrite hypot_0_0, Rabs_R0; unfold DISTURB_INTENSITY.
    repeat split; try nra; ring. }
  subst moveX moveY moveZ live.
  unfold Galaxy.livePosition in *; fold pos in Hzero |- *.
  clearbody pos.
  cbv zeta in *.
  unfold Vector3.distanceToSquared; cbv zeta.
  set (dx := vx pos - vx disturbCurrent) in *.
  set (dy := vy pos - vy disturbCurrent) in *.
  set (dz := vz pos - vz disturbCurrent) in *.
  set (distSq := dx * dx + dy * dy + dz * dz) in *.
  unfold Rgtb in *.
  destruct (Rltb 0.001 disturbWeight) eqn:Hw;
    [|split; [reflexivity | apply Hzero; reflexivity]].
  apply Rltb_true in Hw.
  destruct (Rltb distSq (DISTURB_RADIUS * DISTURB_RADIUS)) eqn:Hd;
    [|split; [reflexivity | apply Hzero; reflexivity]].
  apply Rltb_true in Hd; unfold DISTURB_RADIUS in *.
  clear Hzero.
  split; [intros [H | H]; exfalso; lra|].
  set (root := sqrt distSq) in *.
  assert (Hsq : 0 <= distSq) by (unfold distSq; nra).
  assert (Hroot : 0 <= root) by apply sqrt_pos.
  assert (Hrr : root * root = distSq) by (apply sqrt_sqrt, Hsq).
  assert (Hr18 : root < 18) by nra.
  set (dist := root + 0.0001) in *.
  assert (Hdist : 0 < dist) by (unfold dist; lra).
  set (falloff := 1 - dist / 18).
  assert (Hf : -1 <= falloff <= 1) by (unfold falloff, dist; lra).
  assert (Hff : 0 <= falloff * falloff <= 1) by nra.
  set (force := falloff * falloff * DISTURB_INTENSITY * disturbWeight).
  assert (Hforce : 0 <= force <= DISTURB_INTENSITY * disturbWeight).
  { unfold force, DISTURB_INTENSITY.
    replace (falloff * falloff * 0.62 * disturbWeight)
      with (falloff * falloff * (0.62 * disturbWeight)) by ring.
    assert (0 <= 0.62 * disturbWeight) by lra.
    split; nra. }
  set (wave := sin _).
  assert (Hwave : -1 <= wave <= 1) by apply SIN_bound.
  simpl.
  replace (vx pos + - dz / dist * force - vx pos) with (- dz / dist * force) by ring.
  replace (vy pos + wave * force * 0.78 - vy pos) with (wave * force * 0.78) by ring.
  replace (vz pos + dx / dist * force - vz pos) with (dx / dist * force) by ring.
  split; [|split].
  - unfold hypot.
    replace (- dz / dist * force * (- dz / dist * force)
             + dx / dist * force * (dx / dist * force))
      with ((dx * dx + dz * dz) / (dist * dist) * (force * force))
      by (field; lra).
    assert (Hq : 0 <= (dx * dx + dz * dz) / (dist * dist) <= 1).
    { assert (Hdd : 0 < dist * dist) by nra.
      split.
      - apply Rmult_le_pos; [nra | left; apply Rinv_0_lt_compat, Hdd].
      - apply (Rmult_le_reg_r (dist * dist)); [exact Hdd|].
        replace ((dx * dx + dz * dz) / (dist * dist) * (dist * dist))
          with (dx * dx + dz * dz) by (field; lra).
        assert (Hy2 : 0 <= dy * dy) by nra.
        assert (Hdr : root * root <= dist * dist) by (unfold dist; nra).
        unfold distSq in Hrr; lra. }
    apply Rle_trans with (sqrt (force * force)).
    + apply sqrt_le_1_alt.
      assert (Hf2 : 0 <= force * force) by nra.
      set (ratio := (dx * dx + dz * dz) / (dist * dist)) in *.
      apply Rle_trans with (1 * (force * force)); [|lra].
      apply Rmult_le_compat_r; tauto.
    + rewrite sqrt_square by tauto; tauto.
  - field; lra.
  - apply Rabs_le; unfold DISTURB_INTENSITY in Hforce; split; nra.
Qed.

Lemma disturbance_displacement_bounded_witness :
  let p := Galaxy.generate 0.5 0 0 0 0 0 0 0 in
  let pos := Galaxy.swirled 1 p in
  let live := Galaxy.livePosition 1 1 (mkVec3 0 0 0) p in
  0 <= 1 /\ Rabs (vy live - vy pos) <= 0.4836 * 1.
Proof.
  cbv zeta; split; [lra|].
  apply (disturbance_displacement_bounded 1 1 (mkVec3 0 0 0)
           (Galaxy.generate 0.5 0 0 0 0 0 0 0)); lra.
Defined.

(** X9: A star of the deep field lies on the sphere about the origin whose
    radius is 58 plus 140 times its third draw, between 58 and 198; its
    height is the radius times [2 u - 1] for its second draw [u]; its
    three colour channels are the same tone between 0.6 and 0.85.  So the
    deep field stays outside the foreground field, which ends below 46. *)
Theorem deep_star_on_shell (uTheta uPhi uRadius uTone : R)
    (HuPhi : Galaxy.draw uPhi) (HuRadius : Galaxy.draw uRadius)
    (HuTone : Galaxy.draw uTone) :
  let star := DeepField.generate uTheta uPhi uRadius uTone in
  let radius := 58 + uRadius * 140 in
  Vector3.length (DeepField.starPosition star) = radius /\
  58 <= radius < 198 /\
  vy (DeepField.starPosition star) = radius * (2 * uPhi - 1) /\
  0.6 <= DeepField.tone star < 0.85.
Proof.
  intros star radius; unfold Galaxy.draw in *.
  unfold star, DeepField.generate; cbv zeta; simpl; fold radius.
  set (phi := acos (2 * uPhi - 1)).
  set (theta := uTheta * PI * 2).
  split; [|split; [unfold radius; lra | split]].
  - unfold Vector3.length, Vector3.lengthSq; simpl.
    replace (radius * sin phi * cos theta * (radius * sin phi * cos theta)
             + radius * cos phi * (radius * cos phi)
             + radius * sin phi * sin theta * (radius * sin phi * sin theta))
      with (radius * radius *
            ((sin phi)² * ((sin theta)² + (cos theta)²) + (cos phi)²))
      by (unfold Rsqr; ring).
    rewrite sin2_cos2, Rmult_1_r, sin2_cos2, Rmult_1_r.
    apply sqrt_square; unfold radius; lra.
  - unfold phi; rewrite cos_acos by lra; reflexivity.
  - lra.
Qed.

Lemma deep_star_on_shell_witness :
  let star := DeepField.generate 0 0.5 0.5 0 in
  Vector3.length (DeepField.starPosition star) = 128 /\
  vy (DeepField.starPosition star) = 0.
Proof.
  assert (H5 : Galaxy.draw 0.5) by (unfold Galaxy.draw; lra).
  assert (H0 : Galaxy.draw 0) by (unfold Galaxy.draw; lra).
  pose proof (deep_star_on_shell 0 0.5 0.5 0 H5 H5 H0) as H.
  cbv zeta in H |- *; destruct H as (Hl & _ & Hy & _).
  split; [rewrite Hl; lra | rewrite Hy; lra].
Defined.

(** ** The constellation: its size and its curves *)

Lemma length_flat_map_indexed {A B : Type} (f : A * nat -> list B) (g : nat -> nat)
    (l : list A) (s : nat) :
  (forall a k, List.length (f (a, k)) = g k) ->
  List.length (flat_map f (combine l (seq s (List.length l))))
  = list_sum (map g (seq s (List.length l))).
Proof.
  intros Hf; revert s; induction l as [|a l IH]; intros s; simpl; [reflexivity|].
  rewrite length_app, Hf, IH; reflexivity.
Qed.

Lemma sum_min_two (k s : nat) :
  list_sum (map (fun i => Nat.min 2 (s + k - 1 - i)) (seq s k)) = (2 * k - 3)%nat.
Proof.
  revert s; induction k as [|k IH]; intros s; [reflexivity|].
  cbn [seq map list_sum fold_right].
  assert (H : fold_right Nat.add 0%nat
                (map (fun i => Nat.min 2 (s + S k - 1 - i)) (seq (S s) k))
              = (2 * k - 3)%nat).
  { rewrite <- (IH (S s)); unfold list_sum; f_equal.
    apply map_ext; intros i; f_equal; lia. }
  rewrite H.
  replace (s + S k - 1 - s)%nat with k by lia.
  destruct k as [|[|k]]; simpl; lia.
Qed.

(** X10: A constellation of [n] nodes has [2 n - 3] curves when [n] is at least
    2, two from every node but the last two, one from the last but one,
    and none otherwise; every curve is drawn as 14 segments, so the line
    geometry gets 28 points for each curve. *)
Theorem constellation_size (sitePoints : list Vec3) :
  List.length (Constellation.edges sitePoints)
  = (2 * List.length sitePoints - 3)%nat /\
  List.length (Constellation.curveSegments sitePoints)
  = (28 * List.length (Constellation.edges sitePoints))%nat /\
  (forall index,
     List.length (Constellation.targets sitePoints index)
     = Nat.min 2 (List.length sitePoints - 1 - index)).
Proof.
  split; [|split].
  - unfold Constellation.edges, Constellation.indexed.
    rewrite (length_flat_map_indexed _
               (fun k => Nat.min 2 (List.length sitePoints - 1 - k)))
      by (intros a k; rewrite length_map; apply candidates_length).
    rewrite <- (sum_min_two (List.length sitePoints) 0); reflexivity.
  - unfold Constellation.curveSegments.
    apply length_flat_map_const; intros e.
    rewrite length_segments; unfold Constellation.getPoints.
    rewrite length_map, length_seq; reflexivity.
  - intros index; unfold Constellation.targets.
    destruct (nth_error sitePoints index) as [from|] eqn:Hn.
    + rewrite length_map; apply candidates_length.
    + apply nth_error_None in Hn; cbn [List.length]; lia.
Qed.


Lemma distance_addScaled (origin direction : Vec3) (k : R) :
  Vector3.lengthSq direction = 1 -> 0 <= k ->
  Vector3.distanceTo (Vector3.addScaledVector origin direction k) origin = k.
Proof.
  intros H1 Hk; unfold Vector3.distanceTo, Vector3.distanceToSquared; simpl.
  unfold Vector3.lengthSq in H1.
  replace ((vx origin + vx direction * k - vx origin)
           * (vx origin + vx direction * k - vx origin)
           + (vy origin + vy direction * k - vy origin)
             * (vy origin + vy direction * k - vy origin)
           + (vz origin + vz direction * k - vz origin)
             * (vz origin + vz direction * k - vz origin))
    with ((vx direction * vx direction + vy direction * vy direction
           + vz direction * vz direction) * (k * k)) by ring.
  rewrite H1, Rmult_1_l; apply sqrt_square, Hk.
Qed.



(** ** Invariants of the mounted scene *)

(** Case analysis of a handler on a scene given by its fields. *)
Ltac handler_cases :=
  repeat (simpl;
          first
            [ match goal with
              | |- context [match ?x with _ => _ end] => is_var x; destruct x
              end
            | match goal with
              | |- context [match ?x with _ => _ end] => destruct x eqn:?
              end ]);
  simpl.

Ltac unfold_handlers :=
  unfold Scene.step, Scene.onPointerMove, Scene.animate, Scene.updateControls,
    Scene.onPointerDown, Scene.onPointerUp, Scene.onPointerLeave, Scene.onClick,
    Scene.onControlStart, Scene.tweenUpdate, Scene.tweenComplete,
    Scene.runOnUpdate, Scene.runOnComplete, Scene.writeTarget, Scene.setHovered,
    Scene.gsapTo, Scene.emit.

Section SceneInvariants.

Import Scene Invariants.

Variable unproject : Vec3 -> Vec3 -> Vec3 -> Vec3.
Variable controlsUpdate : Vec3 * Vec3 -> Vec3 * Vec3.

Local Abbreviation step := (Scene.step unproject controlsUpdate).
Local Abbreviation run := (Scene.run unproject controlsUpdate).
Local Abbreviation animate := (Scene.animate controlsUpdate).
Local Abbreviation onPointerMove := (Scene.onPointerMove unproject).
Local Abbreviation tweenComplete := (Scene.tweenComplete controlsUpdate).
Local Abbreviation tweenUpdate := (Scene.tweenUpdate controlsUpdate).
Local Abbreviation updateControls := (Scene.updateControls controlsUpdate).
Local Abbreviation mount := (Scene.mount controlsUpdate).

Lemma step_controlsEnabled (s : Scene) (a : Action) :
  isFocus a = false -> controlsEnabled (step s a) = controlsEnabled s.
Proof.
  intros Ha; destruct a; try discriminate; destruct s;
    unfold_handlers; handler_cases; reflexivity.
Qed.

Lemma map_groupPosition_replaceAt (m : nat) (v : Vec3) (l : list NodeGroup) :
  map groupPosition (replaceAt m (setScale v) l) = map groupPosition l.
Proof.
  revert m; induction l as [|g l IH]; intros [|m]; simpl; try reflexivity.
  rewrite IH; reflexivity.
Qed.

Lemma step_hover_fields (s : Scene) (a : Action) :
  match a with
  | PointerDown _ _ | PointerUp | PointerLeave | TweenUpdate _ _ =>
      emitted (step s a) = emitted s
  | Click | TweenComplete _ =>
      exists new, emitted (step s a) = emitted s ++ new /\ hoverChanges new = []
  | _ => True
  end /\
  match a with
  | PointerDown _ _ | PointerUp | PointerLeave | TweenUpdate _ _
  | Click | TweenComplete _ =>
      currentHovered (step s a) = currentHovered s /\
      pointerClient (step s a) = pointerClient s /\
      cursor (step s a) = cursor s
  | _ => True
  end.
Proof.
  destruct a; try (split; exact I); destruct s;
    unfold_handlers; handler_cases;
    repeat split;
    try (exists []; rewrite app_nil_r; split; reflexivity);
    try (eexists; split; reflexivity).
Qed.

(** *** The page follows the hover of the scene *)

Lemma receiveAll_app (a : App.AppState) (l1 l2 : list Callback) :
  App.receiveAll a (l1 ++ l2) = App.receiveAll (App.receiveAll a l1) l2.
Proof. apply fold_left_app. Qed.

Lemma hoverState_other_calls (new : list Callback) (a : App.AppState) :
  hoverChanges new = [] ->
  App.hoverState (App.receiveAll a new) = App.hoverState a.
Proof.
  revert a; induction new as [|c new IH]; intros a H; [reflexivity|].
  destruct c; try discriminate; simpl in *; rewrite IH by exact H; reflexivity.
Qed.

Lemma hoverState_last_call (calls : list Callback) (h : HoverState) (a : App.AppState) :
  App.hoverState (App.receiveAll a (calls ++ [onHoverChange h])) = h.
Proof. rewrite receiveAll_app; reflexivity. Qed.

Lemma synced_same (s s' : Scene) :
  (exists new, emitted s' = emitted s ++ new /\ hoverChanges new = []) ->
  currentHovered s' = currentHovered s -> pointerClient s' = pointerClient s ->
  cursor s' = cursor s -> hoverSynced s -> hoverSynced s'.
Proof.
  intros (new & He & Hn) Hh Hp Hc [Hs Hcur].
  unfold hoverSynced, pageHover, hoverOf, cursorShowsHover in *.
  rewrite He, receiveAll_app, hoverState_other_calls, Hh, Hp, Hc by exact Hn.
  split; assumption.
Qed.

Lemma synced_setHovered (nextHovered : option NodeMesh) (s : Scene) :
  hoverSynced s -> hoverSynced (setHovered nextHovered s).
Proof.
  intros Hs.
  destruct (sameMesh (currentHovered s) nextHovered) eqn:Hsame.
  - rewrite setHovered_same by exact Hsame; exact Hs.
  - unfold hoverSynced, pageHover, hoverOf, cursorShowsHover.
    rewrite (setHovered_emitted _ _ Hsame), (setHovered_currentHovered _ _ Hsame),
      (setHovered_cursor _ _ Hsame), setHovered_pointerClient, hoverState_last_call.
    destruct nextHovered; split; try reflexivity; discriminate.
Qed.

Lemma onPointerMove_hover (cx cy w h : R) (s : Scene) :
  emitted (onPointerMove cx cy w h s)
  = emitted s ++
    match currentHovered s with
    | Some m => [onHoverChange (mkHoverState (Some (userData_site m)) cx cy)]
    | None => []
    end /\
  currentHovered (onPointerMove cx cy w h s) = currentHovered s /\
  pointerClient (onPointerMove cx cy w h s) = (cx, cy) /\
  cursor (onPointerMove cx cy w h s) = cursor s.
Proof.
  destruct s; unfold_handlers; handler_cases;
    rewrite ?app_nil_r; repeat split.
Qed.

(** What the focus effect leaves as it is, and what it does to the hover. *)
Lemma focus_tail_fields (x : Scene) (to1 to2 : Vec3) (dur : R) (e : Ease)
    (compl : option SiteNode) :
  let g1 := gsapTo CameraPosition to1 dur e false false None x in
  let s6 := setRuntime (set_cameraTween (Some (snd g1))) (fst g1) in
  let g2 := gsapTo ControlsTarget to2 dur e false true compl s6 in
  let s' := setRuntime (set_targetTween (Some (snd g2))) (fst g2) in
  emitted s' = emitted x /\ currentHovered s' = currentHovered x /\
  pointerClient s' = pointerClient x /\ cursor s' = cursor x /\
  children s' = children x /\ nodesRotationY s' = nodesRotationY x /\
  cameraPosition s' = cameraPosition x /\ controlsTarget s' = controlsTarget x /\
  disturbWeight s' = disturbWeight x /\
  disturbWeightTarget s' = disturbWeightTarget x.
Proof.
  destruct x as [? ? ? ? ? ? ? ? ? ? ? ? ? ? ? ? ? [rt|] ? ?];
    cbv zeta; unfold setRuntime, gsapTo; simpl; repeat split.
Qed.

Lemma focusPrelude_fields (focusSite : option SiteNode) (rt : SceneRuntime) (s : Scene) :
  runtime s = Some rt ->
  let x := focusPrelude focusSite rt s in
  emitted x
  = (emitted s ++
     match currentHovered s with
     | Some _ => [onHoverChange (mkHoverState None 0 0)]
     | None => []
     end) ++
    match focusSite with
    | Some _ => []
    | None => [onHoverChange (mkHoverState None 0 0)]
    end /\
  currentHovered x = None /\
  pointerClient x = pointerClient s /\
  cursor x = match currentHovered s with
             | Some _ => CursorDefault
             | None => cursor s
             end /\
  children x = children s /\ nodesRotationY x = nodesRotationY s /\
  cameraPosition x = cameraPosition s /\ controlsTarget x = controlsTarget s /\
  disturbWeight x = disturbWeight s /\
  disturbWeightTarget x = disturbWeightTarget s.
Proof.
  intros Hrt; destruct s; simpl in Hrt; subst; destruct rt.
  unfold focusPrelude, kill, setRuntime, clearHover, setHovered, gsapTo, emit.
  handler_cases; rewrite ?app_nil_r; repeat split.
Qed.

Lemma focusEffect_fields (focusSite : option SiteNode) (s : Scene) (rt : SceneRuntime) :
  runtime s = Some rt ->
  let s' := focusEffect focusSite s in
  emitted s'
  = (emitted s ++
     match currentHovered s with
     | Some _ => [onHoverChange (mkHoverState None 0 0)]
     | None => []
     end) ++
    match focusSite with
    | Some _ => []
    | None => [onHoverChange (mkHoverState None 0 0)]
    end /\
  currentHovered s' = None /\
  pointerClient s' = pointerClient s /\
  cursor s' = match currentHovered s with
              | Some _ => CursorDefault
              | None => cursor s
              end /\
  children s' = children s /\ nodesRotationY s' = nodesRotationY s /\
  cameraPosition s' = cameraPosition s /\ controlsTarget s' = controlsTarget s /\
  disturbWeight s' = disturbWeight s /\
  disturbWeightTarget s' = disturbWeightTarget s.
Proof.
  intros Hrt s'; unfold s'.
  rewrite (focusEffect_eq focusSite s rt Hrt); cbv zeta.
  destruct (focusPrelude_fields focusSite rt s Hrt)
    as (H1 & H2 & H3 & H4 & H5 & H6 & H7 & H8 & H9 & H10).
  match goal with
  | |- context [gsapTo CameraPosition ?to1 ?dur ?e false false None ?x] =>
      match goal with
      | |- context [gsapTo ControlsTarget ?to2 dur e false true ?compl _] =>
          destruct (focus_tail_fields x to1 to2 dur e compl)
            as (T1 & T2 & T3 & T4 & T5 & T6 & T7 & T8 & T9 & T10)
      end
  end.
  cbv zeta in T1, T2, T3, T4, T5, T6, T7, T8, T9, T10.
  rewrite T1, T2, T3, T4, T5, T6, T7, T8, T9, T10.
  repeat split; assumption.
Qed.

Lemma synced_step (s : Scene) (a : Action) :
  (exists rt, runtime s = Some rt) -> hoverSynced s -> hoverSynced (step s a).
Proof.
  intros [rt Hrt] Hs.
  pose proof (step_hover_fields s a) as [He Hf].
  destruct a;
    try (destruct Hf as (Hh & Hp & Hc);
         apply (synced_same s); try assumption;
         try (exists []; rewrite app_nil_r; split; [exact He | reflexivity]);
         fail).
  - (* pointer move *)
    destruct (onPointerMove_hover clientX clientY innerWidth innerHeight s)
      as (Hem & Hh & Hp & Hc).
    destruct Hs as [Hs Hcur]; unfold hoverSynced, pageHover, hoverOf, cursorShowsHover in *.
    cbn [Scene.step]; rewrite Hem, Hh, Hp, Hc.
    destruct (currentHovered s) as [m|].
    + rewrite hoverState_last_call; split; [reflexivity | exact Hcur].
    + rewrite app_nil_r; split; assumption.
  - (* control start *)
    apply synced_setHovered, Hs.
  - (* frame *)
    destruct (animate_hover controlsUpdate delta hit s) as (Hem & Hh & Hc & _ & Hp).
    pose proof (synced_setHovered (frameTarget hit s) s Hs) as [Hs' Hcur'].
    unfold hoverSynced, pageHover, hoverOf, cursorShowsHover in *.
    cbn [Scene.step]; rewrite Hem, Hh, Hc, Hp.
    rewrite setHovered_pointerClient in Hs'; split; assumption.
  - (* focus *)
    destruct (focusEffect_fields focusSite s rt Hrt) as (Hem & Hh & Hp & Hc & _).
    destruct Hs as [Hs Hcur]; unfold hoverSynced, pageHover, hoverOf, cursorShowsHover in *.
    cbn [Scene.step]; rewrite Hem, Hh, Hc.
    split.
    + destruct focusSite.
      * rewrite app_nil_r.
        destruct (currentHovered s);
          [apply hoverState_last_call | rewrite app_nil_r; exact Hs].
      * apply hoverState_last_call.
    + destruct (currentHovered s); [discriminate | exact Hcur].
Qed.

Lemma run_has_runtime (acts : list Action) (s : Scene) :
  tweensTracked s -> exists rt, runtime (run s acts) = Some rt.
Proof.
  intros H; destruct (tracked_run unproject controlsUpdate acts s H) as (rt & Hrt & _).
  exists rt; exact Hrt.
Qed.

Lemma synced_run (acts : list Action) (s : Scene) :
  tweensTracked s -> hoverSynced s -> hoverSynced (run s acts).
Proof.
  revert s; induction acts as [|a acts IH]; intros s Htr Hs; [exact Hs|].
  cbn [Scene.run fold_left].
  apply IH; [apply tracked_step, Htr|].
  destruct Htr as (rt & Hrt & _).
  apply synced_step; [exists rt; exact Hrt | exact Hs].
Qed.

(** X12: In every state the mounted scene reaches, the hover state the page
    holds after the calls made so far describes the scene: the site of
    the hovered node at the last pointer position, or no site at (0, 0)
    when no node is hovered.  So the tooltip is visible exactly while a
    node is hovered, shows its name and sits at the pointer, and the
    cursor is the pointer exactly then. *)
Theorem page_hover_follows_scene (sites : list SiteNode) (draws : list (R * R))
    (acts : list Action) :
  let s := run (mount sites draws) acts in
  let page := App.receiveAll App.initial (emitted s) in
  App.hoverState page = hoverOf s /\
  App.tooltip page
  = match currentHovered s with
    | Some m =>
        App.mkTooltip true (fst (pointerClient s)) (snd (pointerClient s))
          (name (userData_site m))
    | None => App.mkTooltip false 0 0 EmptyString
    end /\
  (cursor s = CursorPointer <-> currentHovered s <> None).
Proof.
  intros s page.
  assert (Hs : hoverSynced s).
  { apply synced_run; [apply tracked_mount|].
    split; [reflexivity | discriminate]. }
  destruct Hs as [Hs Hcur]; unfold pageHover in Hs; fold page in Hs.
  split; [exact Hs|]; split.
  - unfold App.tooltip; rewrite Hs; unfold hoverOf.
    destruct (currentHovered s); reflexivity.
  - unfold cursorShowsHover in Hcur.
    destruct (currentHovered s); split; intros H; try discriminate;
      try assumption; try contradiction.
Qed.

(** *** The focus lock *)

Lemma frameTarget_locked (hit : option NodeMesh) (s : Scene) (rt : SceneRuntime) :
  runtime s = Some rt -> focusLocked rt = true -> frameTarget hit s = None.
Proof. intros Hrt Hl; unfold frameTarget; rewrite Hrt, Hl; reflexivity. Qed.

Lemma step_locked_hover (s : Scene) (a : Action) (rt : SceneRuntime) :
  runtime s = Some rt -> focusLocked rt = true -> currentHovered s = None ->
  isFocus a = false -> currentHovered (step s a) = None.
Proof.
  intros Hrt Hl Hh Ha.
  pose proof (step_hover_fields s a) as [_ Hf].
  destruct a; try discriminate; try (destruct Hf as (-> & _); exact Hh).
  - destruct (onPointerMove_hover clientX clientY innerWidth innerHeight s)
      as (_ & H & _).
    cbn [Scene.step]; rewrite H; exact Hh.
  - apply setHovered_null.
  - destruct (animate_hover controlsUpdate delta hit s) as (_ & H & _).
    cbn [Scene.step]; rewrite H, (frameTarget_locked hit s rt Hrt Hl).
    apply setHovered_null.
Qed.

Lemma focusCoherent_step (s : Scene) (a : Action) :
  tweensTracked s -> focusCoherent s -> focusCoherent (step s a).
Proof.
  intros Htr (rt & Hrt & Hen & Hlock & Hfree).
  destruct (isFocus a) eqn:Ha.
  - destruct a; try discriminate; cbn [Scene.step].
    destruct (focusEffect_spec focusSite s rt Hrt Htr)
      as (hc & ht & _ & Hr & _ & _ & _ & _ & _ & Hh & Hce).
    eexists; split; [exact Hr|]; cbn [focusLocked pendingFocusId].
    split; [exact Hce|].
    destruct focusSite; split; try discriminate; intros _; try reflexivity.
    split; [exact Hh | discriminate].
  - exists rt.
    split; [rewrite (step_runtime unproject controlsUpdate s a Ha); exact Hrt|].
    split; [rewrite step_controlsEnabled by exact Ha; exact Hen|].
    split; [|exact Hfree].
    intros Hl; destruct (Hlock Hl) as [Hh Hp]; split; [|exact Hp].
    apply (step_locked_hover s a rt); assumption.
Qed.

Lemma focusCoherent_run (acts : list Action) (s : Scene) :
  tweensTracked s -> focusCoherent s -> focusCoherent (run s acts).
Proof.
  revert s; induction acts as [|a acts IH]; intros s Htr Hs; [exact Hs|].
  cbn [Scene.run fold_left].
  apply IH; [apply tracked_step, Htr | apply focusCoherent_step; assumption].
Qed.

Lemma animate_locked (delta : R) (hit : option NodeMesh) (s : Scene)
    (rt : SceneRuntime) :
  runtime s = Some rt -> focusLocked rt = true -> currentHovered s = None ->
  emitted (animate delta hit s) = emitted s /\
  tweens (animate delta hit s) = tweens s /\
  children (animate delta hit s) = children s /\
  nodesRotationY (animate delta hit s) = nodesRotationY s /\
  cursor (animate delta hit s) = cursor s.
Proof.
  intros Hrt Hl Hh; destruct s, rt; simpl in Hrt, Hl, Hh; subst.
  unfold Scene.animate, Scene.updateControls; simpl; repeat split.
Qed.

Lemma onClick_locked (s : Scene) (rt : SceneRuntime) :
  runtime s = Some rt -> focusLocked rt = true -> emitted (onClick s) = emitted s.
Proof.
  intros Hrt Hl; unfold onClick; rewrite Hrt, Hl.
  destruct (Rgtb _ _); reflexivity.
Qed.

(** X13: In every state the mounted scene reaches, the orbit controls are
    enabled exactly when the camera is not focus-locked, and a focus is
    pending exactly when it is locked.  While it is locked no node is
    hovered, so the frame's clearing of a hover left over never has
    anything to clear: a frame then makes no call, starts no tween and
    leaves the node groups and the cursor as they are; and a click selects
    nothing. *)
Theorem focus_lock_coherent (sites : list SiteNode) (draws : list (R * R))
    (acts : list Action) :
  let s := run (mount sites draws) acts in
  exists rt, runtime s = Some rt /\
    controlsEnabled s = negb (focusLocked rt) /\
    (focusLocked rt = true <-> pendingFocusId rt <> None) /\
    (focusLocked rt = true ->
     currentHovered s = None /\
     emitted (onClick s) = emitted s /\
     forall delta hit,
       emitted (animate delta hit s) = emitted s /\
       tweens (animate delta hit s) = tweens s /\
       children (animate delta hit s) = children s /\
       nodesRotationY (animate delta hit s) = nodesRotationY s /\
       cursor (animate delta hit s) = cursor s).
Proof.
  intros s.
  assert (Hs : focusCoherent s).
  { apply focusCoherent_run; [apply tracked_mount|].
    eexists; split; [reflexivity|].
    simpl; repeat split; try reflexivity; discriminate. }
  destruct Hs as (rt & Hrt & Hen & Hlock & Hfree).
  exists rt; split; [exact Hrt|]; split; [exact Hen|]; split.
  - split; [intros Hl; apply (Hlock Hl)|].
    intros Hp; destruct (focusLocked rt); [reflexivity|].
    exfalso; apply Hp, Hfree; reflexivity.
  - intros Hl; destruct (Hlock Hl) as [Hh _].
    split; [exact Hh|]; split; [apply (onClick_locked s rt Hrt Hl)|].
    intros delta hit; apply (animate_locked delta hit s rt); assumption.
Qed.

(** *** The disturbance weight *)

Lemma step_weight_kept (s : Scene) (a : Action) :
  match a with
  | PointerMove _ _ _ _ =>
      disturbWeightTarget (step s a) = 1 /\ disturbWeight (step s a) = disturbWeight s
  | PointerLeave =>
      disturbWeightTarget (step s a) = 0 /\ disturbWeight (step s a) = disturbWeight s
  | Frame _ _ => True
  | _ =>
      disturbWeightTarget (step s a) = disturbWeightTarget s /\
      disturbWeight (step s a) = disturbWeight s
  end.
Proof.
  destruct a; try exact I;
    try (destruct s; unfold_handlers; handler_cases; split; reflexivity).
  cbn [Scene.step].
  destruct (runtime s) as [rt|] eqn:Hrt.
  - destruct (focusEffect_fields focusSite s rt Hrt)
      as (_ & _ & _ & _ & _ & _ & _ & _ & Hw & Ht).
    split; assumption.
  - unfold focusEffect; rewrite Hrt; split; reflexivity.
Qed.

Lemma weight_step (s : Scene) (a : Action) :
  nonnegativeDelta a -> weightInRange s -> weightInRange (step s a).
Proof.
  intros Ha [Hw Ht]; unfold weightInRange.
  pose proof (step_weight_kept s a) as Hk.
  destruct a;
    try (rewrite (proj1 Hk), (proj2 Hk); split; [exact Hw | tauto]).
  cbn [Scene.step].
  destruct (animate_disturb controlsUpdate delta hit s) as (Htg & Hwt & _).
  cbv zeta in Htg, Hwt; rewrite Htg, Hwt; clear Htg Hwt.
  unfold Disturb.smooth; cbn [fst snd].
  set (target := if match runtime s with Some rt => focusLocked rt | None => false end
                 then 0 else disturbWeightTarget s).
  assert (Htarget : target = 0 \/ target = 1)
    by (unfold target; destruct (match runtime s with Some _ => _ | None => _ end); tauto).
  split; [|exact Htarget].
  simpl in Ha.
  assert (Hb : 0 <= Disturb.disturbBlend delta <= 1).
  { unfold Disturb.disturbBlend, Rmin; destruct (Rle_dec 1 (delta * 6)); lra. }
  destruct Htarget as [-> | ->]; nra.
Qed.

Lemma weight_run (acts : list Action) (s : Scene) :
  Forall nonnegativeDelta acts -> weightInRange s -> weightInRange (run s acts).
Proof.
  revert s; induction acts as [|a acts IH]; intros s Ha Hs; [exact Hs|].
  cbn [Scene.run fold_left]; inversion Ha; subst.
  apply IH; [assumption | apply weight_step; assumption].
Qed.

(** X14: In every state the mounted scene reaches by frames whose clock deltas
    are not negative, the disturbance weight is between 0 and 1 and its
    target is 0 or 1: 1 after a pointer move, 0 after the pointer has left
    or a frame has run while focus-locked. *)
Theorem disturb_weight_in_range (sites : list SiteNode) (draws : list (R * R))
    (acts : list Action) (Hdeltas : Forall nonnegativeDelta acts) :
  let s := run (mount sites draws) acts in
  0 <= disturbWeight s <= 1 /\
  (disturbWeightTarget s = 0 \/ disturbWeightTarget s = 1) /\
  (forall cx cy w h, disturbWeightTarget (onPointerMove cx cy w h s) = 1) /\
  disturbWeightTarget (onPointerLeave s) = 0 /\
  (forall rt delta hit, runtime s = Some rt -> focusLocked rt = true ->
     disturbWeightTarget (animate delta hit s) = 0).
Proof.
  intros s.
  assert (Hs : weightInRange s).
  { apply weight_run; [exact Hdeltas|].
    unfold weightInRange; simpl; split; [lra | left; reflexivity]. }
  destruct Hs as [Hw Ht].
  split; [exact Hw|]; split; [exact Ht|]; split; [|split].
  - intros cx cy w h.
    apply (step_weight_kept s (PointerMove cx cy w h)).
  - apply (step_weight_kept s PointerLeave).
  - intros rt delta hit Hrt Hl.
    destruct (animate_disturb controlsUpdate delta hit s) as (Htg & _).
    cbv zeta in Htg; rewrite Htg, Hrt, Hl; reflexivity.
Qed.

(** *** The node groups *)

Lemma anchored_floatChild (st : SiteNode) (elapsed : R) (g : NodeGroup) :
  anchored st g -> anchored st (floatChild elapsed g).
Proof.
  intros (Hx & Hz & Hb & _); unfold anchored, floatChild; simpl.
  repeat split; try assumption.
  rewrite Hb.
  replace (vy (position st) + sin (elapsed * floatSpeed g + floatOffset g) * 0.35
           - vy (position st))
    with (sin (elapsed * floatSpeed g + floatOffset g) * 0.35) by ring.
  pose proof (SIN_bound (elapsed * floatSpeed g + floatOffset g)).
  apply Rabs_le; lra.
Qed.

Lemma Forall2_anchored_map (f : NodeGroup -> NodeGroup) (sites : list SiteNode)
    (l : list NodeGroup) :
  (forall st g, anchored st g -> anchored st (f g)) ->
  Forall2 anchored sites l -> Forall2 anchored sites (map f l).
Proof.
  intros Hf H; induction H; simpl; constructor; auto.
Qed.

Lemma Forall2_anchored_replaceAt (m : nat) (v : Vec3) (sites : list SiteNode)
    (l : list NodeGroup) :
  Forall2 anchored sites l -> Forall2 anchored sites (replaceAt m (setScale v) l).
Proof.
  intros H; revert m; induction H; intros [|m]; simpl; constructor; auto.
Qed.

Lemma step_children (s : Scene) (a : Action) :
  children (step s a) = children s \/
  (exists elapsed, children (step s a) = map (floatChild elapsed) (children s)) \/
  (exists m v, children (step s a) = replaceAt m (setScale v) (children s)).
Proof.
  destruct a;
    try (destruct s; unfold_handlers; handler_cases;
         first [ left; reflexivity
               | right; left; eexists; reflexivity
               | right; right; do 2 eexists; reflexivity ]).
  cbn [Scene.step]; left.
  destruct (runtime s) as [rt|] eqn:Hrt.
  - apply (focusEffect_fields focusSite s rt Hrt).
  - unfold focusEffect; rewrite Hrt; reflexivity.
Qed.

Lemma anchored_run (sites : list SiteNode) (acts : list Action) (s : Scene) :
  Forall2 anchored sites (children s) ->
  Forall2 anchored sites (children (run s acts)).
Proof.
  revert s; induction acts as [|a acts IH]; intros s Hs; [exact Hs|].
  cbn [Scene.run fold_left]; apply IH.
  destruct (step_children s a) as [-> | [[e ->] | (m & v & ->)]].
  - exact Hs.
  - apply Forall2_anchored_map; [intros; apply anchored_floatChild; assumption | exact Hs].
  - apply Forall2_anchored_replaceAt, Hs.
Qed.

Lemma anchored_makeGroups (sites : list SiteNode) (draws : list (R * R)) :
  Forall2 anchored sites (makeGroups sites draws).
Proof.
  revert draws; induction sites as [|st sites IH]; intros draws; simpl;
    constructor; [|apply IH].
  unfold anchored, makeGroup; simpl; repeat split.
  replace (vy (position st) - vy (position st)) with 0 by ring.
  rewrite Rabs_R0; lra.
Qed.

Lemma Forall2_nth_error {A B : Type} (P : A -> B -> Prop) (l : list A) (l' : list B)
    (i : nat) (a : A) :
  Forall2 P l l' -> nth_error l i = Some a ->
  exists b, nth_error l' i = Some b /\ P a b.
Proof.
  intros H; revert i; induction H; intros [|i] Hn; simpl in *; try discriminate.
  - injection Hn as <-; eexists; split; [reflexivity | assumption].
  - apply IHForall2, Hn.
Qed.

(** X15: In every state the mounted scene reaches there is one node group for
    each site, in the order of the sites; it stands above or below the
    position of its site, at most the float amplitude 0.35 away, whatever
    frames, hovers and focus requests came before; the world position of
    the node is this place turned about the vertical axis by the rotation
    of the node layer. *)
Theorem nodes_stay_at_their_sites (sites : list SiteNode) (draws : list (R * R))
    (acts : list Action) :
  let s := run (mount sites draws) acts in
  List.length (children s) = List.length sites /\
  forall i st, nth_error sites i = Some st ->
    exists g, nth_error (children s) i = Some g /\
      vx (groupPosition g) = vx (position st) /\
      vz (groupPosition g) = vz (position st) /\
      Rabs (vy (groupPosition g) - vy (position st)) <= 0.35 /\
      getWorldPosition s (mkNodeMesh i st)
      = Vector3.applyRotationY (nodesRotationY s) (groupPosition g).
Proof.
  intros s.
  assert (Hs : Forall2 anchored sites (children s))
    by (apply anchored_run, anchored_makeGroups).
  split; [symmetry; apply (Forall2_length Hs)|].
  intros i st Hn.
  destruct (Forall2_nth_error _ _ _ i st Hs Hn) as (g & Hg & Hx & Hz & _ & Hy).
  exists g; repeat split; try assumption.
  unfold getWorldPosition; simpl; rewrite Hg; reflexivity.
Qed.

(** *** While the camera is focus-locked the nodes stand still *)

Lemma step_locked_still (s : Scene) (a : Action) (rt : SceneRuntime) :
  runtime s = Some rt -> focusLocked rt = true -> isFocus a = false ->
  nodesRotationY (step s a) = nodesRotationY s /\
  map groupPosition (children (step s a)) = map groupPosition (children s).
Proof.
  intros Hrt Hl Ha.
  destruct a; try discriminate;
    destruct s, rt; simpl in Hrt, Hl; subst;
    unfold_handlers; handler_cases;
    rewrite ?map_groupPosition_replaceAt; split; reflexivity.
Qed.

Lemma getWorldPosition_ext (s s' : Scene) (m : NodeMesh) :
  nodesRotationY s' = nodesRotationY s ->
  map groupPosition (children s') = map groupPosition (children s) ->
  getWorldPosition s' m = getWorldPosition s m.
Proof.
  intros Hr Hp; unfold getWorldPosition; rewrite Hr.
  assert (H : option_map groupPosition (nth_error (children s') (ref m))
              = option_map groupPosition (nth_error (children s) (ref m)))
    by (rewrite <- !nth_error_map, Hp; reflexivity).
  destruct (nth_error (children s') (ref m)), (nth_error (children s) (ref m));
    simpl in H; congruence.
Qed.

(** X16: From a focus-locked state, as long as no new focus request arrives,
    the scene stays locked and no node moves: frames, pointer events and
    tween renders leave the rotation of the node layer and the position of
    every node group as they are, so the world position of every node,
    and with it the target of the focus, stays where it was. *)
Theorem locked_nodes_stand_still (s : Scene) (rt : SceneRuntime) (acts : list Action)
    (Hrt : runtime s = Some rt) (Hlocked : focusLocked rt = true)
    (Hacts : forallb (fun a => negb (isFocus a)) acts = true) :
  let s' := run s acts in
  runtime s' = Some rt /\
  nodesRotationY s' = nodesRotationY s /\
  map groupPosition (children s') = map groupPosition (children s) /\
  forall m, getWorldPosition s' m = getWorldPosition s m.
Proof.
  revert s Hrt; induction acts as [|a acts IH]; intros s Hrt s'.
  - repeat split; try reflexivity; exact Hrt.
  - cbn [forallb] in Hacts; apply andb_prop in Hacts as [Ha Hacts].
    apply negb_true_iff in Ha.
    assert (Hrt1 : runtime (step s a) = Some rt)
      by (rewrite (step_runtime unproject controlsUpdate s a Ha); exact Hrt).
    destruct (step_locked_still s a rt Hrt Hlocked Ha) as [Hr Hp].
    destruct (IH Hacts (step s a) Hrt1) as (H1 & H2 & H3 & H4).
    subst s'.
    change (run s (a :: acts)) with (run (step s a) acts).
    split; [exact H1|]; split; [rewrite H2; exact Hr|].
    split; [rewrite H3; exact Hp|].
    intros m; rewrite H4; apply getWorldPosition_ext; assumption.
Qed.

(** *** The tweens of the focus *)



(** *** One tween at a time *)

(** X18: In every state the mounted scene reaches, at most one running tween
    drives the camera position and at most one the orbit target: they are
    the tweens the runtime holds.  A running tween that completes with a
    callback is the runtime's tween of the orbit target. *)
Theorem one_focus_tween_at_a_time (sites : list SiteNode) (draws : list (R * R))
    (acts : list Action) :
  let s := run (mount sites draws) acts in
  exists rt, runtime s = Some rt /\
    (forall h tw, nth_error (tweens s) h = Some tw -> status tw = Running ->
       (target tw = CameraPosition -> cameraTween rt = Some h) /\
       (target tw = ControlsTarget -> targetTween rt = Some h) /\
       (onComplete tw <> None ->
        target tw = ControlsTarget /\ targetTween rt = Some h)) /\
    (forall h h' tw tw',
       nth_error (tweens s) h = Some tw -> nth_error (tweens s) h' = Some tw' ->
       status tw = Running -> status tw' = Running ->
       target tw = target tw' ->
       target tw = CameraPosition \/ target tw = ControlsTarget ->
       h = h').
Proof.
  intros s.
  destruct (tracked_run unproject controlsUpdate acts (mount sites draws)
              (tracked_mount controlsUpdate sites draws)) as (rt & Hrt & Hinv).
  fold s in Hrt, Hinv.
  exists rt; split; [exact Hrt|]; split.
  - intros h tw Hn Hrun.
    destruct (Hinv h tw Hn Hrun) as (Hc & Ht & Hcb).
    split; [exact Hc|]; split; [exact Ht|].
    intros Hne.
    assert (Htg : target tw = ControlsTarget).
    { destruct (target tw) eqn:E; try reflexivity;
        exfalso; apply Hne, Hcb; discriminate. }
    split; [exact Htg | apply Ht, Htg].
  - intros h h' tw tw' Hn Hn' Hrun Hrun' Heq Hor.
    destruct (Hinv h tw Hn Hrun) as (Hc & Ht & _).
    destruct (Hinv h' tw' Hn' Hrun') as (Hc' & Ht' & _).
    destruct Hor as [E | E].
    + specialize (Hc E); rewrite E in Heq; specialize (Hc' (eq_sym Heq)); congruence.
    + specialize (Ht E); rewrite E in Heq; specialize (Ht' (eq_sym Heq)); congruence.
Qed.

(** *** The registry of node meshes *)

Lemma Map_get_set {V : Type} (k k' : string) (v : V) (m : list (string * V)) :
  Map_get k (Map_set k' v m) = if String.eqb k' k then Some v else Map_get k m.
Proof.
  induction m as [|[k0 v0] m IH]; simpl; [reflexivity|].
  destruct (String.eqb k0 k') eqn:E0; simpl.
  - apply String.eqb_eq in E0; subst k0.
    destruct (String.eqb k' k); reflexivity.
  - rewrite IH.
    destruct (String.eqb k0 k) eqn:E1; [|reflexivity].
    apply String.eqb_eq in E1; subst k0.
    rewrite String.eqb_sym, E0; reflexivity.
Qed.

Lemma Map_get_registered (key : string) (sites : list SiteNode) (from : nat)
    (m0 : list (string * NodeMesh)) :
  Map_get key
    (fold_left (fun m e => Map_set (id (fst e)) (mkNodeMesh (snd e) (fst e)) m)
       (combine sites (seq from (List.length sites))) m0)
  = match lastWithId key sites from with
    | Some mesh => Some mesh
    | None => Map_get key m0
    end.
Proof.
  revert from m0; induction sites as [|st sites IH]; intros from m0; simpl;
    [reflexivity|].
  rewrite IH.
  destruct (lastWithId key sites (S from)); [reflexivity|].
  rewrite Map_get_set; destruct (String.eqb (id st) key); reflexivity.
Qed.

Lemma lastWithId_none (key : string) (sites : list SiteNode) (from : nat) :
  (forall st, In st sites -> id st <> key) -> lastWithId key sites from = None.
Proof.
  revert from; induction sites as [|st sites IH]; intros from H; simpl;
    [reflexivity|].
  rewrite IH by (intros st' Hin; apply H; right; exact Hin).
  destruct (String.eqb (id st) key) eqn:E; [|reflexivity].
  apply String.eqb_eq in E; exfalso; apply (H st); [left; reflexivity | exact E].
Qed.

Lemma lastWithId_last (sites : list SiteNode) (from i : nat) (st : SiteNode) :
  nth_error sites i = Some st ->
  (forall j st', (i < j)%nat -> nth_error sites j = Some st' -> id st' <> id st) ->
  lastWithId (id st) sites from = Some (mkNodeMesh (from + i) st).
Proof.
  revert from i; induction sites as [|st0 sites IH]; intros from [|i] Hn Hlater;
    simpl in *; try discriminate.
  - injection Hn as ->.
    rewrite lastWithId_none.
    + rewrite String.eqb_refl, Nat.add_0_r; reflexivity.
    + intros st' Hin; apply In_nth_error in Hin as [j Hj].
      apply (Hlater (S j)); [lia | exact Hj].
  - rewrite (IH (S from) i Hn).
    + replace (S from + i)%nat with (from + S i)%nat by lia; reflexivity.
    + intros j st' Hj Hn'; apply (Hlater (S j)); [lia | exact Hn'].
Qed.

Lemma step_nodeMeshById (s : Scene) (a : Action) (rt : SceneRuntime) :
  tweensTracked s -> runtime s = Some rt ->
  exists rt', runtime (step s a) = Some rt' /\ nodeMeshById rt' = nodeMeshById rt.
Proof.
  intros Htr Hrt; destruct (isFocus a) eqn:Ha.
  - destruct a; try discriminate; cbn [Scene.step].
    destruct (focusEffect_spec focusSite s rt Hrt Htr) as (hc & ht & _ & Hr & _).
    eexists; split; [exact Hr | reflexivity].
  - exists rt; rewrite (step_runtime unproject controlsUpdate s a Ha).
    split; [exact Hrt | reflexivity].
Qed.

Lemma run_nodeMeshById (acts : list Action) (s : Scene) (rt : SceneRuntime) :
  tweensTracked s -> runtime s = Some rt ->
  exists rt', runtime (run s acts) = Some rt' /\ nodeMeshById rt' = nodeMeshById rt.
Proof.
  revert s rt; induction acts as [|a acts IH]; intros s rt Htr Hrt.
  - exists rt; split; [exact Hrt | reflexivity].
  - destruct (step_nodeMeshById s a rt Htr Hrt) as (rt1 & Hrt1 & H1).
    destruct (IH (step s a) rt1 (tracked_step unproject controlsUpdate s a Htr) Hrt1)
      as (rt' & Hrt' & H').
    exists rt'; split; [exact Hrt' | congruence].
Qed.

(** X19: The registry of node meshes is built at mount and never changes.  A
    look-up by the id of a site finds the mesh of the last site of the
    list that has this id, numbered by its place in the list; so with ids
    that differ every site finds its own mesh, and an id of no site finds
    nothing, in which case a focus request falls back to the position of
    the site it was given. *)
Theorem mesh_registry_lookup (sites : list SiteNode) (draws : list (R * R))
    (acts : list Action) :
  let s := run (mount sites draws) acts in
  exists rt, runtime s = Some rt /\
    nodeMeshById rt = makeMeshById sites /\
    (forall key, Map_get key (nodeMeshById rt) = lastWithId key sites 0) /\
    (forall i st, nth_error sites i = Some st ->
       (forall j st', (i < j)%nat -> nth_error sites j = Some st' -> id st' <> id st) ->
       Map_get (id st) (nodeMeshById rt) = Some (mkNodeMesh i st)) /\
    (forall key, (forall st, In st sites -> id st <> key) ->
       Map_get key (nodeMeshById rt) = None /\
       forall fs, id fs = key -> focusTargetOf fs rt s = position fs).
Proof.
  intros s.
  destruct (run_nodeMeshById acts (mount sites draws) _
              (tracked_mount controlsUpdate sites draws) eq_refl)
    as (rt & Hrt & Hreg).
  cbn [nodeMeshById] in Hreg; fold s in Hrt.
  assert (Hget : forall key, Map_get key (nodeMeshById rt) = lastWithId key sites 0).
  { intros key; rewrite Hreg; unfold makeMeshById, Constellation.indexed.
    rewrite Map_get_registered.
    destruct (lastWithId key sites 0); reflexivity. }
  exists rt; split; [exact Hrt|]; split; [exact Hreg|]; split; [exact Hget|].
  split.
  - intros i st Hn Hlater; rewrite Hget.
    apply (lastWithId_last sites 0 i st Hn Hlater).
  - intros key Hnone.
    assert (H : Map_get key (nodeMeshById rt) = None)
      by (rewrite Hget; apply lastWithId_none, Hnone).
    split; [exact H|].
    intros fs <-; unfold focusTargetOf; rewrite H; reflexivity.
Qed.

(** *** The disturbance point *)

Lemma lerp_distance (current target : Vec3) (alpha : R) :
  0 <= alpha <= 1 ->
  Vector3.distanceTo (Vector3.lerp current target alpha) target
  = (1 - alpha) * Vector3.distanceTo current target.
Proof.
  intros Ha; unfold Vector3.distanceTo, Vector3.distanceToSquared, Vector3.lerp; simpl.
  set (dx := vx current - vx target).
  set (dy := vy current - vy target).
  set (dz := vz current - vz target).
  replace ((vx current + (vx target - vx current) * alpha - vx target)
           * (vx current + (vx target - vx current) * alpha - vx target)
           + (vy current + (vy target - vy current) * alpha - vy target)
             * (vy current + (vy target - vy current) * alpha - vy target)
           + (vz current + (vz target - vz current) * alpha - vz target)
             * (vz current + (vz target - vz current) * alpha - vz target))
    with ((1 - alpha) * (1 - alpha) * (dx * dx + dy * dy + dz * dz))
    by (unfold dx, dy, dz; ring).
  rewrite sqrt_mult_alt by nra.
  rewrite sqrt_square by lra; reflexivity.
Qed.

Lemma onPointerMove_disturb (cx cy w h : R) (s : Scene) :
  let ndc := mkVec3 (cx / w * 2 - 1) (- (cy / h) * 2 + 1) 0.5 in
  let projected := unproject (cameraPosition s) (controlsTarget s) ndc in
  cameraPosition (onPointerMove cx cy w h s) = cameraPosition s /\
  controlsTarget (onPointerMove cx cy w h s) = controlsTarget s /\
  pointerNdc (onPointerMove cx cy w h s) = (vx ndc, vy ndc) /\
  disturbTarget (onPointerMove cx cy w h s)
  = Vector3.addScaledVector (cameraPosition s)
      (Vector3.normalize (Vector3.sub projected (cameraPosition s)))
      (Vector3.distanceTo (cameraPosition s) (controlsTarget s)).
Proof.
  destruct s; unfold Scene.onPointerMove, emit; simpl.
  destruct pointerDown0, currentHovered0; simpl; repeat split.
Qed.

Lemma animate_disturbCurrent (delta : R) (hit : option NodeMesh) (s : Scene) :
  disturbCurrent (animate delta hit s)
  = Vector3.lerp (disturbCurrent s) (disturbTarget s) (Disturb.disturbBlend delta) /\
  disturbTarget (animate delta hit s) = disturbTarget s.
Proof.
  destruct s; unfold_handlers; handler_cases; split; reflexivity.
Qed.

Lemma length_or_1_pos (a : Vec3) : 0 < Vector3.length_or_1 a.
Proof.
  unfold Vector3.length_or_1; destruct (Req_dec_T _ _) as [_ | Hne]; [lra|].
  assert (0 <= Vector3.length a) by apply sqrt_pos; lra.
Qed.

(** A point moved from [origin] along the normalized direction towards
    [through] lies on the ray from [origin] through [through]. *)
Lemma on_ray (origin through : Vec3) (far : R) :
  0 <= far ->
  exists k, 0 <= k /\
    Vector3.sub
      (Vector3.addScaledVector origin
         (Vector3.normalize (Vector3.sub through origin)) far)
      origin
    = Vector3.multiplyScalar (Vector3.sub through origin) k.
Proof.
  intros Hfar.
  pose proof (length_or_1_pos (Vector3.sub through origin)) as Hpos.
  exists (1 / Vector3.length_or_1 (Vector3.sub through origin) * far); split.
  - apply Rmult_le_pos; [|exact Hfar].
    unfold Rdiv; rewrite Rmult_1_l; left; apply Rinv_0_lt_compat, Hpos.
  - unfold Vector3.normalize, Vector3.divideScalar.
    apply vec3_eq; simpl; ring.
Qed.

(** X20: A pointer move inside the window gives device coordinates between -1
    and 1 and puts the disturbance target on the ray from the camera
    through the unprojected pointer, as far from the camera as the orbit
    target is (at the camera itself when the pointer does not unproject
    away from it).  A frame with a clock delta that is not negative moves
    the disturbance point towards this target: the distance left is
    [1 - min(1, 6 delta)] times the distance before, and nothing from a
    delta of a sixth of a second on. *)
Theorem disturb_point_tracks_pointer (cx cy w h delta : R) (hit : option NodeMesh)
    (s : Scene) (Hdelta : 0 <= delta) :
  let moved := onPointerMove cx cy w h s in
  let projected :=
    unproject (cameraPosition s) (controlsTarget s)
      (mkVec3 (fst (pointerNdc moved)) (snd (pointerNdc moved)) 0.5) in
  let frame := animate delta hit s in
  pointerNdc moved = (cx / w * 2 - 1, - (cy / h) * 2 + 1) /\
  (0 < w -> 0 < h -> 0 <= cx <= w -> 0 <= cy <= h ->
   -1 <= fst (pointerNdc moved) <= 1 /\ -1 <= snd (pointerNdc moved) <= 1) /\
  disturbTarget moved
  = Vector3.addScaledVector (cameraPosition s)
      (Vector3.normalize (Vector3.sub projected (cameraPosition s)))
      (Vector3.distanceTo (cameraPosition s) (controlsTarget s)) /\
  (exists k, 0 <= k /\
     Vector3.sub (disturbTarget moved) (cameraPosition s)
     = Vector3.multiplyScalar (Vector3.sub projected (cameraPosition s)) k) /\
  (projected <> cameraPosition s ->
   Vector3.distanceTo (disturbTarget moved) (cameraPosition s)
   = Vector3.distanceTo (cameraPosition s) (controlsTarget s)) /\
  (projected = cameraPosition s -> disturbTarget moved = cameraPosition s) /\
  disturbTarget frame = disturbTarget s /\
  Vector3.distanceTo (disturbCurrent frame) (disturbTarget frame)
  = (1 - Rmin 1 (delta * 6)) * Vector3.distanceTo (disturbCurrent s) (disturbTarget s) /\
  (1 / 6 <= delta -> disturbCurrent frame = disturbTarget s).
Proof.
  intros moved projected frame.
  destruct (onPointerMove_disturb cx cy w h s) as (_ & _ & Hndc & Htarget).
  cbv zeta in Hndc, Htarget; fold moved in Hndc, Htarget.
  destruct (animate_disturbCurrent delta hit s) as (Hcur & Htg).
  fold frame in Hcur, Htg.
  assert (Hproj : projected
                  = unproject (cameraPosition s) (controlsTarget s)
                      (mkVec3 (cx / w * 2 - 1) (- (cy / h) * 2 + 1) 0.5))
    by (unfold projected; rewrite Hndc; reflexivity).
  rewrite <- Hproj in Htarget.
  split; [exact Hndc|].
  split; [|split; [exact Htarget|split; [|split; [|split; [|split; [|split]]]]]].
  - intros Hw Hh Hx Hy; rewrite Hndc; simpl.
    assert (0 <= cx / w <= 1).
    { split; [apply Rmult_le_pos; [lra | left; apply Rinv_0_lt_compat, Hw]|].
      apply (Rmult_le_reg_r w); [exact Hw|].
      replace (cx / w * w) with cx by (field; lra); lra. }
    assert (0 <= cy / h <= 1).
    { split; [apply Rmult_le_pos; [lra | left; apply Rinv_0_lt_compat, Hh]|].
      apply (Rmult_le_reg_r h); [exact Hh|].
      replace (cy / h * h) with cy by (field; lra); lra. }
    lra.
  - rewrite Htarget; apply on_ray, sqrt_pos.
  - intros Hne; rewrite Htarget.
    assert (Hsq : Vector3.lengthSq (Vector3.sub projected (cameraPosition s)) <> 0).
    { intros H0; apply Hne, vec3_eq;
        apply lengthSq_zero in H0;
        apply (f_equal vx) in H0 as Hx; apply (f_equal vy) in H0 as Hy;
        apply (f_equal vz) in H0 as Hz; simpl in Hx, Hy, Hz; lra. }
    apply distance_addScaled; [apply normalize_nonzero, Hsq | apply sqrt_pos].
  - intros He; rewrite Htarget, He.
    rewrite normalize_zero by (unfold Vector3.lengthSq; simpl; ring).
    apply vec3_eq; simpl; ring.
  - exact Htg.
  - rewrite Hcur, Htg; apply lerp_distance.
    unfold Disturb.disturbBlend, Rmin; destruct (Rle_dec 1 (delta * 6)); lra.
  - intros Hd; rewrite Hcur.
    assert (Hb : Disturb.disturbBlend delta = 1).
    { unfold Disturb.disturbBlend, Rmin; destruct (Rle_dec 1 (delta * 6)); lra. }
    rewrite Hb; apply vec3_eq; simpl; ring.
Qed.

(** *** Dragging *)











(** *** A focus arrives at its node *)




End SceneInvariants.

(** *** The invariants on the example scene *)

Lemma disturb_weight_in_range_witness :
  let s :=
    Scene.run Demo.unproject Demo.controlsUpdate Demo.mounted
      [Scene.PointerMove 1 1 2 2; Scene.Frame 0.05 None; Scene.PointerLeave;
       Scene.Frame 1 None] in
  0 <= Scene.disturbWeight s <= 1.
Proof.
  intros s.
  apply (disturb_weight_in_range Demo.unproject Demo.controlsUpdate
           [Demo.siteA; Demo.siteB] [(0, 0); (0.5, 0.5)]
           [Scene.PointerMove 1 1 2 2; Scene.Frame 0.05 None; Scene.PointerLeave;
            Scene.Frame 1 None]).
  repeat constructor; simpl; lra.
Defined.

Lemma locked_nodes_stand_still_witness :
  let s := Scene.focusEffect (Some Demo.siteA) Demo.mounted in
  let s' :=
    Scene.run Demo.unproject Demo.controlsUpdate s
      [Scene.Frame 0.1 None; Scene.PointerMove 1 1 2 2;
       Scene.TweenUpdate 0 (mkVec3 1 1 1)] in
  Scene.getWorldPosition s' Demo.mesh1 = Scene.getWorldPosition s Demo.mesh1.
Proof.
  intros s s'.
  apply (locked_nodes_stand_still Demo.unproject Demo.controlsUpdate s
           (Scene.mkSceneRuntime (Scene.makeMeshById [Demo.siteA; Demo.siteB]) true
              (Some "root"%string) (Some 0%nat) (Some 1%nat))
           [Scene.Frame 0.1 None; Scene.PointerMove 1 1 2 2;
            Scene.TweenUpdate 0 (mkVec3 1 1 1)]);
    reflexivity.
Defined.


(** A pointer at the right edge of the window, half way down: the
    disturbance target leaves the origin towards positive [x], and a
    frame of a fifth of a second brings the disturbance point, which was
    at the origin, onto it. *)
Lemma disturb_point_tracks_pointer_witness :
  let s := Scene.onPointerMove Demo.unproject 2 1 2 2 Demo.mounted in
  Scene.disturbCurrent s = mkVec3 0 0 0 /\
  0 < vx (Scene.disturbTarget s) /\
  Scene.disturbCurrent (Scene.animate Demo.controlsUpdate 0.2 None s)
  = Scene.disturbTarget s.
Proof.
  intros s.
  destruct (disturb_point_tracks_pointer Demo.unproject Demo.controlsUpdate
              2 1 2 2 0.2 None Demo.mounted ltac:(lra))
    as (_ & _ & Htarget & _).
  destruct (disturb_point_tracks_pointer Demo.unproject Demo.controlsUpdate
              2 1 2 2 0.2 None s ltac:(lra))
    as (_ & _ & _ & _ & _ & _ & _ & _ & Hframe).
  split; [reflexivity|].
  split; [|apply Hframe; lra].
  unfold s; rewrite Htarget.
  unfold Vector3.normalize, Vector3.divideScalar, Demo.unproject; simpl.
  assert (Hfar : 0 < Vector3.distanceTo (mkVec3 0 0 40) (mkVec3 0 0 0)).
  { unfold Vector3.distanceTo, Vector3.distanceToSquared; simpl.
    apply sqrt_lt_R0; lra. }
  rewrite Rplus_0_l.
  apply Rmult_lt_0_compat; [|exact Hfar].
  apply Rmult_lt_0_compat; [lra|].
  apply Rdiv_lt_0_compat; [lra | apply length_or_1_pos].
Defined.




(** ** The hover emphasis *)

(** *** Running scale tweens of a list of tweens *)

Section RunningScale.

Import Scene Invariants.

Lemma killTween_fields (tw : Tween) :
  target (killTween tw) = target tw /\ toValue (killTween tw) = toValue tw.
Proof. unfold killTween; destruct (status tw); split; reflexivity. Qed.

Lemma runningScale_kill (h0 : nat) (l : list Tween) (m h : nat) (v : Vec3) :
  (forall tw k, nth_error l h0 = Some tw -> target tw <> MeshScale k) ->
  runningScale (replaceAt h0 killTween l) m h v <-> runningScale l m h v.
Proof.
  intros Hother; unfold runningScale; split; intros (tw & Hn & Hrun & Htg & Hv).
  - rewrite nth_error_replaceAt in Hn.
    destruct (Nat.eqb_spec h h0) as [-> | Hne].
    + destruct (nth_error l h0) as [tw0|]; [|discriminate].
      injection Hn as <-; exfalso; exact (killTween_running _ Hrun).
    + exists tw; repeat split; assumption.
  - exists tw; rewrite nth_error_replaceAt.
    destruct (Nat.eqb_spec h h0) as [-> | Hne].
    + exfalso; exact (Hother tw m Hn Htg).
    + repeat split; assumption.
Qed.

Lemma runningScale_killAt (ho : option nat) (l : list Tween) (m h : nat) (v : Vec3) :
  (forall h0 tw k, ho = Some h0 -> nth_error l h0 = Some tw -> target tw <> MeshScale k) ->
  runningScale (killAt ho l) m h v <-> runningScale l m h v.
Proof.
  intros Hother; destruct ho as [h0|]; [|reflexivity].
  apply runningScale_kill; intros tw k; apply (Hother h0 tw k eq_refl).
Qed.

Lemma runningScale_app_other (l : list Tween) (tw0 : Tween) (m h : nat) (v : Vec3) :
  (forall k, target tw0 <> MeshScale k) ->
  runningScale (l ++ [tw0]) m h v <-> runningScale l m h v.
Proof.
  intros Hother; unfold runningScale; split; intros (tw & Hn & Hrun & Htg & Hv).
  - destruct (Nat.lt_ge_cases h (List.length l)) as [Hlt | Hge].
    + rewrite nth_error_app1 in Hn by exact Hlt.
      exists tw; repeat split; assumption.
    + rewrite nth_error_app2 in Hn by exact Hge.
      destruct (h - List.length l)%nat as [|d]; simpl in Hn;
        [|destruct d; discriminate].
      injection Hn as <-; exfalso; exact (Hother m Htg).
  - exists tw; rewrite nth_error_app1
      by (apply nth_error_Some; congruence).
    repeat split; assumption.
Qed.

Lemma runningScale_scaleTo (r : nat) (to : Vec3) (l : list Tween) (m h : nat)
    (v : Vec3) :
  runningScale (scaleTo r to l) m h v <->
  (m <> r /\ runningScale l m h v) \/ (m = r /\ h = List.length l /\ v = to).
Proof.
  unfold runningScale, scaleTo; split.
  - intros (tw & Hn & Hrun & Htg & Hv).
    destruct (Nat.lt_ge_cases h (List.length l)) as [Hlt | Hge].
    + rewrite nth_error_app1 in Hn by (rewrite length_map; exact Hlt).
      rewrite nth_error_map in Hn.
      destruct (nth_error l h) as [tw0|] eqn:Hn0; [|discriminate].
      simpl in Hn; injection Hn as <-.
      destruct (sameTarget (target tw0) (MeshScale r)) eqn:Hs.
      * exfalso; exact (killTween_running _ Hrun).
      * left; rewrite Htg in Hs; simpl in Hs; apply Nat.eqb_neq in Hs.
        split; [exact Hs|].
        exists tw0; repeat split; assumption.
    + rewrite nth_error_app2 in Hn by (rewrite length_map; exact Hge).
      rewrite length_map in Hn.
      destruct (h - List.length l)%nat as [|d] eqn:Hd; simpl in Hn;
        [|destruct d; discriminate].
      injection Hn as <-; simpl in *.
      right; injection Htg as <-.
      repeat split; [lia | symmetry; exact Hv].
  - intros [(Hne & tw & Hn & Hrun & Htg & Hv) | (-> & -> & ->)].
    + exists tw.
      rewrite nth_error_app1
        by (rewrite length_map; apply nth_error_Some; congruence).
      rewrite nth_error_map, Hn; simpl.
      rewrite Htg; simpl.
      apply Nat.eqb_neq in Hne; rewrite Hne.
      rewrite <- Htg; repeat split; assumption.
    + eexists.
      rewrite nth_error_app2 by (rewrite length_map; lia).
      rewrite length_map, Nat.sub_diag; simpl.
      repeat split.
Qed.

Lemma runningScale_completed (k : nat) (l : list Tween) (m h : nat) (v : Vec3) :
  runningScale (replaceAt k (set_status Completed) l) m h v <->
  h <> k /\ runningScale l m h v.
Proof.
  unfold runningScale; split.
  - intros (tw & Hn & Hrun & Htg & Hv).
    rewrite nth_error_replaceAt in Hn.
    destruct (Nat.eqb_spec h k) as [-> | Hne].
    + destruct (nth_error l k); [|discriminate].
      injection Hn as <-; discriminate.
    + split; [exact Hne|]; exists tw; repeat split; assumption.
  - intros (Hne & tw & Hn & Hrun & Htg & Hv).
    exists tw; rewrite nth_error_replaceAt.
    apply Nat.eqb_neq in Hne; rewrite Hne.
    repeat split; assumption.
Qed.

(** *** What keeps the emphasis *)

Lemma emphasisKept_equiv (hovered : option NodeMesh) (l l' : list Tween)
    (scales : list Vec3) :
  (forall m h v, runningScale l' m h v <-> runningScale l m h v) ->
  emphasisKept hovered l scales -> emphasisKept hovered l' scales.
Proof.
  intros Heq [HJ HK]; split.
  - intros m h v Hr; apply Heq in Hr.
    destruct (HJ m h v Hr) as [Hv Hu]; split; [exact Hv|].
    intros h' v' Hr'; apply Heq in Hr'; exact (Hu h' v' Hr').
  - intros m scale Hn.
    destruct (HK m scale Hn) as [(h & v & Hr) | Hs]; [left | right; exact Hs].
    exists h, v; apply Heq, Hr.
Qed.

Lemma emphasisKept_scaleTo (hovered hovered' : option NodeMesh) (r : nat) (to : Vec3)
    (l : list Tween) (scales : list Vec3) :
  emphasis hovered' r = to ->
  (forall m, m <> r -> emphasis hovered' m = emphasis hovered m) ->
  emphasisKept hovered l scales -> emphasisKept hovered' (scaleTo r to l) scales.
Proof.
  intros Hto Hrest [HJ HK]; split.
  - intros m h v Hr; apply runningScale_scaleTo in Hr.
    destruct Hr as [(Hne & Hr) | (-> & -> & ->)].
    + destruct (HJ m h v Hr) as [Hv Hu].
      split; [rewrite Hrest by exact Hne; exact Hv|].
      intros h' v' Hr'; apply runningScale_scaleTo in Hr'.
      destruct Hr' as [(_ & Hr') | (He & _)]; [exact (Hu h' v' Hr') | contradiction].
    + split; [symmetry; exact Hto|].
      intros h' v' Hr'; apply runningScale_scaleTo in Hr'.
      destruct Hr' as [(Hne & _) | (_ & -> & _)]; [contradiction | reflexivity].
  - intros m scale Hn.
    destruct (Nat.eq_dec m r) as [-> | Hne].
    + left; exists (List.length l), to; apply runningScale_scaleTo.
      right; repeat split.
    + destruct (HK m scale Hn) as [(h & v & Hr) | Hs].
      * left; exists h, v; apply runningScale_scaleTo; left; split; assumption.
      * right; rewrite Hrest by exact Hne; exact Hs.
Qed.

Lemma emphasis_none (m : nat) : emphasis None m = mkVec3 1 1 1.
Proof. reflexivity. Qed.

Lemma emphasis_self (n : NodeMesh) : emphasis (Some n) (ref n) = mkVec3 1.45 1.45 1.45.
Proof. unfold emphasis; rewrite Nat.eqb_refl; reflexivity. Qed.

Lemma emphasis_other (n : NodeMesh) (m : nat) :
  m <> ref n -> emphasis (Some n) m = mkVec3 1 1 1.
Proof.
  intros H; unfold emphasis.
  destruct (Nat.eqb_spec (ref n) m); [congruence | reflexivity].
Qed.

Lemma emphasisKept_hover (old next : option NodeMesh) (l : list Tween)
    (scales : list Vec3) :
  emphasisKept old l scales ->
  emphasisKept (if sameMesh old next then old else next) (hoverTweens old next l)
    scales.
Proof.
  intros H; unfold hoverTweens.
  destruct (sameMesh old next) eqn:Hsame; [exact H|].
  assert (H1 : emphasisKept None
                 match old with
                 | Some o => scaleTo (ref o) (mkVec3 1 1 1) l
                 | None => l
                 end scales).
  { destruct old as [o|]; [|exact H].
    apply (emphasisKept_scaleTo (Some o)); [reflexivity | | exact H].
    intros m Hm; rewrite emphasis_other by exact Hm; reflexivity. }
  destruct next as [n|]; [|exact H1].
  apply (emphasisKept_scaleTo None); [apply emphasis_self | | exact H1].
  intros m Hm; apply emphasis_other, Hm.
Qed.

Lemma nth_error_replaceAt_const {A : Type} (m k : nat) (v : A) (l : list A) (a : A) :
  nth_error (replaceAt m (fun _ => v) l) k = Some a ->
  (k = m /\ a = v) \/ (k <> m /\ nth_error l k = Some a).
Proof.
  rewrite nth_error_replaceAt.
  destruct (Nat.eqb_spec k m) as [-> | Hne]; intros H.
  - destruct (nth_error l m); [|discriminate].
    injection H as <-; left; split; reflexivity.
  - right; split; assumption.
Qed.

Lemma emphasisKept_update (hovered : option NodeMesh) (l : list Tween)
    (scales : list Vec3) (m h : nat) (v0 v : Vec3) :
  runningScale l m h v0 ->
  emphasisKept hovered l scales ->
  emphasisKept hovered l (replaceAt m (fun _ => v) scales).
Proof.
  intros Hr [HJ HK]; split; [exact HJ|].
  intros m' scale Hn.
  apply nth_error_replaceAt_const in Hn as [(-> & _) | (_ & Hn)].
  - left; exists h, v0; exact Hr.
  - apply (HK m' scale Hn).
Qed.

Lemma emphasisKept_complete (hovered : option NodeMesh) (l : list Tween)
    (scales : list Vec3) (k : nat) (tw : Tween) :
  nth_error l k = Some tw -> status tw = Running ->
  emphasisKept hovered l scales ->
  emphasisKept hovered (replaceAt k (set_status Completed) l)
    match target tw with
    | MeshScale m => replaceAt m (fun _ => toValue tw) scales
    | _ => scales
    end.
Proof.
  intros Hn Hrun [HJ HK].
  assert (HJ' : forall m h v,
            runningScale (replaceAt k (set_status Completed) l) m h v ->
            v = emphasis hovered m /\
            forall h' v',
              runningScale (replaceAt k (set_status Completed) l) m h' v' -> h' = h).
  { intros m h v Hr; apply runningScale_completed in Hr as [_ Hr].
    destruct (HJ m h v Hr) as [Hv Hu]; split; [exact Hv|].
    intros h' v' Hr'; apply runningScale_completed in Hr' as [_ Hr'].
    exact (Hu h' v' Hr'). }
  split; [exact HJ'|].
  assert (Hkeep : forall m' scale, nth_error scales m' = Some scale ->
            (forall h v, runningScale l m' h v -> h <> k) ->
            (exists h v, runningScale (replaceAt k (set_status Completed) l) m' h v) \/
            scale = emphasis hovered m').
  { intros m' scale Hs Hnk.
    destruct (HK m' scale Hs) as [(h & v & Hr) | He]; [left | right; exact He].
    exists h, v; apply runningScale_completed; split; [exact (Hnk h v Hr) | exact Hr]. }
  intros m' scale Hs.
  destruct (target tw) as [| |m] eqn:Htg.
  - apply (Hkeep m' scale Hs).
    intros h v (tw' & Hn' & _ & Htg' & _) ->; congruence.
  - apply (Hkeep m' scale Hs).
    intros h v (tw' & Hn' & _ & Htg' & _) ->; congruence.
  - apply nth_error_replaceAt_const in Hs as [(-> & ->) | (Hne & Hs)].
    + right.
      apply (HJ m k (toValue tw)); exists tw; repeat split; assumption.
    + apply (Hkeep m' scale Hs).
      intros h v (tw' & Hn' & _ & Htg' & _) ->; congruence.
Qed.

Lemma map_sphereScale_replaceAt (m : nat) (v : Vec3) (l : list NodeGroup) :
  map sphereScale (replaceAt m (setScale v) l)
  = replaceAt m (fun _ => v) (map sphereScale l).
Proof.
  revert m; induction l as [|g l IH]; intros [|m]; simpl; try reflexivity.
  rewrite IH; reflexivity.
Qed.

Lemma map_sphereScale_float (elapsed : R) (l : list NodeGroup) :
  map sphereScale (map (floatChild elapsed) l) = map sphereScale l.
Proof. rewrite map_map; reflexivity. Qed.

End RunningScale.

(** *** The emphasis in the mounted scene *)

Section HoverEmphasis.

Import Scene Invariants.

Variable unproject : Vec3 -> Vec3 -> Vec3 -> Vec3.
Variable controlsUpdate : Vec3 * Vec3 -> Vec3 * Vec3.

Local Abbreviation step := (Scene.step unproject controlsUpdate).
Local Abbreviation run := (Scene.run unproject controlsUpdate).
Local Abbreviation animate := (Scene.animate controlsUpdate).
Local Abbreviation onPointerMove := (Scene.onPointerMove unproject).
Local Abbreviation tweenComplete := (Scene.tweenComplete controlsUpdate).
Local Abbreviation tweenUpdate := (Scene.tweenUpdate controlsUpdate).
Local Abbreviation mount := (Scene.mount controlsUpdate).

Lemma setHovered_view (nextHovered : option NodeMesh) (s : Scene) :
  currentHovered (setHovered nextHovered s)
  = (if sameMesh (currentHovered s) nextHovered then currentHovered s
     else nextHovered) /\
  tweens (setHovered nextHovered s)
  = hoverTweens (currentHovered s) nextHovered (tweens s) /\
  children (setHovered nextHovered s) = children s.
Proof.
  destruct s; unfold setHovered, gsapTo, hoverTweens, scaleTo, emit; simpl.
  destruct currentHovered0 as [o|], nextHovered as [n|]; simpl;
    try destruct (ref o =? ref n)%nat; repeat split.
Qed.

Lemma animate_view (delta : R) (hit : option NodeMesh) (s : Scene) :
  currentHovered (animate delta hit s)
  = currentHovered (setHovered (frameTarget hit s) s) /\
  tweens (animate delta hit s) = tweens (setHovered (frameTarget hit s) s) /\
  map sphereScale (children (animate delta hit s)) = map sphereScale (children s).
Proof.
  destruct s as [? ? ? ? ? ? ? ? ? hovered ? ? ? ? ? ? ? [[? locked ? ? ?]|] ? ?];
    unfold Scene.animate, Scene.updateControls, frameTarget, setHovered, gsapTo, emit;
    simpl; try destruct locked; simpl;
    destruct hovered as [o|]; simpl;
    try (destruct hit as [n|]; simpl; try destruct (ref o =? ref n)%nat; simpl);
    rewrite ?map_sphereScale_float; repeat split.
Qed.

Lemma step_view_same (s : Scene) (a : Action) :
  match a with
  | PointerMove _ _ _ _ | PointerDown _ _ | PointerUp | PointerLeave | Click =>
      currentHovered (step s a) = currentHovered s /\
      tweens (step s a) = tweens s /\ children (step s a) = children s
  | _ => True
  end.
Proof.
  destruct a; try exact I;
    destruct s; unfold_handlers; handler_cases; repeat split.
Qed.

Lemma tweenUpdate_view (h : nat) (v : Vec3) (s : Scene) :
  currentHovered (tweenUpdate h v s) = currentHovered s /\
  tweens (tweenUpdate h v s) = tweens s /\
  map sphereScale (children (tweenUpdate h v s))
  = match nth_error (tweens s) h with
    | Some tw =>
        match status tw, target tw with
        | Running, MeshScale m => replaceAt m (fun _ => v) (map sphereScale (children s))
        | _, _ => map sphereScale (children s)
        end
    | None => map sphereScale (children s)
    end.
Proof.
  destruct s; unfold_handlers; handler_cases;
    rewrite ?map_sphereScale_replaceAt; repeat split.
Qed.

Lemma tweenComplete_view (k : nat) (s : Scene) :
  currentHovered (tweenComplete k s) = currentHovered s /\
  match nth_error (tweens s) k with
  | Some tw =>
      match status tw with
      | Running =>
          tweens (tweenComplete k s) = replaceAt k (set_status Completed) (tweens s) /\
          map sphereScale (children (tweenComplete k s))
          = match target tw with
            | MeshScale m =>
                replaceAt m (fun _ => toValue tw) (map sphereScale (children s))
            | _ => map sphereScale (children s)
            end
      | _ => tweenComplete k s = s
      end
  | None => tweenComplete k s = s
  end.
Proof.
  destruct s; unfold_handlers; handler_cases;
    rewrite ?map_sphereScale_replaceAt; repeat split.
Qed.

Lemma focusPrelude_tweens (focusSite : option SiteNode) (rt : SceneRuntime) (s : Scene) :
  runtime s = Some rt ->
  tweens (focusPrelude focusSite rt s)
  = hoverTweens (currentHovered s) None
      (killAt (targetTween rt) (killAt (cameraTween rt) (tweens s))).
Proof.
  intros Hrt; destruct s; simpl in Hrt; subst; destruct rt.
  unfold focusPrelude, kill, setRuntime, clearHover, setHovered, gsapTo, emit,
    hoverTweens, killAt, scaleTo.
  handler_cases; reflexivity.
Qed.

Lemma focus_tail_tweens (x : Scene) (to1 to2 : Vec3) (dur : R) (e : Ease)
    (compl : option SiteNode) :
  let g1 := gsapTo CameraPosition to1 dur e false false None x in
  let s6 := setRuntime (set_cameraTween (Some (snd g1))) (fst g1) in
  let g2 := gsapTo ControlsTarget to2 dur e false true compl s6 in
  let s' := setRuntime (set_targetTween (Some (snd g2))) (fst g2) in
  tweens s'
  = (tweens x ++ [mkTween CameraPosition to1 dur e false None Running])
    ++ [mkTween ControlsTarget to2 dur e true compl Running].
Proof.
  destruct x as [? ? ? ? ? ? ? ? ? ? ? ? ? ? ? ? ? [rt|] ? ?];
    cbv zeta; unfold setRuntime, gsapTo; simpl; reflexivity.
Qed.

Lemma focusEffect_tweens (focusSite : option SiteNode) (s : Scene) (rt : SceneRuntime) :
  runtime s = Some rt ->
  exists cameraTw targetTw,
    target cameraTw = CameraPosition /\ target targetTw = ControlsTarget /\
    tweens (focusEffect focusSite s)
    = (hoverTweens (currentHovered s) None
         (killAt (targetTween rt) (killAt (cameraTween rt) (tweens s)))
       ++ [cameraTw]) ++ [targetTw].
Proof.
  intros Hrt.
  rewrite (focusEffect_eq focusSite s rt Hrt); cbv zeta.
  rewrite focus_tail_tweens, (focusPrelude_tweens focusSite rt s Hrt).
  do 2 eexists; split; [|split; [|reflexivity]]; reflexivity.
Qed.

Lemma typed_step (s : Scene) (a : Action) :
  tweensTracked s -> handlesTyped s -> handlesTyped (step s a).
Proof.
  intros Htr (rt & Hrt & Hc & Ht).
  destruct (isFocus a) eqn:Ha.
  - destruct a; try discriminate; cbn [Scene.step].
    destruct (focusEffect_spec focusSite s rt Hrt Htr)
      as (hc & ht & _ & Hr & Hcam & Htg & _).
    eexists; split; [exact Hr|]; cbn [cameraTween targetTween]; split.
    + intros h [= <-]; eexists; split; [exact Hcam | reflexivity].
    + intros h [= <-]; eexists; split; [exact Htg | reflexivity].
  - exists rt.
    split; [rewrite (step_runtime unproject controlsUpdate s a Ha); exact Hrt|].
    assert (Hkeep : forall h tw, nth_error (tweens s) h = Some tw ->
              target tw = CameraPosition \/ target tw = ControlsTarget ->
              exists tw', nth_error (tweens (step s a)) h = Some tw' /\
                          target tw' = target tw).
    { intros h tw Hn Hor.
      destruct a; try discriminate;
        try (exists tw; split; [|reflexivity];
             apply (quiet_step unproject controlsUpdate s) with (a := _);
             [exact I | exact Hn | exact Hor]).
      cbn [Scene.step].
      destruct (tweenComplete_view h0 s) as [_ Hv].
      destruct (nth_error (tweens s) h0) as [tw0|] eqn:Hn0;
        [destruct (status tw0) eqn:Hs0|];
        try (rewrite Hv; exists tw; split; [exact Hn | reflexivity]).
      destruct Hv as [Hv _]; rewrite Hv, nth_error_replaceAt.
      destruct (Nat.eqb_spec h h0) as [-> | Hne].
      - rewrite Hn; simpl; eexists; split; reflexivity.
      - exists tw; split; [exact Hn | reflexivity]. }
    split.
    + intros h Hh; destruct (Hc h Hh) as (tw & Hn & Htgt).
      destruct (Hkeep h tw Hn (or_introl Htgt)) as (tw' & Hn' & Ht').
      exists tw'; split; [exact Hn' | congruence].
    + intros h Hh; destruct (Ht h Hh) as (tw & Hn & Htgt).
      destruct (Hkeep h tw Hn (or_intror Htgt)) as (tw' & Hn' & Ht').
      exists tw'; split; [exact Hn' | congruence].
Qed.

Lemma emphasised_step (s : Scene) (a : Action) :
  handlesTyped s -> emphasised s -> emphasised (step s a).
Proof.
  intros (rt & Hrt & Hc & Ht) He; unfold emphasised in *.
  pose proof (step_view_same s a) as Hsame.
  destruct a; try (destruct Hsame as (-> & -> & ->); exact He); cbn [Scene.step].
  - (* control start *)
    unfold onControlStart.
    destruct (setHovered_view None s) as (-> & -> & ->).
    apply emphasisKept_hover, He.
  - (* frame *)
    destruct (animate_view delta hit s) as (-> & -> & ->).
    destruct (setHovered_view (frameTarget hit s) s) as (-> & -> & _).
    apply emphasisKept_hover, He.
  - (* focus *)
    destruct (focusEffect_fields focusSite s rt Hrt) as (_ & -> & _ & _ & -> & _).
    destruct (focusEffect_tweens focusSite s rt Hrt) as (cam & tgt & Hcam & Htgt & ->).
    apply (emphasisKept_equiv _
             (hoverTweens (currentHovered s) None
                (killAt (targetTween rt) (killAt (cameraTween rt) (tweens s))))).
    { intros m h v.
      rewrite !runningScale_app_other by (intros k; congruence).
      reflexivity. }
    assert (Hk : emphasisKept (currentHovered s)
                   (killAt (targetTween rt) (killAt (cameraTween rt) (tweens s)))
                   (map sphereScale (children s))).
    { apply (emphasisKept_equiv _ (tweens s)); [|exact He].
      intros m h v.
      rewrite runningScale_killAt.
      - apply runningScale_killAt.
        intros h0 tw k Hh Hn; destruct (Hc h0 Hh) as (tw' & Hn' & Htg').
        congruence.
      - intros h0 tw k Hh Hn; destruct (Ht h0 Hh) as (tw' & Hn' & Htg').
        destruct (cameraTween rt) as [hc|]; simpl in Hn; [|congruence].
        rewrite nth_error_replaceAt in Hn.
        destruct (h0 =? hc)%nat; [|congruence].
        rewrite Hn' in Hn; simpl in Hn; injection Hn as <-.
        rewrite (proj1 (killTween_fields tw')); congruence. }
    pose proof (emphasisKept_hover _ None _ _ Hk) as Hh.
    destruct (sameMesh (currentHovered s) None) eqn:Hs; [|exact Hh].
    destruct (currentHovered s); [discriminate | exact Hh].
  - (* tween update *)
    destruct (tweenUpdate_view h v s) as (-> & -> & ->).
    destruct (nth_error (tweens s) h) as [tw|] eqn:Hn; [|exact He].
    destruct (status tw) eqn:Hs; try exact He.
    destruct (target tw) as [| |m] eqn:Htg; try exact He.
    apply (emphasisKept_update _ _ _ m h (toValue tw)); [|exact He].
    exists tw; repeat split; assumption.
  - (* tween completion *)
    destruct (tweenComplete_view h s) as (-> & Hv).
    destruct (nth_error (tweens s) h) as [tw|] eqn:Hn;
      [destruct (status tw) eqn:Hs|]; try (rewrite Hv; exact He).
    destruct Hv as [-> ->].
    apply emphasisKept_complete; assumption.
Qed.

Lemma emphasised_run (acts : list Action) (s : Scene) :
  tweensTracked s -> handlesTyped s -> emphasised s -> emphasised (run s acts).
Proof.
  revert s; induction acts as [|a acts IH]; intros s Htr Hty He; [exact He|].
  change (run s (a :: acts)) with (run (step s a) acts).
  apply IH;
    [apply tracked_step, Htr | apply typed_step; assumption
    | apply emphasised_step; assumption].
Qed.

Lemma makeGroups_scale (sites : list SiteNode) (draws : list (R * R)) (m : nat)
    (scale : Vec3) :
  nth_error (map sphereScale (makeGroups sites draws)) m = Some scale ->
  scale = mkVec3 1 1 1.
Proof.
  revert draws m; induction sites as [|st sites IH]; intros draws [|m] H;
    simpl in H; try discriminate.
  - injection H as <-; reflexivity.
  - apply (IH _ _ H).
Qed.

(** X23: In every state the mounted scene reaches, a node has at most one
    running tween of its scale; this tween aims at 1.45 if the node is the
    hovered one and at 1 otherwise; and a node that has no running tween
    of its scale is at this scale: 1.45 for the hovered node, 1 for every
    other.  Every change of the hover overwrites the scale tweens of the
    two nodes it concerns. *)
Theorem hover_emphasis_kept (sites : list SiteNode) (draws : list (R * R))
    (acts : list Action) :
  let s := run (mount sites draws) acts in
  (forall m h tw,
     nth_error (tweens s) h = Some tw -> status tw = Running ->
     target tw = MeshScale m ->
     toValue tw = emphasis (currentHovered s) m /\
     forall h' tw',
       nth_error (tweens s) h' = Some tw' -> status tw' = Running ->
       target tw' = MeshScale m -> h' = h) /\
  (forall m g, nth_error (children s) m = Some g ->
     (exists h tw, nth_error (tweens s) h = Some tw /\ status tw = Running /\
                   target tw = MeshScale m) \/
     sphereScale g = emphasis (currentHovered s) m) /\
  (forall n m, emphasis (Some n) m
               = if (ref n =? m)%nat then mkVec3 1.45 1.45 1.45 else mkVec3 1 1 1) /\
  (forall m, emphasis None m = mkVec3 1 1 1).
Proof.
  intros s.
  assert (He : emphasised s).
  { apply emphasised_run.
    - apply tracked_mount.
    - eexists; split; [reflexivity|]; split; intros h Hh; discriminate.
    - split.
      + intros m h v (tw & Hn & _); destruct h; discriminate.
      + intros m scale Hn; right; exact (makeGroups_scale _ _ _ _ Hn). }
  destruct He as [HJ HK].
  split; [|split; [|split; reflexivity]].
  - intros m h tw Hn Hrun Htg.
    destruct (HJ m h (toValue tw)) as [Hv Hu];
      [exists tw; repeat split; assumption|].
    split; [exact Hv|].
    intros h' tw' Hn' Hrun' Htg'.
    apply (Hu h' (toValue tw')); exists tw'; repeat split; assumption.
  - intros m g Hn.
    destruct (HK m (sphereScale g)) as [(h & v & tw & Hn' & Hrun & Htg & _) | Hs].
    + rewrite nth_error_map, Hn; reflexivity.
    + left; exists h, tw; repeat split; assumption.
    + right; exact Hs.
Qed.

End HoverEmphasis.
